(** * ipfs-cluster: pin tracker, shared state, consensus retry loop,
      numpin allocator and peer manager

    A shallow embedding of the Go sources and the properties they satisfy.

    Conventions of the embedding:
    - a [*cid.Cid] and a [peer.ID] are represented by their string form
      (the tracker and the state key their maps by [c.String()]);
    - a Go [error] is the string returned by [Error()]; a nullable error is
      an [option string] ([None] is [nil]);
    - Go maps are [gmap]s.  The order in which [range] walks a Go map is
      unspecified, so every function that ranges over a map takes the
      enumeration chosen by the runtime as an argument ([iter]); the
      theorems hold for every enumeration that is a permutation of the
      map's contents;
    - mutexes are not modelled: a function of the embedding runs without
      interference, and the step relation of the tracker has the critical
      sections [set] and [setError] as steps of their own, for what other
      goroutines do in between;
    - [time.Now()] is the argument [now] (nanoseconds), one instant per
      call. *)

From Stdlib Require Import ZArith Ascii String List Lia Bool.
From stdpp Require Import gmap strings list fin_maps sorting.

Local Open Scope string_scope.
Local Open Scope Z_scope.
Local Open Scope list_scope.

(** ** Package api (type declarations) *)

Module api.

(** Modelled from the spec: the declaration of [api.TrackerStatus] (file
    types.go of package api) is not among the sources; the spec lists the
    statuses of a tracker entry as Pinning, Pinned, Unpinning, Unpinned,
    PinError, UnpinError and Remote. *)
Inductive TrackerStatus : Set :=
  | TrackerStatusPinError
  | TrackerStatusUnpinError
  | TrackerStatusPinned
  | TrackerStatusPinning
  | TrackerStatusUnpinning
  | TrackerStatusUnpinned
  | TrackerStatusRemote.

#[global] Instance TrackerStatus_eq_dec : EqDecision TrackerStatus.
Proof. solve_decision. Defined.

(** Modelled from the spec: the declaration of [api.IPFSPinStatus] and of
    its method [IsPinned] is not among the sources; the spec gives the
    daemon's answer for a CID as one of Pinned, Unpinned, Pinning
    (daemon-internal) and Error, and reconciles on "daemon Pinned" against
    everything else. *)
Inductive IPFSPinStatus : Set :=
  | IPFSPinStatusError
  | IPFSPinStatusPinned
  | IPFSPinStatusPinning
  | IPFSPinStatusUnpinned.

Definition IsPinned (ips : IPFSPinStatus) : bool :=
  match ips with
  | IPFSPinStatusPinned => true
  | _ => false
  end.

(** Modelled from the spec: [api.PinInfo] (the spec's TrackerEntry), with
    the field names the tracker uses. *)
Record PinInfo : Set := mkPinInfo {
  Cid : string;
  Peer : string;
  Status : TrackerStatus;
  TS : Z;
  Error : string
}.

(** Modelled from the spec: [api.CidArg] (the spec's PinSpec), with the
    field names the tracker and the state use. *)
Record CidArg : Set := mkCidArg {
  carg_Cid : string;
  Allocations : list string;
  Everywhere : bool
}.

(** [api.CidArgCid(c)]: a CidArg that carries only the CID. *)
Definition CidArgCid (c : string) : CidArg :=
  {| carg_Cid := c; Allocations := []; Everywhere := false |}.

(** Modelled from the spec: [api.CidArgSerial] and the conversions
    [ToSerial] and [ToCidArg] are not among the sources; the serial form
    carries "string-form CIDs" and peers.  CIDs and peers are strings in
    this embedding already, so the conversions copy the fields. *)
Record CidArgSerial : Set := mkCidArgSerial {
  ser_Cid : string;
  ser_Allocations : list string;
  ser_Everywhere : bool
}.

(** Modelled from the spec: [CidArg.ToSerial], which is not among the
    sources; the serial form holds the CID and the peers in string form. *)
Definition ToSerial (c : CidArg) : CidArgSerial :=
  {| ser_Cid := carg_Cid c; ser_Allocations := Allocations c;
     ser_Everywhere := Everywhere c |}.

(** Modelled from the spec: [CidArgSerial.ToCidArg], which is not among
    the sources; the inverse of [ToSerial]. *)
Definition ToCidArg (s : CidArgSerial) : CidArg :=
  {| carg_Cid := ser_Cid s; Allocations := ser_Allocations s;
     Everywhere := ser_Everywhere s |}.

(** The zero value [api.CidArg{}]. *)
Definition CidArg_zero : CidArg :=
  {| carg_Cid := ""; Allocations := []; Everywhere := false |}.

(** Modelled from the spec: [api.Metric], "Metric{name, value, valid,
    expiresAt}". *)
Record Metric : Set := mkMetric {
  Name : string;
  Value : string;
  Expire : Z;
  Valid : bool
}.

(** Modelled from the spec: [Metric.Expired] is not among the sources;
    "Metrics carry a TTL", and a metric has expired when the clock is past
    its [expiresAt]. *)
Definition Expired (now : Z) (m : Metric) : bool := Expire m <? now.

(** Modelled from the spec: [Metric.Discard] is not among the sources;
    "consumers discard expired metrics", and a metric that is not valid is
    no "valid metric for a candidate" either. *)
Definition Discard (now : Z) (m : Metric) : bool :=
  negb (Valid m) || Expired now m.

End api.

(** ** Package tracker: map_pin.go *)

Module tracker.
Import api.

Definition second : Z := 1000000000.
Definition minute : Z := 60 * second.

Definition PinningTimeout : Z := 15 * minute.
Definition UnpinningTimeout : Z := 10 * second.

Definition PinQueueSize : nat := 1024.

Definition errUnpinningTimeout : string := "unpinning operation is taking too long".
Definition errPinningTimeout : string := "pinning operation is taking too long".
Definition errPinned : string := "the item is unexpectedly pinned on IPFS".
Definition errUnpinned : string := "the item is unexpectedly not pinned on IPFS".

Definition ErrPinQueueFull : string := "pin queue is full".
Definition ErrUnpinQueueFull : string := "unpin queue is full".

(** A buffered Go channel of CidArg: the queued items, oldest first, and
    the capacity given to [make]. *)
Record chan : Set := mkChan {
  buf : list CidArg;
  cap : nat
}.

(** [select { case ch <- x: ... default: ... }]: the send succeeds when
    the buffer has room, and otherwise the default branch runs.  (On a
    channel of capacity 0 a send succeeds when a receiver waits; the
    embedding covers buffered channels.) *)
Definition try_send (ch : chan) (x : CidArg) : option chan :=
  if (length (buf ch) <? cap ch)%nat
  then Some {| buf := buf ch ++ [x]; cap := cap ch |}
  else None.

(** [x := <-ch] on a channel that holds an item. *)
Definition recv (ch : chan) : option (CidArg * chan) :=
  match buf ch with
  | [] => None
  | x :: rest => Some (x, {| buf := rest; cap := cap ch |})
  end.

(** The calls the tracker sends through [mpt.rpcClient]. *)
Inductive RpcCall : Set :=
  | CallIPFSPin (c : string)
  | CallIPFSUnpin (c : string)
  | CallIPFSPinLsCid (c : string)
  | CallIPFSPinLs (filter : string).

(** The answers of the IPFS connector behind the RPC client at the time of
    a call. *)
Record Daemon : Type := mkDaemon {
  IPFSPin : string -> option string;
  IPFSUnpin : string -> option string;
  IPFSPinLsCid : string -> IPFSPinStatus + string;
  IPFSPinLs : string -> gmap string IPFSPinStatus + string
}.

(** [rpcLog] records, oldest first, the calls sent through the RPC client;
    the other fields are the fields of the Go struct. *)
Record mapPinTracker : Type := mkTracker {
  status : gmap string PinInfo;
  peerID : string;
  pinCh : chan;
  unpinCh : chan;
  rpcLog : list RpcCall
}.

Definition with_status (m : gmap string PinInfo) (mpt : mapPinTracker) : mapPinTracker :=
  {| status := m; peerID := peerID mpt; pinCh := pinCh mpt;
     unpinCh := unpinCh mpt; rpcLog := rpcLog mpt |}.

Definition with_pinCh (ch : chan) (mpt : mapPinTracker) : mapPinTracker :=
  {| status := status mpt; peerID := peerID mpt; pinCh := ch;
     unpinCh := unpinCh mpt; rpcLog := rpcLog mpt |}.

Definition with_unpinCh (ch : chan) (mpt : mapPinTracker) : mapPinTracker :=
  {| status := status mpt; peerID := peerID mpt; pinCh := pinCh mpt;
     unpinCh := ch; rpcLog := rpcLog mpt |}.

Definition logged (call : RpcCall) (mpt : mapPinTracker) : mapPinTracker :=
  {| status := status mpt; peerID := peerID mpt; pinCh := pinCh mpt;
     unpinCh := unpinCh mpt; rpcLog := rpcLog mpt ++ [call] |}.

(** [NewMapPin(cfg)], with the queue size read from [PinQueueSize] at the
    time of the call. *)
Definition NewMapPin (cfgID : string) (queueSize : nat) : mapPinTracker :=
  {| status := ∅; peerID := cfgID;
     pinCh := {| buf := []; cap := queueSize |};
     unpinCh := {| buf := []; cap := queueSize |};
     rpcLog := [] |}.

Definition unsafeSet (mpt : mapPinTracker) (now : Z) (c : string)
    (s : TrackerStatus) : mapPinTracker :=
  if decide (s = TrackerStatusUnpinned)
  then with_status (delete c (status mpt)) mpt
  else with_status
         (<[c := {| Cid := c; Peer := peerID mpt; Status := s;
                    TS := now; Error := "" |}]> (status mpt)) mpt.

Definition set := unsafeSet.

Definition unsafeGet (mpt : mapPinTracker) (now : Z) (c : string) : PinInfo :=
  match status mpt !! c with
  | None => {| Cid := c; Peer := peerID mpt; Status := TrackerStatusUnpinned;
               TS := now; Error := "" |}
  | Some p => p
  end.

Definition get := unsafeGet.

Definition unsafeSetError (mpt : mapPinTracker) (now : Z) (c : string)
    (err : string) : mapPinTracker :=
  let p := unsafeGet mpt now c in
  match Status p with
  | TrackerStatusPinned | TrackerStatusPinning | TrackerStatusPinError =>
      with_status
        (<[c := {| Cid := c; Peer := peerID mpt; Status := TrackerStatusPinError;
                   TS := now; Error := err |}]> (status mpt)) mpt
  | TrackerStatusUnpinned | TrackerStatusUnpinning | TrackerStatusUnpinError =>
      with_status
        (<[c := {| Cid := c; Peer := peerID mpt; Status := TrackerStatusUnpinError;
                   TS := now; Error := err |}]> (status mpt)) mpt
  | TrackerStatusRemote => mpt
  end.

Definition setError := unsafeSetError.

(** The loop of [isRemote] over [c.Allocations]. *)
Fixpoint not_allocated (self : string) (allocs : list string) : bool :=
  match allocs with
  | [] => true
  | p :: rest => if String.eqb p self then false else not_allocated self rest
  end.

Definition isRemote (mpt : mapPinTracker) (c : CidArg) : bool :=
  if Everywhere c then false else not_allocated (peerID mpt) (Allocations c).

Definition pin (mpt : mapPinTracker) (now : Z) (d : Daemon) (c : CidArg)
    : mapPinTracker * option string :=
  let mpt := set mpt now (carg_Cid c) TrackerStatusPinning in
  let mpt := logged (CallIPFSPin (carg_Cid c)) mpt in
  match IPFSPin d (carg_Cid c) with
  | Some err => (setError mpt now (carg_Cid c) err, Some err)
  | None => (set mpt now (carg_Cid c) TrackerStatusPinned, None)
  end.

Definition unpin (mpt : mapPinTracker) (now : Z) (d : Daemon) (c : CidArg)
    : mapPinTracker * option string :=
  let mpt := logged (CallIPFSUnpin (carg_Cid c)) mpt in
  match IPFSUnpin d (carg_Cid c) with
  | Some err => (setError mpt now (carg_Cid c) err, Some err)
  | None => (set mpt now (carg_Cid c) TrackerStatusUnpinned, None)
  end.

Definition Track (mpt : mapPinTracker) (now : Z) (d : Daemon) (c : CidArg)
    : mapPinTracker * option string :=
  if isRemote mpt c then
    let mpt :=
      if decide (Status (get mpt now (carg_Cid c)) = TrackerStatusPinned)
      then fst (unpin mpt now d c)
      else mpt in
    (set mpt now (carg_Cid c) TrackerStatusRemote, None)
  else
    let mpt := set mpt now (carg_Cid c) TrackerStatusPinning in
    match try_send (pinCh mpt) c with
    | Some ch => (with_pinCh ch mpt, None)
    | None => (setError mpt now (carg_Cid c) ErrPinQueueFull, Some ErrPinQueueFull)
    end.

Definition Untrack (mpt : mapPinTracker) (now : Z) (c : string)
    : mapPinTracker * option string :=
  let mpt := set mpt now c TrackerStatusUnpinning in
  match try_send (unpinCh mpt) (CidArgCid c) with
  | Some ch => (with_unpinCh ch mpt, None)
  | None => (setError mpt now c ErrUnpinQueueFull, Some ErrUnpinQueueFull)
  end.

(** The method [Status]; the name without underscore is the field of
    [PinInfo]. *)
Definition Status_ (mpt : mapPinTracker) (now : Z) (c : string) : PinInfo :=
  get mpt now c.

(** [StatusAll]: [iter] is the enumeration of [mpt.status] by [range]. *)
Definition StatusAll (iter : list (string * PinInfo)) : list PinInfo :=
  iter.*2.

Definition syncStatus (mpt : mapPinTracker) (now : Z) (c : string)
    (ips : IPFSPinStatus) : mapPinTracker * PinInfo :=
  let p := get mpt now c in
  let mpt :=
    if IsPinned ips then
      match Status p with
      | TrackerStatusPinned => mpt
      | TrackerStatusPinning | TrackerStatusPinError =>
          set mpt now c TrackerStatusPinned
      | TrackerStatusUnpinning =>
          if UnpinningTimeout <? now - TS p
          then setError mpt now c errUnpinningTimeout
          else mpt
      | TrackerStatusUnpinned => setError mpt now c errPinned
      | TrackerStatusUnpinError => mpt
      | TrackerStatusRemote => mpt
      end
    else
      match Status p with
      | TrackerStatusPinned => setError mpt now c errUnpinned
      | TrackerStatusPinError => mpt
      | TrackerStatusPinning =>
          if PinningTimeout <? now - TS p
          then setError mpt now c errPinningTimeout
          else mpt
      | TrackerStatusUnpinning | TrackerStatusUnpinError =>
          set mpt now c TrackerStatusUnpinned
      | TrackerStatusUnpinned => mpt
      | TrackerStatusRemote => mpt
      end in
  (mpt, get mpt now c).

Definition Sync (mpt : mapPinTracker) (now : Z) (d : Daemon) (c : string)
    : mapPinTracker * (PinInfo * option string) :=
  let mpt := logged (CallIPFSPinLsCid c) mpt in
  match IPFSPinLsCid d c with
  | inr err =>
      let mpt := setError mpt now c err in
      (mpt, (get mpt now c, Some err))
  | inl ips =>
      let '(mpt, p) := syncStatus mpt now c ips in
      (mpt, (p, None))
  end.

(** The loop of [SyncAll] that runs when the bulk query failed. *)
Fixpoint markAll (mpt : mapPinTracker) (now : Z) (err : string)
    (keys : list string) (pInfos : list PinInfo)
    : mapPinTracker * list PinInfo :=
  match keys with
  | [] => (mpt, pInfos)
  | k :: rest =>
      let mpt := unsafeSetError mpt now k err in
      markAll mpt now err rest (pInfos ++ [unsafeGet mpt now k])
  end.

(** The loop of [SyncAll] over the snapshot returned by [StatusAll]. *)
Fixpoint syncEach (mpt : mapPinTracker) (now : Z)
    (ipsMap : gmap string IPFSPinStatus) (snapshot : list PinInfo)
    (pInfos : list PinInfo) : mapPinTracker * list PinInfo :=
  match snapshot with
  | [] => (mpt, pInfos)
  | pInfoOrig :: rest =>
      let c := Cid pInfoOrig in
      let '(mpt, pInfoNew) :=
        match ipsMap !! c with
        | None => syncStatus mpt now c IPFSPinStatusUnpinned
        | Some ips => syncStatus mpt now c ips
        end in
      let pInfos :=
        if negb (bool_decide (Status pInfoOrig = Status pInfoNew))
           || bool_decide (Status pInfoNew = TrackerStatusUnpinError)
           || bool_decide (Status pInfoNew = TrackerStatusPinError)
        then pInfos ++ [pInfoNew]
        else pInfos in
      syncEach mpt now ipsMap rest pInfos
  end.

Definition SyncAll (mpt : mapPinTracker) (now : Z) (d : Daemon)
    (iter : list (string * PinInfo))
    : mapPinTracker * (list PinInfo * option string) :=
  let mpt := logged (CallIPFSPinLs "recursive") mpt in
  match IPFSPinLs d "recursive" with
  | inr err =>
      let '(mpt, pInfos) := markAll mpt now err iter.*1 [] in
      (mpt, (pInfos, Some err))
  | inl ipsMap =>
      let '(mpt, pInfos) := syncEach mpt now ipsMap (StatusAll iter) [] in
      (mpt, (pInfos, None))
  end.

Definition Recover (mpt : mapPinTracker) (now : Z) (d : Daemon) (c : string)
    : mapPinTracker * (PinInfo * option string) :=
  let p := get mpt now c in
  match Status p with
  | TrackerStatusPinError =>
      let '(mpt, err) := pin mpt now d (CidArgCid c) in
      (mpt, (get mpt now c, err))
  | TrackerStatusUnpinError =>
      let '(mpt, err) := unpin mpt now d (CidArgCid c) in
      (mpt, (get mpt now c, err))
  | _ => (mpt, (p, None))
  end.

(** One turn of [pinWorker]'s loop: take the oldest queued item and pin. *)
Definition pinWorker (mpt : mapPinTracker) (now : Z) (d : Daemon)
    : option mapPinTracker :=
  match recv (pinCh mpt) with
  | None => None
  | Some (p, ch) => Some (fst (pin (with_pinCh ch mpt) now d p))
  end.

(** One turn of [unpinWorker]'s loop. *)
Definition unpinWorker (mpt : mapPinTracker) (now : Z) (d : Daemon)
    : option mapPinTracker :=
  match recv (unpinCh mpt) with
  | None => None
  | Some (p, ch) => Some (fst (unpin (with_unpinCh ch mpt) now d p))
  end.

(** The entry [unsafeSetError] leaves under [k] when it finds [p] there:
    an error of the polarity of [p]'s status, or [p] itself when [p] is
    Remote. *)
Definition markError (self : string) (now : Z) (err : string) (k : string)
    (p : PinInfo) : PinInfo :=
  match Status p with
  | TrackerStatusPinned | TrackerStatusPinning | TrackerStatusPinError =>
      {| Cid := k; Peer := self; Status := TrackerStatusPinError;
         TS := now; Error := err |}
  | TrackerStatusUnpinned | TrackerStatusUnpinning | TrackerStatusUnpinError =>
      {| Cid := k; Peer := self; Status := TrackerStatusUnpinError;
         TS := now; Error := err |}
  | TrackerStatusRemote => p
  end.

(** The daemon's status of [c] as [SyncAll] reads it off the answer of the
    bulk query: a CID that is not listed counts as unpinned. *)
Definition ipsOf (ipsMap : gmap string IPFSPinStatus) (c : string)
    : IPFSPinStatus :=
  match ipsMap !! c with
  | None => IPFSPinStatusUnpinned
  | Some ips => ips
  end.

(** Sample collaborators and trackers. *)
Definition daemonHealthy : Daemon :=
  {| IPFSPin := fun _ => None; IPFSUnpin := fun _ => None;
     IPFSPinLsCid := fun _ => inl IPFSPinStatusPinned;
     IPFSPinLs := fun _ => inl ∅ |}.

Definition daemonDown : Daemon :=
  {| IPFSPin := fun _ => Some "connection refused";
     IPFSUnpin := fun _ => Some "connection refused";
     IPFSPinLsCid := fun _ => inr "connection refused";
     IPFSPinLs := fun _ => inr "connection refused" |}.

Definition cargLocal (c : string) : CidArg :=
  {| carg_Cid := c; Allocations := ["A"]; Everywhere := false |}.

Definition cargElsewhere (c : string) : CidArg :=
  {| carg_Cid := c; Allocations := ["B"]; Everywhere := false |}.

(** The condition under which [SyncAll] appends the new entry of a CID to
    the list it returns. *)
Definition reported (pInfoOrig pInfoNew : PinInfo) : bool :=
  negb (bool_decide (Status pInfoOrig = Status pInfoNew))
  || bool_decide (Status pInfoNew = TrackerStatusUnpinError)
  || bool_decide (Status pInfoNew = TrackerStatusPinError).

(** The entry [SyncAll] reports for [pInfoOrig], if any, when the CID of
    [pInfoOrig] is reconciled on its own from the tracker [mpt0]. *)
Definition report (mpt0 : mapPinTracker) (now : Z)
    (ipsMap : gmap string IPFSPinStatus) (pInfoOrig : PinInfo)
    : option PinInfo :=
  let pInfoNew :=
    (syncStatus mpt0 now (Cid pInfoOrig) (ipsOf ipsMap (Cid pInfoOrig))).2 in
  if reported pInfoOrig pInfoNew then Some pInfoNew else None.

(** A tracker of queue size 1 whose two queues are full. *)
Definition trackerFull : mapPinTracker :=
  (Untrack (Track (NewMapPin "A" 1) 0 daemonHealthy (cargLocal "c1")).1
     0 "c0").1.

(** A tracker that holds "c1" as Pinning and "c2" as Remote. *)
Definition trackerMixed : mapPinTracker :=
  (Track (Track (NewMapPin "A" 2) 1 daemonHealthy (cargLocal "c1")).1
     1 daemonHealthy (cargElsewhere "c2")).1.

(** The tracker as a transition system.  The public operations and the
    two workers are steps; so are the critical sections [set] and
    [setError] on their own, which covers a goroutine that runs between
    two critical sections of another one.  [SyncAll] may work on a stale
    enumeration, so [iter] is unconstrained here. *)
Inductive step : mapPinTracker -> mapPinTracker -> Prop :=
  | step_Track mpt now d c : step mpt (Track mpt now d c).1
  | step_Untrack mpt now c : step mpt (Untrack mpt now c).1
  | step_Sync mpt now d c : step mpt (Sync mpt now d c).1
  | step_SyncAll mpt now d iter : step mpt (SyncAll mpt now d iter).1
  | step_Recover mpt now d c : step mpt (Recover mpt now d c).1
  | step_pinWorker mpt now d mpt' :
      pinWorker mpt now d = Some mpt' -> step mpt mpt'
  | step_unpinWorker mpt now d mpt' :
      unpinWorker mpt now d = Some mpt' -> step mpt mpt'
  | step_set mpt now c s : step mpt (set mpt now c s)
  | step_setError mpt now c err : step mpt (setError mpt now c err).

Definition reachable (cfgID : string) (queueSize : nat)
    (mpt : mapPinTracker) : Prop :=
  rtc step (NewMapPin cfgID queueSize) mpt.

(** What holds of every stored entry: it is not Unpinned, it sits under
    its own CID, and it names the local peer. *)
Definition entry_ok (self : string) (k : string) (p : PinInfo) : Prop :=
  Status p <> TrackerStatusUnpinned /\ Cid p = k /\ Peer p = self.

Definition inv (self : string) (mpt : mapPinTracker) : Prop :=
  peerID mpt = self /\
  forall k p, status mpt !! k = Some p -> entry_ok self k p.

(** The two queues respect the size they were made with. *)
Definition queues_ok (queueSize : nat) (mpt : mapPinTracker) : Prop :=
  cap (pinCh mpt) = queueSize /\ cap (unpinCh mpt) = queueSize /\
  (length (buf (pinCh mpt)) <= queueSize)%nat /\
  (length (buf (unpinCh mpt)) <= queueSize)%nat.

End tracker.

(** ** Package state: mapstate.go *)

Module state.
Import api.

Definition MapVersion : Z := 1.

Record mapState : Type := mkMapState {
  PinMap : gmap string CidArgSerial;
  Version : Z
}.

Definition NewMap : mapState := {| PinMap := ∅; Version := 0 |}.

Definition Add (st : mapState) (c : CidArg) : mapState * option string :=
  ({| PinMap := <[carg_Cid c := ToSerial c]> (PinMap st);
      Version := Version st |}, None).

Definition Rm (st : mapState) (c : string) : mapState * option string :=
  ({| PinMap := delete c (PinMap st); Version := Version st |}, None).

Definition Get (st : mapState) (c : string) : CidArg :=
  match PinMap st !! c with
  | None => CidArg_zero
  | Some cargs => ToCidArg cargs
  end.

Definition Has (st : mapState) (c : string) : bool :=
  match PinMap st !! c with
  | None => false
  | Some _ => true
  end.

(** [List]: [iter] is the enumeration of [st.PinMap] by [range]. *)
Definition List_ (iter : list (string * CidArgSerial)) : list CidArg :=
  ToCidArg <$> iter.*2.

(** A sample record. *)
Definition cargSample : CidArg :=
  {| carg_Cid := "QmP63DkAFEnDYNjDYBpyNDfttu1fvUw99x1brscPzpqmmq";
     Allocations := ["QmXZrtE5jQwXNqCJMfHUTQkvhQ4ZAnqMnmzFMJfLewuabc"];
     Everywhere := false |}.

End state.

(** ** Package cluster: the consensus component's commit loop *)

Module cluster.
Import api.

Definition millisecond : Z := 1000000.

Definition LeaderTimeout : Z := 15 * 1000 * millisecond.

Definition CommitRetries : Z := 2.

(** Modelled from the spec: the declaration of [LogOpType] and [LogOp] is
    not among the sources; a LogOp is a tagged variant of Pin, Unpin,
    AddPeer and RemovePeer, and [cc.op] fills [Cid] and [Type] for the
    operations on CIDs. *)
Inductive LogOpType : Set := LogOpPin | LogOpUnpin | LogOpAddPeer | LogOpRmPeer.

Record LogOp : Set := mkLogOp {
  op_Cid : CidArgSerial;
  op_Type : LogOpType
}.

Definition op (carg : CidArg) (t : LogOpType) : LogOp :=
  {| op_Cid := ToSerial carg; op_Type := t |}.

(** What the collaborators of the consensus component answer during one
    turn of the retry loop: [raftactor.Leader()] (a peer and an error),
    [raft.WaitForLeader], the RPC to the leader, and [CommitOp]. *)
Record Answers : Set := mkAnswers {
  ansLeader : string * option string;
  ansWaitForLeader : option string;
  ansCall : option string;
  ansCommitOp : option string
}.

(** What a call of [logOpCid] does to the outside, in order. *)
Inductive Event : Set :=
  | EvLeader
  | EvWaitForLeader (timeout : Z)
  | EvCall (dest method : string) (arg : CidArgSerial)
  | EvCommitOp (o : LogOp)
  | EvSleep (d : Z).

(** [redirectToLeader]: the pair returned, and the events. *)
Definition redirectToLeader (hostID : string) (a : Answers)
    (method : string) (arg : CidArgSerial)
    : (bool * option string) * list Event :=
  let '(leader, err) := ansLeader a in
  let rest (evs : list Event) :=
    if String.eqb leader hostID then ((false, None), evs)
    else ((true, ansCall a), evs ++ [EvCall leader method arg]) in
  match err with
  | Some _ =>
      match ansWaitForLeader a with
      | Some err' => ((false, Some err'), [EvLeader; EvWaitForLeader LeaderTimeout])
      | None => rest [EvLeader; EvWaitForLeader LeaderTimeout]
      end
  | None => rest [EvLeader]
  end.

(** The [for] loop of [logOpCid]: [n] turns are left, [i] is the loop
    counter, [finalErr] the variable of that name; [env i] gives the
    answers during turn [i].  The result is the value [logOpCid] returns. *)
Fixpoint logOpCid_loop (hostID : string) (env : nat -> Answers)
    (rpcOp : string) (opType : LogOpType) (carg : CidArg)
    (n i : nat) (finalErr : option string) (evs : list Event)
    : option string * list Event :=
  match n with
  | O => (finalErr, evs)
  | S n' =>
      let '((redirected, err), evs1) :=
        redirectToLeader hostID (env i) rpcOp (ToSerial carg) in
      match err with
      | Some e =>
          logOpCid_loop hostID env rpcOp opType carg n' (S i) (Some e)
            (evs ++ evs1)
      | None =>
          if redirected then (None, evs ++ evs1)
          else
            let o := op carg opType in
            match ansCommitOp (env i) with
            | Some e =>
                logOpCid_loop hostID env rpcOp opType carg n' (S i) (Some e)
                  (evs ++ evs1 ++ [EvCommitOp o; EvSleep (200 * millisecond)])
            | None => (None, evs ++ evs1 ++ [EvCommitOp o])
            end
      end
  end.

(** [logOpCid], with the value of the variable [CommitRetries] at the time
    of the call as [retries]. *)
Definition logOpCid (retries : Z) (hostID : string) (env : nat -> Answers)
    (rpcOp : string) (opType : LogOpType) (carg : CidArg)
    : option string * list Event :=
  logOpCid_loop hostID env rpcOp opType carg (Z.to_nat retries) 0 None [].

Definition LogPin (retries : Z) (hostID : string) (env : nat -> Answers)
    (c : CidArg) : option string * list Event :=
  logOpCid retries hostID env "ConsensusLogPin" LogOpPin c.

Definition LogUnpin (retries : Z) (hostID : string) (env : nat -> Answers)
    (c : CidArg) : option string * list Event :=
  logOpCid retries hostID env "ConsensusLogUnpin" LogOpUnpin c.

(** Reading the events: a turn of the loop starts with one query for the
    leader, so the turns made are the [EvLeader] events. *)
Fixpoint countEv (f : Event -> bool) (evs : list Event) : nat :=
  match evs with
  | [] => O
  | e :: rest => if f e then S (countEv f rest) else countEv f rest
  end.

Definition isLeaderQuery (e : Event) : bool :=
  match e with EvLeader => true | _ => false end.

Definition isSleep (e : Event) : bool :=
  match e with EvSleep _ => true | _ => false end.

Definition attempts (evs : list Event) : nat := countEv isLeaderQuery evs.

Definition sleeps (evs : list Event) : nat := countEv isSleep evs.

(** The error with which a turn that meets the answers [a] fails, or
    [None] when the turn succeeds (by redirection or by a local commit). *)
Definition turnError (hostID rpcOp : string) (carg : CidArg) (a : Answers)
    : option string :=
  let '((redirected, err), _) :=
    redirectToLeader hostID a rpcOp (ToSerial carg) in
  match err with
  | Some e => Some e
  | None => if redirected then None else ansCommitOp a
  end.

(** Whether a turn that meets the answers [a] reaches [CommitOp] and
    fails there. *)
Definition commitFailed (hostID rpcOp : string) (carg : CidArg) (a : Answers)
    : bool :=
  let '((redirected, err), _) :=
    redirectToLeader hostID a rpcOp (ToSerial carg) in
  match err with
  | Some _ => false
  | None =>
      if redirected then false
      else match ansCommitOp a with Some _ => true | None => false end
  end.

(** The events of a turn that meets the answers [a]. *)
Definition turnEvents (hostID rpcOp : string) (opType : LogOpType)
    (carg : CidArg) (a : Answers) : list Event :=
  let '((redirected, err), evs1) :=
    redirectToLeader hostID a rpcOp (ToSerial carg) in
  match err with
  | Some _ => evs1
  | None =>
      if redirected then evs1
      else
        match ansCommitOp a with
        | Some _ =>
            evs1 ++ [EvCommitOp (op carg opType); EvSleep (200 * millisecond)]
        | None => evs1 ++ [EvCommitOp (op carg opType)]
        end
  end.

(** The number of turns among the first [t] from turn [i] on whose local
    commit fails. *)
Fixpoint failedCommits (hostID rpcOp : string) (carg : CidArg)
    (env : nat -> Answers) (i t : nat) : nat :=
  match t with
  | O => O
  | S t' =>
      (if commitFailed hostID rpcOp carg (env i) then 1 else 0)%nat
      + failedCommits hostID rpcOp carg env (S i) t'
  end.

(** Sample answers: the local peer "A" is the leader and the commit goes
    through; it is the leader and the commit fails; "B" is the leader and
    the call to it fails. *)
Definition ansCommitted : Answers :=
  {| ansLeader := ("A", None); ansWaitForLeader := None;
     ansCall := None; ansCommitOp := None |}.

Definition ansCommitFails : Answers :=
  {| ansLeader := ("A", None); ansWaitForLeader := None;
     ansCall := None; ansCommitOp := Some "leadership lost" |}.

Definition ansCallFails : Answers :=
  {| ansLeader := ("B", None); ansWaitForLeader := None;
     ansCall := Some "dial backoff"; ansCommitOp := None |}.

Definition envSecondTry (i : nat) : Answers :=
  match i with O => ansCommitFails | _ => ansCommitted end.

(** What comes directly after an event of [logOpCid], [next] being the
    event after [x] ([None] at the end of the call) and [res] the value
    the call returns: a commit is followed by the sleep of 200 ms, unless
    it is the last event of a call that returns nil; an RPC and a sleep
    are followed by the query for the leader of the next turn or by
    nothing; no other event is followed by a sleep. *)
Definition mayFollow (res : option string) (x : Event) (next : option Event)
    : Prop :=
  match x with
  | EvCommitOp _ =>
      next = Some (EvSleep (200 * millisecond)) \/ (next = None /\ res = None)
  | EvCall _ _ _ | EvSleep _ => next = Some EvLeader \/ next = None
  | EvLeader | EvWaitForLeader _ => forall d, next <> Some (EvSleep d)
  end.

(** What an event of [logOpCid] may be: an RPC with the method and the
    serialised argument, addressed to an ID other than that of this
    peer, or a commit of the operation. *)
Definition okEvent (hostID rpcOp : string) (opType : LogOpType)
    (carg : CidArg) (e : Event) : Prop :=
  match e with
  | EvCall dest m x => dest <> hostID /\ m = rpcOp /\ x = ToSerial carg
  | EvCommitOp o => o = op carg opType
  | _ => True
  end.

(** The event with which a successful turn ends. *)
Definition finalEvent (e : Event) : Prop :=
  match e with
  | EvCall _ _ _ | EvCommitOp _ => True
  | _ => False
  end.

End cluster.

(** ** Package allocator: numpin.go *)

Module allocator.
Import api.

(** [informer.NumpinMetricName]. *)
Definition NumpinMetricName : string := "numpin".

(** [strconv.Atoi] of Go's library: an optional sign, then one or more
    decimal digits, and a value that fits an [int] (64 bits). *)
Definition digit (a : ascii) : option Z :=
  let n := Z.of_N (N_of_ascii a) in
  if (48 <=? n) && (n <=? 57) then Some (n - 48) else None.

Fixpoint digits (s : string) (acc : Z) : option Z :=
  match s with
  | EmptyString => Some acc
  | String a rest =>
      match digit a with
      | Some d => digits rest (10 * acc + d)
      | None => None
      end
  end.

Definition Atoi (s : string) : option Z :=
  let '(neg, body) :=
    match s with
    | String "-" rest => (true, rest)
    | String "+" rest => (false, rest)
    | _ => (false, s)
    end in
  match body with
  | EmptyString => None
  | _ =>
      match digits body 0 with
      | None => None
      | Some n =>
          let v := if neg then - n else n in
          if (- 2 ^ 63 <=? v) && (v <=? 2 ^ 63 - 1) then Some v else None
      end
  end.

Record metricsSorter : Type := mkSorter {
  peers : list string;
  m : gmap string Z
}.

(** The loop of [newMetricsSorter]; [iter] is the enumeration of the map
    of candidates by [range], [now] the time at which [Discard] looks at
    the clock. *)
Fixpoint newMetricsSorter_loop (now : Z) (iter : list (string * Metric))
    (vMap : gmap string Z) (peers : list string) : metricsSorter :=
  match iter with
  | [] => {| m := vMap; peers := peers |}
  | (k, v) :: rest =>
      if negb (String.eqb (Name v) NumpinMetricName) || Discard now v
      then newMetricsSorter_loop now rest vMap peers
      else
        match Atoi (Value v) with
        | None => newMetricsSorter_loop now rest vMap peers
        | Some val =>
            newMetricsSorter_loop now rest (<[k := val]> vMap) (peers ++ [k])
        end
  end.

Definition newMetricsSorter (now : Z) (iter : list (string * Metric))
    : metricsSorter :=
  newMetricsSorter_loop now iter ∅ [].

Definition Len (s : metricsSorter) : nat := length (peers s).

(** [s.m[p]]: a missing key reads as the zero value. *)
Definition m_at (s : metricsSorter) (p : string) : Z := default 0 (m s !! p).

(** [Less] and [Swap] are called by [sort.Sort] with indices below [Len]
    only; an index out of range, on which Go panics, reads as "". *)
Definition Less (s : metricsSorter) (i j : nat) : bool :=
  let peeri := default "" (peers s !! i) in
  let peerj := default "" (peers s !! j) in
  let x := m_at s peeri in
  let y := m_at s peerj in
  x <? y.

Definition Swap (s : metricsSorter) (i j : nat) : metricsSorter :=
  let temp := default "" (peers s !! i) in
  let peers1 := <[i := default "" (peers s !! j)]> (peers s) in
  {| peers := <[j := temp]> peers1; m := m s |}.

(** [sort.Sort(data Interface)] of Go's library is not among the
    sources.  By its documentation it "makes one call to data.Len to
    determine n", and then calls to [data.Less] and [data.Swap]: so a run
    of it, for a given n, is a sequence of calls of [Less], whose answers
    it may depend on, and of [Swap]. *)
Inductive sortCalls : Type :=
  | SortReturn
  | SortLess (i j : nat) (k : bool -> sortCalls)
  | SortSwap (i j : nat) (k : sortCalls).

(** The calls, made on the sorter of this package. *)
Fixpoint runSort (calls : sortCalls) (s : metricsSorter) : metricsSorter :=
  match calls with
  | SortReturn => s
  | SortLess i j k => runSort (k (Less s i j)) s
  | SortSwap i j k => runSort k (Swap s i j)
  end.

(** [Allocate]; [sort_Sort n] are the calls that [sort.Sort] makes on data
    of length [n]. *)
Definition Allocate (sort_Sort : nat -> sortCalls)
    (now : Z) (c : string)
    (current : gmap string Metric) (iter : list (string * Metric))
    : list string * option string :=
  let numpins := newMetricsSorter now iter in
  let numpins := runSort (sort_Sort (Len numpins)) numpins in
  (peers numpins, None).

(** [sort.IntSlice] of Go's library, on which the library's promise to
    sort is stated: [Less(i, j)] is [p[i] < p[j]], [Swap(i, j)] is
    [p[i], p[j] = p[j], p[i]], and an index out of range panics
    ([None]). *)
Definition IntSlice_Less (p : list Z) (i j : nat) : option bool :=
  match p !! i, p !! j with
  | Some x, Some y => Some (x <? y)
  | _, _ => None
  end.

Definition IntSlice_Swap (p : list Z) (i j : nat) : option (list Z) :=
  match p !! i, p !! j with
  | Some x, Some y => Some (<[j := x]> (<[i := y]> p))
  | _, _ => None
  end.

Fixpoint runInts (calls : sortCalls) (p : list Z) : option (list Z) :=
  match calls with
  | SortReturn => Some p
  | SortLess i j k =>
      match IntSlice_Less p i j with
      | Some b => runInts (k b) p
      | None => None
      end
  | SortSwap i j k =>
      match IntSlice_Swap p i j with
      | Some p' => runInts k p'
      | None => None
      end
  end.

(** The calls of the insertion sort of Go's [sort] package:
    [for i := 1; i < n; i++ { for j := i; j > 0 && Less(j, j-1); j--
    { Swap(j, j-1) } }]. *)
Fixpoint sinkCalls (j : nat) (k : sortCalls) : sortCalls :=
  match j with
  | O => k
  | S j' =>
      SortLess j j' (fun b => if b then SortSwap j j' (sinkCalls j' k) else k)
  end.

Fixpoint insertionCalls_from (i n : nat) : sortCalls :=
  match n with
  | O => SortReturn
  | S n' => sinkCalls i (insertionCalls_from (S i) n')
  end.

Definition insertionCalls (n : nat) : sortCalls :=
  insertionCalls_from 1 (n - 1).

(** The test the loop of [newMetricsSorter] applies to the metric of a
    candidate: the pin count it records, or [None] when it skips the
    candidate. *)
Definition pinCount (now : Z) (v : Metric) : option Z :=
  if negb (String.eqb (Name v) NumpinMetricName) || Discard now v then None
  else Atoi (Value v).

(** The pin count the metric of [p] among the candidates parses to. *)
Definition pinsOf (candidates : gmap string Metric) (p : string) : Z :=
  default 0 (candidates !! p ≫= fun v => Atoi (Value v)).

(** The order of the pin counts on the peers. *)
Definition fewerPins (s : metricsSorter) (a b : string) : Prop :=
  m_at s a <= m_at s b.

(** Sample candidates, looked at when the clock shows 100. *)
Definition sampleCandidates : gmap string Metric :=
  list_to_map
    [("P1", {| Name := "numpin"; Value := "12"; Expire := 110; Valid := true |});
     ("P2", {| Name := "numpin"; Value := "3"; Expire := 110; Valid := true |});
     ("P3", {| Name := "numpin"; Value := "7"; Expire := 90; Valid := true |});
     ("P4", {| Name := "freespace"; Value := "1"; Expire := 110; Valid := true |});
     ("P5", {| Name := "numpin"; Value := "many"; Expire := 110; Valid := true |});
     ("P6", {| Name := "numpin"; Value := "0"; Expire := 110; Valid := false |})].

(** The candidate's key when the loop of [newMetricsSorter] keeps it. *)
Definition kept (now : Z) (kv : string * Metric) : option string :=
  match pinCount now kv.2 with
  | Some _ => Some kv.1
  | None => None
  end.

(** The insertion sort of Go's [sort] package, written out on the
    sorter's interface:
    [for i := 1; i < Len; i++ { for j := i; j > 0 && Less(j, j-1); j--
    { Swap(j, j-1) } }]. *)
Fixpoint sink (s : metricsSorter) (j : nat) : metricsSorter :=
  match j with
  | O => s
  | S j' => if Less s j j' then sink (Swap s j j') j' else s
  end.

Fixpoint insertionSort_from (s : metricsSorter) (i n : nat) : metricsSorter :=
  match n with
  | O => s
  | S n' => insertionSort_from (sink s i) (S i) n'
  end.

Definition insertionSort (s : metricsSorter) : metricsSorter :=
  insertionSort_from s 1 (Len s - 1).

End allocator.

(** ** Package informer: the numpin informer *)

Module informer.
Import api.

Definition NumpinMetricTTL : Z := 10.

(** The RPC client of the informer: nil, or a client behind which the
    IPFS connector answers as the [Daemon] says. *)
Record numpinInformer : Type := mkInformer {
  rpcClient : option tracker.Daemon
}.

Definition Numpin (client : option tracker.Daemon) : numpinInformer :=
  {| rpcClient := client |}.

Definition SetClient (npi : numpinInformer) (c : tracker.Daemon)
    : numpinInformer :=
  {| rpcClient := Some c |}.

Definition Shutdown (npi : numpinInformer) : numpinInformer * option string :=
  ({| rpcClient := None |}, None).

Definition InformerName (npi : numpinInformer) : string :=
  allocator.NumpinMetricName.

(** [fmt.Sprintf("%d", n)] of Go's library: the decimal digits of [n],
    most significant first, after a minus sign when [n] is negative. *)
Definition digitChar (d : Z) : ascii := ascii_of_N (Z.to_N (48 + d)).

Fixpoint formatDigits (fuel : nat) (n : Z) (acc : string) : string :=
  match fuel with
  | O => acc
  | S fuel' =>
      let acc' := String (digitChar (n mod 10)) acc in
      if n <? 10 then acc' else formatDigits fuel' (n / 10) acc'
  end.

Definition formatInt (n : Z) : string :=
  let fuel := S (Z.to_nat (Z.log2 (Z.abs n))) in
  if n <? 0 then String "-" (formatDigits fuel (- n) EmptyString)
  else formatDigits fuel n EmptyString.

(** Modelled from the spec: [Metric.SetTTL] is not among the sources;
    "Metrics carry a TTL", so the metric expires that many seconds after
    the clock's reading. *)
Definition SetTTL (now : Z) (seconds : Z) (m : Metric) : Metric :=
  {| Name := Name m; Value := Value m;
     Expire := now + seconds * tracker.second; Valid := Valid m |}.

(** [GetMetric]; the map the call fills stays empty when the call fails. *)
Definition GetMetric (npi : numpinInformer) (now : Z) : Metric :=
  match rpcClient npi with
  | None => {| Name := ""; Value := ""; Expire := 0; Valid := false |}
  | Some d =>
      let '(pinMap, err) :=
        match tracker.IPFSPinLs d "recursive" with
        | inl pins => (pins, None)
        | inr e => ((∅ : gmap string IPFSPinStatus), Some e)
        end in
      let valid := match err with None => true | Some _ => false end in
      let m := {| Name := allocator.NumpinMetricName;
                  Value := formatInt (Z.of_nat (size pinMap));
                  Expire := 0;
                  Valid := valid |} in
      SetTTL now NumpinMetricTTL m
  end.

(** A daemon that holds three pins. *)
Definition daemonThreePins : tracker.Daemon :=
  {| tracker.IPFSPin := fun _ => None; tracker.IPFSUnpin := fun _ => None;
     tracker.IPFSPinLsCid := fun _ => inl IPFSPinStatusPinned;
     tracker.IPFSPinLs := fun _ =>
       inl (list_to_map [("c1", IPFSPinStatusPinned);
                         ("c2", IPFSPinStatusPinned);
                         ("c3", IPFSPinStatusPinned)]) |}.

End informer.

(** ** Package api: the handlers of the REST API *)

Module restapi.
Import api.

(** What a handler puts on the [http.ResponseWriter]: the status line,
    and values encoded as JSON (an [errorResp], or the reply of an RPC,
    which is kept as text here). *)
Inductive Body : Set :=
  | ErrorResp (code : Z) (msg : string)
  | Reply (resp : string).

Inductive Written : Set :=
  | WriteHeader (code : Z)
  | Encode (b : Body).

Definition StatusAccepted : Z := 202.
Definition StatusNoContent : Z := 204.

Definition sendJSONResponse (w : list Written) (code : Z) (resp : Body)
    : list Written :=
  w ++ [WriteHeader code; Encode resp].

Definition sendErrorResponse (w : list Written) (code : Z) (msg : string)
    : list Written :=
  sendJSONResponse w code (ErrorResp code msg).

Definition checkRPCErr (w : list Written) (err : option string)
    : list Written * bool :=
  match err with
  | Some e => (sendErrorResponse w 500 e, false)
  | None => (w, true)
  end.

Definition sendResponse (w : list Written) (rpcErr : option string)
    (resp : string) : list Written :=
  let '(w, ok) := checkRPCErr w rpcErr in
  if ok then sendJSONResponse w 200 (Reply resp) else w.

Definition sendEmptyResponse (w : list Written) (rpcErr : option string)
    : list Written :=
  let '(w, ok) := checkRPCErr w rpcErr in
  if ok then w ++ [WriteHeader StatusNoContent] else w.

Definition sendAcceptedResponse (w : list Written) (rpcErr : option string)
    : list Written :=
  let '(w, ok) := checkRPCErr w rpcErr in
  if ok then w ++ [WriteHeader StatusAccepted] else w.

(** [CidArgSerial{Cid: hash}]. *)
Definition serialOf (hash : string) : CidArgSerial :=
  {| ser_Cid := hash; ser_Allocations := []; ser_Everywhere := false |}.

Section handlers.

(** The error of [cid.Decode(hash)], and the RPC client: the reply that
    [Call] of the method of service Cluster stores, as text, and the
    error it returns. *)
Variable cid_Decode : string -> option string.
Variable rpcCall : string -> CidArgSerial -> string * option string.

Definition parseCidOrError (w : list Written) (hash : string)
    : list Written * CidArgSerial :=
  match cid_Decode hash with
  | Some e =>
      (sendErrorResponse w 400 ("error decoding Cid: " ++ e)%string,
       serialOf "")
  | None => (w, serialOf hash)
  end.

(** A handler: the RPCs made and what is on the writer afterwards; the
    argument [hash] is [mux.Vars(r)["hash"]]. *)
Definition Handler : Type :=
  list Written -> string -> list (string * CidArgSerial) * list Written.

Definition pinHandler : Handler := fun w hash =>
  let '(w, c) := parseCidOrError w hash in
  if negb (String.eqb (ser_Cid c) "") then
    let '(_, err) := rpcCall "Pin" c in
    ([("Pin", c)], sendAcceptedResponse w err)
  else ([], w).

Definition unpinHandler : Handler := fun w hash =>
  let '(w, c) := parseCidOrError w hash in
  if negb (String.eqb (ser_Cid c) "") then
    let '(_, err) := rpcCall "Unpin" c in
    ([("Unpin", c)], sendAcceptedResponse w err)
  else ([], w).

Definition statusHandler : Handler := fun w hash =>
  let '(w, c) := parseCidOrError w hash in
  if negb (String.eqb (ser_Cid c) "") then
    let '(pinInfo, err) := rpcCall "Status" c in
    ([("Status", c)], sendResponse w err pinInfo)
  else ([], w).

Definition syncHandler : Handler := fun w hash =>
  let '(w, c) := parseCidOrError w hash in
  if negb (String.eqb (ser_Cid c) "") then
    let '(pinInfo, err) := rpcCall "Sync" c in
    ([("Sync", c)], sendResponse w err pinInfo)
  else ([], w).

Definition recoverHandler : Handler := fun w hash =>
  let '(w, c) := parseCidOrError w hash in
  if negb (String.eqb (ser_Cid c) "") then
    let '(pinInfo, err) := rpcCall "Recover" c in
    ([("Recover", c)], sendResponse w err pinInfo)
  else ([], w).

(** The entries of [routes] whose pattern has a {hash}: name, HTTP
    method, pattern and handler. *)
Definition hashRoutes : list (string * string * string * Handler) :=
  [ ("Status", "GET", "/pins/{hash}", statusHandler);
    ("Pin", "POST", "/pins/{hash}", pinHandler);
    ("Unpin", "DELETE", "/pins/{hash}", unpinHandler);
    ("Sync", "POST", "/pins/{hash}/sync", syncHandler);
    ("Recover", "POST", "/pins/{hash}/recover", recoverHandler) ].

End handlers.

(** A sample decoder and RPC client: hashes that start with Qm decode,
    and the cluster knows one of them. *)
Definition sampleDecode (hash : string) : option string :=
  if String.prefix "Qm" hash then None
  else Some "selected encoding not supported".

Definition sampleCall (method : string) (c : CidArgSerial)
    : string * option string :=
  if String.eqb (ser_Cid c) "QmKnown" then ("{}", None)
  else ("", Some "cid is not part of the global state").

End restapi.

(** ** Package ipfscluster: peer_manager.go *)

Module peermanager.

(** [peerstore.PermanentAddrTTL] of libp2p (a duration). *)
Definition PermanentAddrTTL : Z := 2 ^ 63 - 1.

(** What [addPeer] does to the collaborators of the peer manager. *)
Inductive Effect : Set :=
  | PeerstoreAddAddr (p : string) (addr : string) (ttl : Z)
  | ConsensusAddPeer (p : string)
  | ConfigSave (path : string) (peers : list string).

(** Modelled from the spec: the declaration of [Config] and its method
    [addPeer] are not among the sources; the config holds "cluster_peers:
    ordered sequence of addresses" and the path it was loaded from, and
    adding a peer extends the peer list. *)
Record Config : Set := mkConfig {
  ClusterPeers : list string;
  path : string
}.

(** Modelled from the spec: [Config.addPeer], which is not among the
    sources; it extends the "updated peer list" that [Save] persists. *)
Definition Config_addPeer (cfg : Config) (addr : string) : Config :=
  {| ClusterPeers := ClusterPeers cfg ++ [addr]; path := path cfg |}.

(** The cluster as the peer manager sees it: its own peer set, the config,
    whether a consensus component is attached ([pm.cluster.consensus] is
    not nil), and the calls made so far on the peerstore, the consensus
    component and the config file, oldest first. *)
Record Cluster : Type := mkCluster {
  peerSet : gset string;
  config : Config;
  consensus : bool;
  effects : list Effect
}.

Section multiaddr.

(** Functions of the multiaddr and peer libraries, on the textual form of
    an address: the value of the /ipfs/ component, the address without
    that component, and the decoding of a base58 peer ID. *)
Variable ValueForProtocol_IPFS : string -> string + string.
Variable Decapsulate_IPFS : string -> string -> string.
Variable IDB58Decode : string -> string + string.

Definition multiaddrSplit (addr : string) : (string * string) + string :=
  match ValueForProtocol_IPFS addr with
  | inr err => inr err
  | inl pid =>
      let decapAddr := Decapsulate_IPFS addr pid in
      match IDB58Decode pid with
      | inr err => inr err
      | inl peerID => inl (peerID, decapAddr)
      end
  end.

(** [addPeer]: the cluster afterwards, and the pair returned (the peer ID
    is the empty string when the address does not split). *)
Definition addPeer (cl : Cluster) (addr : string)
    : Cluster * (string * option string) :=
  match multiaddrSplit addr with
  | inr err => (cl, ("", Some err))
  | inl (peerID, decapAddr) =>
      if decide (peerID ∈ peerSet cl) then (cl, (peerID, None))
      else
        let cfg := Config_addPeer (config cl) addr in
        let effs :=
          effects cl ++ [PeerstoreAddAddr peerID decapAddr PermanentAddrTTL] in
        let effs :=
          if consensus cl then effs ++ [ConsensusAddPeer peerID] else effs in
        let effs :=
          if negb (String.eqb (path cfg) "")
          then effs ++ [ConfigSave (path cfg) (ClusterPeers cfg)]
          else effs in
        ({| peerSet := {[peerID]} ∪ peerSet cl; config := cfg;
            consensus := consensus cl; effects := effs |},
         (peerID, None))
  end.

End multiaddr.

(** Sample library functions and a sample cluster: one address is known
    to the libraries, the cluster consists of the local peer, has a
    consensus component and a config file. *)
Definition sampleAddr : string := "/ip4/10.0.0.2/tcp/9096/ipfs/QmPeerB".

Definition sampleValueForProtocol (addr : string) : string + string :=
  if String.eqb addr sampleAddr then inl "QmPeerB"
  else inr "protocol not found in multiaddr".

Definition sampleDecapsulate (addr pid : string) : string :=
  if String.eqb addr sampleAddr then "/ip4/10.0.0.2/tcp/9096" else addr.

Definition sampleIDB58Decode (pid : string) : string + string := inl pid.

Definition sampleCluster : Cluster :=
  {| peerSet := {["QmPeerA"]};
     config := {| ClusterPeers := []; path := "service.json" |};
     consensus := true;
     effects := [] |}.

(** What [rmPeer] calls on the collaborators of the peer manager: the
    calls [addPeer] makes too, and those of its own; the self-shutdown is
    a goroutine that sleeps for [delay] first. *)
Inductive Call : Set :=
  | Made (e : Effect)
  | PeerstoreClearAddrs (p : string)
  | ConsensusRemovePeer (p : string)
  | SelfShutdownAfter (delay : Z).

(** Modelled from the spec: [Config.emptyPeers] is not among the sources;
    it leaves the "ordered sequence of addresses" empty. *)
Definition Config_emptyPeers (cfg : Config) : Config :=
  {| ClusterPeers := []; path := path cfg |}.

Section membership.

Variable ValueForProtocol_IPFS : string -> string + string.
Variable Decapsulate_IPFS : string -> string -> string.
Variable IDB58Decode : string -> string + string.

(** [Config.rmPeer] is not among the sources: what it does to the peer
    list is left open, the path of the config file it leaves alone. *)
Variable removeAddrsOf : list string -> string -> list string.

(** [pm.cluster.host.ID()]. *)
Variable self : string.

#[local] Abbreviation split :=
  (multiaddrSplit ValueForProtocol_IPFS Decapsulate_IPFS IDB58Decode).
#[local] Abbreviation add :=
  (addPeer ValueForProtocol_IPFS Decapsulate_IPFS IDB58Decode).

Definition Config_rmPeer (cfg : Config) (p : string) : Config :=
  {| ClusterPeers := removeAddrsOf (ClusterPeers cfg) p; path := path cfg |}.

(** [rmPeer]: the cluster afterwards, the error returned and the calls
    made, oldest first.  The deferred function starts the shutdown
    goroutine when [rmPeer] returns, after the config was saved. *)
Definition rmPeer (cl : Cluster) (p : string)
    : Cluster * (option string * list Call) :=
  if decide (p ∈ peerSet cl) then
    let cfg := Config_rmPeer (config cl) p in
    let calls := [PeerstoreClearAddrs p; ConsensusRemovePeer p] in
    let isSelf := String.eqb p self in
    let cfg := if isSelf then Config_emptyPeers cfg else cfg in
    let calls :=
      if negb (String.eqb (path cfg) "")
      then calls ++ [Made (ConfigSave (path cfg) (ClusterPeers cfg))]
      else calls in
    let calls :=
      if isSelf then calls ++ [SelfShutdownAfter tracker.second]
      else calls in
    ({| peerSet := peerSet cl ∖ {[p]}; config := cfg;
        consensus := consensus cl; effects := effects cl |},
     (None, calls))
  else (cl, (None, [])).

Definition resetPeerSet (cl : Cluster) : Cluster :=
  {| peerSet := {[self]}; config := config cl;
     consensus := consensus cl; effects := effects cl |}.

(** [peers]: the peer set in the order [iter] in which the map is
    ranged over. *)
Definition peers (cl : Cluster) (iter : list string) : list string :=
  foldl (fun pList k => pList ++ [k]) [] iter.

(** The loop of [addFromMultiaddrs]. *)
Fixpoint addFromMultiaddrs_loop (cl : Cluster) (mAddrIDs : list string)
    : Cluster * option string :=
  match mAddrIDs with
  | [] => (cl, None)
  | m :: rest =>
      let '(cl', (_, err)) := add cl m in
      match err with
      | Some e => (cl', Some e)
      | None => addFromMultiaddrs_loop cl' rest
      end
  end.

Definition addFromMultiaddrs (cl : Cluster) (mAddrIDs : list string)
    : Cluster * option string :=
  let cl := resetPeerSet cl in
  let cl := {| peerSet := peerSet cl; config := Config_emptyPeers (config cl);
               consensus := consensus cl; effects := effects cl |} in
  addFromMultiaddrs_loop cl mAddrIDs.

Definition addFromConfig (cl : Cluster) (cfg : Config)
    : Cluster * option string :=
  addFromMultiaddrs cl (ClusterPeers cfg).

(** The peer ID an address splits to, if it splits. *)
Definition idOf (addr : string) : option string :=
  match split addr with
  | inl (p, _) => Some p
  | inr _ => None
  end.

End membership.

(** A sample [Config.rmPeer]: it drops the sample address when its peer
    is removed. *)
Definition sampleRemoveAddrsOf (l : list string) (p : string) : list string :=
  if String.eqb p "QmPeerB"
  then List.filter (fun a => negb (String.eqb a sampleAddr)) l
  else l.

End peermanager.

(** * Properties *)

(** ** The pin tracker *)

Module TrackerSpec.
Import api tracker.

Lemma inv_NewMapPin self q : inv self (NewMapPin self q).
Proof. split; [done|]. intros k p. simpl. by rewrite lookup_empty. Qed.

Lemma inv_with_status self mpt (m' : gmap string PinInfo) :
  peerID mpt = self ->
  (forall k p, m' !! k = Some p -> entry_ok self k p) ->
  inv self (with_status m' mpt).
Proof. intros Hid Hm. split; assumption. Qed.

Lemma inv_insert self mpt c s now err :
  inv self mpt -> s <> TrackerStatusUnpinned ->
  inv self (with_status
    (<[c := {| Cid := c; Peer := peerID mpt; Status := s; TS := now;
               Error := err |}]> (status mpt)) mpt).
Proof.
  intros [Hid Hm] Hs. apply inv_with_status; [done|].
  intros k p. rewrite lookup_insert. case_decide as Hk.
  - intros [= <-]. subst k. by repeat split.
  - apply Hm.
Qed.

Lemma inv_delete self mpt c :
  inv self mpt -> inv self (with_status (delete c (status mpt)) mpt).
Proof.
  intros [Hid Hm]. apply inv_with_status; [done|].
  intros k p. rewrite lookup_delete. case_decide; [done|apply Hm].
Qed.

Lemma inv_unsafeSet self mpt now c s :
  inv self mpt -> inv self (unsafeSet mpt now c s).
Proof.
  intros H. unfold unsafeSet. case_decide.
  - by apply inv_delete.
  - by apply inv_insert.
Qed.

Lemma inv_unsafeSetError self mpt now c err :
  inv self mpt -> inv self (unsafeSetError mpt now c err).
Proof.
  intros H. unfold unsafeSetError.
  destruct (Status (unsafeGet mpt now c)); try done; by apply inv_insert.
Qed.

Lemma inv_logged self mpt call : inv self mpt -> inv self (logged call mpt).
Proof. intros [Hid Hm]. split; assumption. Qed.

Lemma inv_with_pinCh self mpt ch : inv self mpt -> inv self (with_pinCh ch mpt).
Proof. intros [Hid Hm]. split; assumption. Qed.

Lemma inv_with_unpinCh self mpt ch :
  inv self mpt -> inv self (with_unpinCh ch mpt).
Proof. intros [Hid Hm]. split; assumption. Qed.

Create HintDb tracker.

#[local] Hint Resolve inv_unsafeSet inv_unsafeSetError inv_logged
  inv_with_pinCh inv_with_unpinCh : tracker.

Lemma inv_pin self mpt now d c : inv self mpt -> inv self (pin mpt now d c).1.
Proof.
  intros H. unfold pin, set, setError.
  destruct (IPFSPin d (carg_Cid c)); simpl; auto with tracker.
Qed.

Lemma inv_unpin self mpt now d c :
  inv self mpt -> inv self (unpin mpt now d c).1.
Proof.
  intros H. unfold unpin, set, setError.
  destruct (IPFSUnpin d (carg_Cid c)); simpl; auto with tracker.
Qed.

#[local] Hint Resolve inv_pin inv_unpin : tracker.

Lemma inv_Track self mpt now d c :
  inv self mpt -> inv self (Track mpt now d c).1.
Proof.
  intros H. unfold Track, set, setError.
  destruct (isRemote mpt c).
  - simpl. case_decide; auto with tracker.
  - destruct (try_send _ c); simpl; auto with tracker.
Qed.

Lemma inv_Untrack self mpt now c :
  inv self mpt -> inv self (Untrack mpt now c).1.
Proof.
  intros H. unfold Untrack, set, setError.
  destruct (try_send _ _); simpl; auto with tracker.
Qed.

Lemma inv_syncStatus self mpt now c ips :
  inv self mpt -> inv self (syncStatus mpt now c ips).1.
Proof.
  intros H. unfold syncStatus, set, setError. simpl.
  destruct (IsPinned ips), (Status (get mpt now c));
    repeat case_match; auto with tracker.
Qed.

#[local] Hint Resolve inv_Track inv_Untrack inv_syncStatus : tracker.

Lemma inv_Sync self mpt now d c :
  inv self mpt -> inv self (Sync mpt now d c).1.
Proof.
  intros H. unfold Sync, setError.
  destruct (IPFSPinLsCid d c) as [ips|err].
  - pose proof (inv_syncStatus self (logged (CallIPFSPinLsCid c) mpt) now c
      ips (inv_logged _ _ _ H)) as HI.
    destruct (syncStatus _ now c ips) as [mpt' p]. exact HI.
  - simpl. auto with tracker.
Qed.

Lemma inv_markAll self now err keys : forall mpt pInfos,
  inv self mpt -> inv self (markAll mpt now err keys pInfos).1.
Proof.
  induction keys as [|k rest IH]; intros mpt pInfos H; simpl; [done|].
  apply IH. auto with tracker.
Qed.

Lemma inv_syncEach self now ipsMap snapshot : forall mpt pInfos,
  inv self mpt -> inv self (syncEach mpt now ipsMap snapshot pInfos).1.
Proof.
  induction snapshot as [|p rest IH]; intros mpt pInfos H; simpl; [done|].
  destruct (ipsMap !! Cid p) as [ips|].
  - destruct (syncStatus mpt now (Cid p) ips) as [mpt' q] eqn:E.
    apply IH. change mpt' with (mpt', q).1. rewrite <- E. auto with tracker.
  - destruct (syncStatus mpt now (Cid p) IPFSPinStatusUnpinned)
      as [mpt' q] eqn:E.
    apply IH. change mpt' with (mpt', q).1. rewrite <- E. auto with tracker.
Qed.

Lemma inv_SyncAll self mpt now d iter :
  inv self mpt -> inv self (SyncAll mpt now d iter).1.
Proof.
  intros H. unfold SyncAll.
  destruct (IPFSPinLs d "recursive") as [ipsMap|err].
  - pose proof (inv_syncEach self now ipsMap (StatusAll iter)
      (logged (CallIPFSPinLs "recursive") mpt) [] (inv_logged _ _ _ H)) as HI.
    destruct (syncEach _ now ipsMap _ []) as [mpt' ps]. exact HI.
  - pose proof (inv_markAll self now err iter.*1
      (logged (CallIPFSPinLs "recursive") mpt) [] (inv_logged _ _ _ H)) as HI.
    destruct (markAll _ now err _ []) as [mpt' ps]. exact HI.
Qed.

Lemma inv_Recover self mpt now d c :
  inv self mpt -> inv self (Recover mpt now d c).1.
Proof.
  intros H. unfold Recover.
  destruct (Status (get mpt now c)); try exact H.
  - pose proof (inv_pin self mpt now d (CidArgCid c) H) as HI.
    destruct (pin mpt now d (CidArgCid c)). exact HI.
  - pose proof (inv_unpin self mpt now d (CidArgCid c) H) as HI.
    destruct (unpin mpt now d (CidArgCid c)). exact HI.
Qed.

Lemma inv_step self mpt mpt' : step mpt mpt' -> inv self mpt -> inv self mpt'.
Proof.
  destruct 1 as [mpt now d c|mpt now c|mpt now d c|mpt now d iter|mpt now d c
                |mpt now d mpt' Hw|mpt now d mpt' Hw|mpt now c s|mpt now c err];
    intros H.
  - by apply inv_Track.
  - by apply inv_Untrack.
  - by apply inv_Sync.
  - by apply inv_SyncAll.
  - by apply inv_Recover.
  - unfold pinWorker in Hw. destruct (recv (pinCh mpt)) as [[p ch]|]; [|done].
    injection Hw as <-. auto with tracker.
  - unfold unpinWorker in Hw.
    destruct (recv (unpinCh mpt)) as [[p ch]|]; [|done].
    injection Hw as <-. auto with tracker.
  - by apply inv_unsafeSet.
  - by apply inv_unsafeSetError.
Qed.

Lemma inv_reachable self q mpt : reachable self q mpt -> inv self mpt.
Proof.
  unfold reachable.
  apply (rtc_ind_r (fun m => inv self m) (NewMapPin self q)).
  - apply inv_NewMapPin.
  - intros y z _ Hyz IH. eapply inv_step; eassumption.
Qed.

(** *** Scenarios *)

(** Queue flood: with a queue of size 2, the third [Track] in a row ends
    in PinError, and the first two are queued as Pinning. *)
Example scenario_queue_flood :
  let t2 := (Track (Track (NewMapPin "A" 2) 0 daemonHealthy
                      (cargLocal "c1")).1 0 daemonHealthy
               (cargLocal "c2")).1 in
  let r := Track t2 0 daemonHealthy (cargLocal "c3") in
  r.2 = Some "pin queue is full" /\
  buf (pinCh r.1) = [cargLocal "c1"; cargLocal "c2"] /\
  Status <$> status r.1 !! "c1" = Some TrackerStatusPinning /\
  Status <$> status r.1 !! "c2" = Some TrackerStatusPinning /\
  (fun p => (Status p, Error p)) <$> status r.1 !! "c3"
    = Some (TrackerStatusPinError, "pin queue is full").
Proof. vm_compute. repeat split. Qed.

(** Daemon failure: the worker's pin fails and leaves PinError; [Recover]
    after the daemon heals leaves Pinned. *)
Example scenario_daemon_failure :
  let t1 := (Track (NewMapPin "A" 2) 0 daemonDown (cargLocal "cE")).1 in
  match pinWorker t1 1 daemonDown with
  | None => False
  | Some t2 =>
      Status (Status_ t2 2 "cE") = TrackerStatusPinError /\
      Status (Recover t2 3 daemonHealthy "cE").2.1 = TrackerStatusPinned
  end.
Proof. vm_compute. repeat split. Qed.

(** [Track], the worker's turn and [Sync] on a healthy daemon: Pinned. *)
Example scenario_track_sync :
  let t1 := (Track (NewMapPin "A" 2) 0 daemonHealthy (cargLocal "cX")).1 in
  match pinWorker t1 1 daemonHealthy with
  | None => False
  | Some t2 =>
      (Sync t2 2 daemonHealthy "cX").2
        = ({| Cid := "cX"; Peer := "A"; Status := TrackerStatusPinned;
              TS := 1; Error := "" |}, None)
  end.
Proof. vm_compute. reflexivity. Qed.

(** A CID stuck in Pinning past [PinningTimeout] that the daemon does not
    hold turns into PinError on the next [Sync]. *)
Example scenario_pinning_timeout :
  let t1 := (Track (NewMapPin "A" 2) 0 daemonHealthy (cargLocal "cX")).1 in
  let late := PinningTimeout + 1 in
  (fun p => (Status p, Error p))
    (syncStatus t1 late "cX" IPFSPinStatusUnpinned).2
    = (TrackerStatusPinError, "pinning operation is taking too long") /\
  Status (syncStatus t1 PinningTimeout "cX" IPFSPinStatusUnpinned).2
    = TrackerStatusPinning.
Proof. vm_compute. repeat split. Qed.

(** *** Lookups after the critical sections *)

Lemma with_status_id mpt : with_status (status mpt) mpt = mpt.
Proof. by destruct mpt. Qed.

Lemma unsafeGet_Some mpt now c p :
  status mpt !! c = Some p -> unsafeGet mpt now c = p.
Proof. unfold unsafeGet. by intros ->. Qed.

Lemma unsafeGet_None mpt now c :
  status mpt !! c = None ->
  unsafeGet mpt now c =
    {| Cid := c; Peer := peerID mpt; Status := TrackerStatusUnpinned;
       TS := now; Error := "" |}.
Proof. unfold unsafeGet. by intros ->. Qed.

Lemma unsafeSetError_Some mpt now c err p :
  status mpt !! c = Some p ->
  unsafeSetError mpt now c err =
    with_status (<[c := markError (peerID mpt) now err c p]> (status mpt)) mpt.
Proof.
  intros Hp. unfold unsafeSetError, markError.
  rewrite (unsafeGet_Some _ _ _ _ Hp).
  destruct (Status p) eqn:E; try reflexivity.
  rewrite insert_id by done. by rewrite with_status_id.
Qed.

Lemma unsafeSetError_Remote mpt now c err p :
  status mpt !! c = Some p -> Status p = TrackerStatusRemote ->
  unsafeSetError mpt now c err = mpt.
Proof.
  intros Hp Hs. unfold unsafeSetError.
  by rewrite (unsafeGet_Some _ _ _ _ Hp), Hs.
Qed.

Lemma unsafeSetError_peerID mpt now c err :
  peerID (unsafeSetError mpt now c err) = peerID mpt.
Proof. unfold unsafeSetError. by destruct (Status _). Qed.

Lemma unsafeSet_peerID mpt now c s : peerID (unsafeSet mpt now c s) = peerID mpt.
Proof. unfold unsafeSet. by case_decide. Qed.

Lemma unsafeSetError_lookup_ne mpt now c err k :
  k <> c -> status (unsafeSetError mpt now c err) !! k = status mpt !! k.
Proof.
  intros Hk. unfold unsafeSetError.
  destruct (Status _); simpl; try done; by rewrite lookup_insert_ne.
Qed.

Lemma unsafeSet_lookup_ne mpt now c s k :
  k <> c -> status (unsafeSet mpt now c s) !! k = status mpt !! k.
Proof.
  intros Hk. unfold unsafeSet. case_decide; simpl.
  - by rewrite lookup_delete_ne.
  - by rewrite lookup_insert_ne.
Qed.

Lemma unsafeSet_lookup mpt now c s :
  status (unsafeSet mpt now c s) !! c =
    if decide (s = TrackerStatusUnpinned) then None
    else Some {| Cid := c; Peer := peerID mpt; Status := s; TS := now;
                 Error := "" |}.
Proof.
  unfold unsafeSet. case_decide; simpl.
  - by rewrite lookup_delete_eq.
  - by rewrite lookup_insert_eq.
Qed.

Lemma unsafeSet_lookup_eq mpt now c s :
  s <> TrackerStatusUnpinned ->
  status (unsafeSet mpt now c s) !! c =
    Some {| Cid := c; Peer := peerID mpt; Status := s; TS := now;
            Error := "" |}.
Proof. intros Hs. rewrite unsafeSet_lookup. by case_decide. Qed.

Lemma unsafeSet_Unpinned mpt now c :
  status (unsafeSet mpt now c TrackerStatusUnpinned) !! c = None.
Proof. by rewrite unsafeSet_lookup. Qed.

Lemma unsafeSet_chans mpt now c s :
  pinCh (unsafeSet mpt now c s) = pinCh mpt /\
  unpinCh (unsafeSet mpt now c s) = unpinCh mpt /\
  rpcLog (unsafeSet mpt now c s) = rpcLog mpt.
Proof. unfold unsafeSet. by case_decide. Qed.

Lemma unsafeSetError_chans mpt now c err :
  pinCh (unsafeSetError mpt now c err) = pinCh mpt /\
  unpinCh (unsafeSetError mpt now c err) = unpinCh mpt /\
  rpcLog (unsafeSetError mpt now c err) = rpcLog mpt.
Proof. unfold unsafeSetError. by destruct (Status _). Qed.

(** *** The log of calls does not influence the status map *)

Lemma unsafeGet_logged call mpt now c :
  unsafeGet (logged call mpt) now c = unsafeGet mpt now c.
Proof. reflexivity. Qed.

Lemma unsafeSet_logged call mpt now c s :
  unsafeSet (logged call mpt) now c s = logged call (unsafeSet mpt now c s).
Proof. unfold unsafeSet. by case_decide. Qed.

Lemma unsafeSetError_logged call mpt now c err :
  unsafeSetError (logged call mpt) now c err =
    logged call (unsafeSetError mpt now c err).
Proof.
  unfold unsafeSetError. rewrite unsafeGet_logged. by destruct (Status _).
Qed.

Lemma syncStatus_logged call mpt now c ips :
  syncStatus (logged call mpt) now c ips =
    (logged call (syncStatus mpt now c ips).1, (syncStatus mpt now c ips).2).
Proof.
  unfold syncStatus, get, set, setError. cbn [fst snd].
  rewrite unsafeGet_logged.
  destruct (IsPinned ips), (Status (unsafeGet mpt now c));
    repeat case_match;
    rewrite ?unsafeSet_logged, ?unsafeSetError_logged, ?unsafeGet_logged;
    reflexivity.
Qed.

Lemma Sync_ok mpt now d c ips :
  IPFSPinLsCid d c = inl ips ->
  Sync mpt now d c =
    (logged (CallIPFSPinLsCid c) (syncStatus mpt now c ips).1,
     ((syncStatus mpt now c ips).2, None)).
Proof. intros H. unfold Sync. by rewrite H, syncStatus_logged. Qed.

Lemma Sync_err mpt now d c err :
  IPFSPinLsCid d c = inr err ->
  Sync mpt now d c =
    (logged (CallIPFSPinLsCid c) (setError mpt now c err),
     (get (setError mpt now c err) now c, Some err)).
Proof.
  intros H. unfold Sync, setError, get.
  by rewrite H, unsafeSetError_logged, unsafeGet_logged.
Qed.

#[local] Arguments syncStatus : simpl never.
#[local] Arguments unsafeSet : simpl never.
#[local] Arguments unsafeSetError : simpl never.
#[local] Arguments unsafeGet : simpl never.

(** *** Reconciliation of an Unpinned CID that the daemon holds *)

(** C1, as the code has it.  When the tracker's status of [c] is Unpinned
    (a CID without entry included) and the daemon reports [c] as pinned,
    [syncStatus], and so [Sync], records for [c] an entry with status
    UnpinError, not PinError, whose error is "the item is unexpectedly
    pinned on IPFS"; [Sync] returns that entry and no error. *)
Theorem sync_unpinned_reported_pinned mpt now d c ips :
  Status (get mpt now c) = TrackerStatusUnpinned ->
  IsPinned ips = true ->
  let entry := {| Cid := c; Peer := peerID mpt;
                  Status := TrackerStatusUnpinError; TS := now;
                  Error := errPinned |} in
  (syncStatus mpt now c ips).2 = entry /\
  status (syncStatus mpt now c ips).1 !! c = Some entry /\
  (IPFSPinLsCid d c = inl ips ->
   (Sync mpt now d c).2 = (entry, None) /\
   status (Sync mpt now d c).1 !! c = Some entry).
Proof.
  intros Hs Hp entry.
  assert (Hsync : (syncStatus mpt now c ips).2 = entry /\
                  status (syncStatus mpt now c ips).1 !! c = Some entry).
  { unfold syncStatus. cbn [fst snd]. rewrite Hp, Hs.
    unfold setError, unsafeSetError. fold (get mpt now c). rewrite Hs.
    unfold get, unsafeGet. cbn. by rewrite lookup_insert_eq. }
  destruct Hsync as [H1 H2]. repeat split; try assumption.
  - by rewrite (Sync_ok _ _ _ _ _ H), <- H1.
  - by rewrite (Sync_ok _ _ _ _ _ H).
Qed.

Lemma sync_unpinned_reported_pinned_witness :
  (Sync (NewMapPin "A" 1024) 5 daemonHealthy "cidX").2 =
    ({| Cid := "cidX"; Peer := "A"; Status := TrackerStatusUnpinError;
        TS := 5; Error := "the item is unexpectedly pinned on IPFS" |}, None).
Proof.
  apply (sync_unpinned_reported_pinned (NewMapPin "A" 1024) 5 daemonHealthy
           "cidX" IPFSPinStatusPinned); reflexivity.
Defined.

(** C1 as stated fails: a CID the tracker does not know, which the daemon
    holds, comes out of [Sync] as UnpinError, and the error is not the
    text "unexpectedly pinned". *)
Lemma sync_unpinned_not_PinError :
  Status (get (NewMapPin "A" 1024) 5 "cidX") = TrackerStatusUnpinned /\
  IPFSPinLsCid daemonHealthy "cidX" = inl IPFSPinStatusPinned /\
  IsPinned IPFSPinStatusPinned = true /\
  Status (Sync (NewMapPin "A" 1024) 5 daemonHealthy "cidX").2.1
    <> TrackerStatusPinError /\
  Error (Sync (NewMapPin "A" 1024) 5 daemonHealthy "cidX").2.1
    <> "unexpectedly pinned".
Proof. repeat split; vm_compute; discriminate. Qed.

(** *** Full queues *)

Lemma try_send_full ch x :
  length (buf ch) = cap ch -> try_send ch x = None.
Proof.
  intros H. unfold try_send.
  destruct (Nat.ltb_spec (length (buf ch)) (cap ch)); [lia|done].
Qed.

(** C2, as the code has it.  With the (buffered) pin queue full, [Track]
    of a CidArg that is allocated to the local peer records PinError with
    the error "pin queue is full" and returns that error; with the unpin
    queue full, [Untrack] records UnpinError with "unpin queue is full"
    and returns it.  Both leave the two queues and the entries of all
    other CIDs as they were. *)
Theorem queue_full_recorded mpt now d (c : CidArg) (k : string) :
  (isRemote mpt c = false ->
   (0 < cap (pinCh mpt))%nat ->
   length (buf (pinCh mpt)) = cap (pinCh mpt) ->
   (Track mpt now d c).2 = Some ErrPinQueueFull /\
   status (Track mpt now d c).1 !! carg_Cid c =
     Some {| Cid := carg_Cid c; Peer := peerID mpt;
             Status := TrackerStatusPinError; TS := now;
             Error := ErrPinQueueFull |} /\
   pinCh (Track mpt now d c).1 = pinCh mpt /\
   unpinCh (Track mpt now d c).1 = unpinCh mpt /\
   forall k', k' <> carg_Cid c ->
     status (Track mpt now d c).1 !! k' = status mpt !! k') /\
  ((0 < cap (unpinCh mpt))%nat ->
   length (buf (unpinCh mpt)) = cap (unpinCh mpt) ->
   (Untrack mpt now k).2 = Some ErrUnpinQueueFull /\
   status (Untrack mpt now k).1 !! k =
     Some {| Cid := k; Peer := peerID mpt;
             Status := TrackerStatusUnpinError; TS := now;
             Error := ErrUnpinQueueFull |} /\
   pinCh (Untrack mpt now k).1 = pinCh mpt /\
   unpinCh (Untrack mpt now k).1 = unpinCh mpt /\
   forall k', k' <> k ->
     status (Untrack mpt now k).1 !! k' = status mpt !! k').
Proof.
  split.
  - intros Hr _ Hfull. unfold Track. rewrite Hr. unfold set.
    destruct (unsafeSet_chans mpt now (carg_Cid c) TrackerStatusPinning)
      as (Hp & Hu & _).
    rewrite Hp, (try_send_full _ _ Hfull). simpl.
    assert (Hl := unsafeSet_lookup_eq mpt now (carg_Cid c)
                    TrackerStatusPinning ltac:(discriminate)).
    unfold setError. rewrite (unsafeSetError_Some _ _ _ _ _ Hl). simpl.
    rewrite lookup_insert_eq.
    repeat split; try done.
    intros k' Hk'. by rewrite !lookup_insert_ne.
  - intros _ Hfull. unfold Untrack, set.
    destruct (unsafeSet_chans mpt now k TrackerStatusUnpinning)
      as (Hp & Hu & _).
    rewrite Hu, (try_send_full _ _ Hfull). simpl.
    assert (Hl := unsafeSet_lookup_eq mpt now k TrackerStatusUnpinning
                    ltac:(discriminate)).
    unfold setError. rewrite (unsafeSetError_Some _ _ _ _ _ Hl). simpl.
    rewrite lookup_insert_eq.
    repeat split; try done.
    intros k' Hk'. by rewrite !lookup_insert_ne.
Qed.


Lemma queue_full_recorded_witness :
  (Track trackerFull 7 daemonHealthy (cargLocal "c3")).2
    = Some ErrPinQueueFull /\
  (Untrack trackerFull 7 "c4").2 = Some ErrUnpinQueueFull.
Proof.
  destruct (queue_full_recorded trackerFull 7 daemonHealthy
              (cargLocal "c3") "c4") as [HT HU].
  split; [apply HT; [reflexivity|vm_compute; lia|reflexivity]
         | apply HU; [vm_compute; lia|reflexivity]].
Defined.

(** C2 as stated fails: with the pin queue full, [Track] of a CidArg that
    is allocated to another peer never looks at the queue, records Remote
    and returns no error; and the error recorded for a local CidArg is
    "pin queue is full", not "queue full". *)
Lemma queue_full_counterexample :
  length (buf (pinCh trackerFull)) = cap (pinCh trackerFull) /\
  (Track trackerFull 7 daemonHealthy (cargElsewhere "c3")).2 = None /\
  Status <$> status (Track trackerFull 7 daemonHealthy
                       (cargElsewhere "c3")).1 !! "c3"
    = Some TrackerStatusRemote /\
  Error <$> status (Track trackerFull 7 daemonHealthy
                      (cargLocal "c3")).1 !! "c3"
    <> Some "queue full".
Proof. repeat split; vm_compute; discriminate. Qed.

(** *** Unpinned is never stored *)

(** C3.  In every state the tracker can reach from [NewMapPin] through
    Track, Untrack, Sync, SyncAll, Recover, the two workers and their
    critical sections, no stored entry has status Unpinned; setting a CID
    to Unpinned removes its entry; and [Status] of a CID without entry is
    the entry with that CID, the local peer, status Unpinned and no
    error. *)
Theorem unpinned_never_stored cfgID queueSize mpt :
  reachable cfgID queueSize mpt ->
  (forall c p, status mpt !! c = Some p ->
     Status p <> TrackerStatusUnpinned) /\
  (forall now c,
     status (unsafeSet mpt now c TrackerStatusUnpinned) !! c = None) /\
  (forall now c, status mpt !! c = None ->
     Status_ mpt now c =
       {| Cid := c; Peer := cfgID; Status := TrackerStatusUnpinned;
          TS := now; Error := "" |}).
Proof.
  intros Hr. destruct (inv_reachable _ _ _ Hr) as [Hid Hm].
  repeat split.
  - intros c p Hp. by destruct (Hm c p Hp).
  - intros now c. apply unsafeSet_Unpinned.
  - intros now c Hc. unfold Status_, get.
    by rewrite (unsafeGet_None _ _ _ Hc), Hid.
Qed.

Lemma trackerMixed_reachable : reachable "A" 2 trackerMixed.
Proof.
  unfold reachable, trackerMixed.
  eapply rtc_l; [apply step_Track|]. apply rtc_once, step_Track.
Defined.

Lemma unpinned_never_stored_witness :
  Status {| Cid := "c1"; Peer := "A"; Status := TrackerStatusPinning;
            TS := 1; Error := "" |} <> TrackerStatusUnpinned /\
  status (unsafeSet trackerMixed 9 "c1" TrackerStatusUnpinned) !! "c1"
    = None /\
  Status_ trackerMixed 9 "c9" =
    {| Cid := "c9"; Peer := "A"; Status := TrackerStatusUnpinned;
       TS := 9; Error := "" |}.
Proof.
  destruct (unpinned_never_stored "A" 2 trackerMixed trackerMixed_reachable)
    as (H1 & H2 & H3).
  split; [|split].
  - apply (H1 "c1"). reflexivity.
  - apply H2.
  - apply H3. reflexivity.
Defined.

(** *** Recover *)

(** C4.  [Recover] of a CID whose status is neither PinError nor
    UnpinError returns the current entry and no error, and changes
    nothing.  On PinError it sends IPFSPin for the CID, past the queues,
    and when the daemon succeeds the entry is Pinned.  On UnpinError it
    sends IPFSUnpin, and when the daemon succeeds the entry is gone, so
    that the entry returned is Unpinned. *)
Theorem Recover_spec mpt now d c :
  (Status (get mpt now c) <> TrackerStatusPinError ->
   Status (get mpt now c) <> TrackerStatusUnpinError ->
   Recover mpt now d c = (mpt, (get mpt now c, None))) /\
  (Status (get mpt now c) = TrackerStatusPinError ->
   rpcLog (Recover mpt now d c).1 = rpcLog mpt ++ [CallIPFSPin c] /\
   pinCh (Recover mpt now d c).1 = pinCh mpt /\
   unpinCh (Recover mpt now d c).1 = unpinCh mpt /\
   (IPFSPin d c = None ->
    (Recover mpt now d c).2 =
      ({| Cid := c; Peer := peerID mpt; Status := TrackerStatusPinned;
          TS := now; Error := "" |}, None) /\
    status (Recover mpt now d c).1 !! c =
      Some {| Cid := c; Peer := peerID mpt; Status := TrackerStatusPinned;
              TS := now; Error := "" |})) /\
  (Status (get mpt now c) = TrackerStatusUnpinError ->
   rpcLog (Recover mpt now d c).1 = rpcLog mpt ++ [CallIPFSUnpin c] /\
   pinCh (Recover mpt now d c).1 = pinCh mpt /\
   unpinCh (Recover mpt now d c).1 = unpinCh mpt /\
   (IPFSUnpin d c = None ->
    (Recover mpt now d c).2 =
      ({| Cid := c; Peer := peerID mpt; Status := TrackerStatusUnpinned;
          TS := now; Error := "" |}, None) /\
    status (Recover mpt now d c).1 !! c = None)).
Proof.
  split; [|split].
  - intros H1 H2. unfold Recover.
    by destruct (Status (get mpt now c)).
  - intros Hs. unfold Recover. rewrite Hs. unfold pin, set, setError.
    cbn [carg_Cid CidArgCid].
    rewrite unsafeSet_logged.
    destruct (IPFSPin d c) as [err|] eqn:Hd; cbn [fst snd].
    + rewrite unsafeSetError_logged.
      destruct (unsafeSetError_chans
                  (unsafeSet mpt now c TrackerStatusPinning) now c err)
        as (E1 & E2 & E3).
      destruct (unsafeSet_chans mpt now c TrackerStatusPinning)
        as (E4 & E5 & E6).
      cbn [rpcLog pinCh unpinCh logged]. rewrite E1, E2, E3, E4, E5, E6.
      repeat split; try done.
    + destruct (unsafeSet_chans
                  (unsafeSet mpt now c TrackerStatusPinning) now c
                  TrackerStatusPinned) as (E1 & E2 & E3).
      destruct (unsafeSet_chans mpt now c TrackerStatusPinning)
        as (E4 & E5 & E6).
      cbn [rpcLog pinCh unpinCh logged]. rewrite E1, E2, E3, E4, E5, E6.
      repeat split; try done.
      * unfold get. rewrite unsafeGet_logged.
        erewrite unsafeGet_Some; [|by apply unsafeSet_lookup_eq].
        by rewrite unsafeSet_peerID.
      * cbn [status logged]. rewrite unsafeSet_lookup_eq by done.
        by rewrite unsafeSet_peerID.
  - intros Hs. unfold Recover. rewrite Hs. unfold unpin, set, setError.
    cbn [carg_Cid CidArgCid].
    destruct (IPFSUnpin d c) as [err|] eqn:Hd; cbn [fst snd].
    + rewrite unsafeSetError_logged.
      destruct (unsafeSetError_chans mpt now c err) as (E1 & E2 & E3).
      cbn [rpcLog pinCh unpinCh logged]. rewrite E1, E2, E3.
      repeat split; try done.
    + rewrite unsafeSet_logged.
      destruct (unsafeSet_chans mpt now c TrackerStatusUnpinned)
        as (E1 & E2 & E3).
      cbn [rpcLog pinCh unpinCh logged]. rewrite E1, E2, E3.
      repeat split; try done.
      * unfold get. rewrite unsafeGet_logged.
        rewrite unsafeGet_None by apply unsafeSet_Unpinned.
        by rewrite unsafeSet_peerID.
      * cbn [status logged]. apply unsafeSet_Unpinned.
Qed.


Lemma Recover_spec_witness :
  Recover trackerMixed 9 daemonHealthy "c1"
    = (trackerMixed, (get trackerMixed 9 "c1", None)) /\
  Status <$> status (Recover (Track trackerFull 7 daemonHealthy
                                (cargLocal "c3")).1
                       9 daemonHealthy "c3").1 !! "c3"
    = Some TrackerStatusPinned /\
  status (Recover (Untrack trackerFull 7 "c4").1 9 daemonHealthy "c4").1
    !! "c4" = None.
Proof.
  split; [|split].
  - apply (Recover_spec trackerMixed 9 daemonHealthy "c1");
      vm_compute; discriminate.
  - destruct (Recover_spec (Track trackerFull 7 daemonHealthy
                              (cargLocal "c3")).1 9 daemonHealthy "c3")
      as (_ & H & _).
    destruct H as (_ & _ & _ & H); [reflexivity|].
    destruct H as [_ H]; [reflexivity|]. by rewrite H.
  - destruct (Recover_spec (Untrack trackerFull 7 "c4").1 9 daemonHealthy
                "c4") as (_ & _ & H).
    destruct H as (_ & _ & _ & H); [reflexivity|].
    destruct H as [_ H]; [reflexivity|]. exact H.
Defined.

(** *** SyncAll *)

Lemma markError_idem self now err k p :
  markError self now err k (markError self now err k p)
    = markError self now err k p.
Proof. unfold markError. by destruct (Status p) eqn:E; cbn; rewrite ?E. Qed.

Lemma unsafeSetError_lookup_eq mpt now c err :
  status (unsafeSetError mpt now c err) !! c =
    Some (markError (peerID mpt) now err c (unsafeGet mpt now c)).
Proof.
  destruct (status mpt !! c) as [p|] eqn:Hp.
  - rewrite (unsafeSetError_Some _ _ _ _ _ Hp), (unsafeGet_Some _ _ _ _ Hp).
    cbn. by rewrite lookup_insert_eq.
  - unfold unsafeSetError. rewrite (unsafeGet_None _ _ _ Hp). cbn.
    by rewrite lookup_insert_eq.
Qed.

Lemma unsafeSetError_fmap mpt now c err k :
  is_Some (status mpt !! c) ->
  markError (peerID mpt) now err k
    <$> status (unsafeSetError mpt now c err) !! k
  = markError (peerID mpt) now err k <$> status mpt !! k.
Proof.
  intros [p Hp]. destruct (decide (k = c)) as [->|Hk].
  - rewrite unsafeSetError_lookup_eq, (unsafeGet_Some _ _ _ _ Hp), Hp.
    cbn. by rewrite markError_idem.
  - by rewrite unsafeSetError_lookup_ne.
Qed.

Lemma markAll_spec now err keys : forall mpt pInfos,
  (forall k, k ∈ keys -> is_Some (status mpt !! k)) ->
  peerID (markAll mpt now err keys pInfos).1 = peerID mpt /\
  (forall k, status (markAll mpt now err keys pInfos).1 !! k =
     if decide (k ∈ keys)
     then markError (peerID mpt) now err k <$> status mpt !! k
     else status mpt !! k) /\
  (markAll mpt now err keys pInfos).2 =
    pInfos ++ omap (fun k => markError (peerID mpt) now err k
                               <$> status mpt !! k) keys.
Proof.
  induction keys as [|k0 rest IH]; intros mpt pInfos Hkeys.
  - cbn. split; [done|]. split; [|by rewrite app_nil_r].
    intros k. case_decide as Hk; [|done]. by apply elem_of_nil in Hk.
  - destruct (Hkeys k0) as [p0 Hp0]; [by left|].
    cbn [markAll].
    set (mpt1 := unsafeSetError mpt now k0 err).
    assert (Hid1 : peerID mpt1 = peerID mpt)
      by apply unsafeSetError_peerID.
    assert (Hk0 : status mpt1 !! k0
                  = Some (markError (peerID mpt) now err k0 p0)).
    { unfold mpt1.
      by rewrite unsafeSetError_lookup_eq, (unsafeGet_Some _ _ _ _ Hp0). }
    assert (Hkeys1 : forall k, k ∈ rest -> is_Some (status mpt1 !! k)).
    { intros k Hk. destruct (decide (k = k0)) as [->|Hne].
      - by rewrite Hk0.
      - unfold mpt1. rewrite unsafeSetError_lookup_ne by done.
        apply Hkeys. by right. }
    destruct (IH mpt1 (pInfos ++ [unsafeGet mpt1 now k0]) Hkeys1)
      as (Hid & Hlook & Hlist).
    split; [by rewrite Hid|]. split.
    + intros k. rewrite Hlook, Hid1.
      destruct (decide (k = k0)) as [->|Hne].
      * rewrite Hk0, Hp0.
        destruct (decide (k0 ∈ k0 :: rest)) as [_|Hn];
          [|destruct Hn; by left].
        case_decide; cbn; by rewrite ?markError_idem.
      * unfold mpt1. rewrite unsafeSetError_lookup_ne by done.
        destruct (decide (k ∈ rest)) as [Hin|Hnin].
        -- rewrite decide_True by (by right). done.
        -- rewrite decide_False; [done|].
           intros [?|?]%elem_of_cons; contradiction.
    + rewrite Hlist, Hid1, (unsafeGet_Some _ _ _ _ Hk0).
      cbn [omap list_omap]. rewrite Hp0. cbn. rewrite <- app_assoc. cbn.
      do 2 f_equal. apply list_omap_ext, Forall2_same_length_lookup_2;
        [done|].
      intros i k k' Hk Hk'. rewrite Hk in Hk'. injection Hk' as <-.
      unfold mpt1. apply unsafeSetError_fmap. by rewrite Hp0.
Qed.


Lemma syncStatus_peerID mpt now c ips :
  peerID (syncStatus mpt now c ips).1 = peerID mpt.
Proof.
  unfold syncStatus, set, setError. cbn [fst].
  destruct (IsPinned ips), (Status (get mpt now c)); repeat case_match;
    by rewrite ?unsafeSet_peerID, ?unsafeSetError_peerID.
Qed.

Lemma syncStatus_lookup_ne mpt now c ips k :
  k <> c -> status (syncStatus mpt now c ips).1 !! k = status mpt !! k.
Proof.
  intros Hk. unfold syncStatus, set, setError. cbn [fst].
  destruct (IsPinned ips), (Status (get mpt now c)); repeat case_match;
    by rewrite ?unsafeSet_lookup_ne, ?unsafeSetError_lookup_ne.
Qed.

Lemma syncStatus_snd mpt now c ips :
  (syncStatus mpt now c ips).2 = unsafeGet (syncStatus mpt now c ips).1 now c.
Proof. reflexivity. Qed.

Lemma unsafeGet_local m1 m2 now c :
  status m1 !! c = status m2 !! c -> peerID m1 = peerID m2 ->
  unsafeGet m1 now c = unsafeGet m2 now c.
Proof. unfold unsafeGet. by intros -> ->. Qed.

(** What [syncStatus] does to [c] depends on the entry of [c] and on the
    local peer ID only. *)
Lemma syncStatus_local m1 m2 now c ips :
  status m1 !! c = status m2 !! c -> peerID m1 = peerID m2 ->
  status (syncStatus m1 now c ips).1 !! c
    = status (syncStatus m2 now c ips).1 !! c /\
  (syncStatus m1 now c ips).2 = (syncStatus m2 now c ips).2.
Proof.
  intros Hl Hid.
  assert (Hfst : status (syncStatus m1 now c ips).1 !! c
                 = status (syncStatus m2 now c ips).1 !! c).
  { pose proof (unsafeGet_local m1 m2 now c Hl Hid) as Hg.
    unfold syncStatus, get, set, setError. cbn [fst]. rewrite Hg.
    destruct (IsPinned ips), (Status (unsafeGet m2 now c));
      repeat case_match;
      by rewrite ?unsafeSet_lookup, ?unsafeSetError_lookup_eq, ?Hg, ?Hid. }
  split; [exact Hfst|].
  rewrite !syncStatus_snd. apply unsafeGet_local; [exact Hfst|].
  by rewrite !syncStatus_peerID.
Qed.

Lemma syncEach_step mpt now ipsMap pInfoOrig rest pInfos :
  syncEach mpt now ipsMap (pInfoOrig :: rest) pInfos =
    let r := syncStatus mpt now (Cid pInfoOrig)
               (ipsOf ipsMap (Cid pInfoOrig)) in
    syncEach r.1 now ipsMap rest
      (if reported pInfoOrig r.2 then pInfos ++ [r.2] else pInfos).
Proof.
  cbn [syncEach]. unfold ipsOf, reported.
  destruct (ipsMap !! Cid pInfoOrig);
    by destruct (syncStatus mpt now (Cid pInfoOrig) _).
Qed.

Lemma syncEach_spec mpt0 now ipsMap snapshot : forall mpt pInfos,
  NoDup (Cid <$> snapshot) ->
  peerID mpt = peerID mpt0 ->
  (forall p, p ∈ snapshot -> status mpt !! Cid p = status mpt0 !! Cid p) ->
  peerID (syncEach mpt now ipsMap snapshot pInfos).1 = peerID mpt0 /\
  (forall k, status (syncEach mpt now ipsMap snapshot pInfos).1 !! k =
     if decide (k ∈ Cid <$> snapshot)
     then status (syncStatus mpt0 now k (ipsOf ipsMap k)).1 !! k
     else status mpt !! k) /\
  (syncEach mpt now ipsMap snapshot pInfos).2 =
    pInfos ++ omap (report mpt0 now ipsMap) snapshot.
Proof.
  induction snapshot as [|p0 rest IH]; intros mpt pInfos Hnd Hid Hagree.
  - cbn. split; [done|]. split; [|by rewrite app_nil_r].
    intros k. case_decide as Hk; [|done]. by apply elem_of_nil in Hk.
  - rewrite syncEach_step. cbn zeta.
    rewrite fmap_cons in Hnd. apply NoDup_cons in Hnd as [Hnotin Hnd].
    set (c0 := Cid p0) in *.
    set (r := syncStatus mpt now c0 (ipsOf ipsMap c0)).
    destruct (syncStatus_local mpt mpt0 now c0 (ipsOf ipsMap c0))
      as [Hc0 Hnew]; [apply Hagree; by left|done|].
    fold r in Hc0, Hnew.
    assert (Hagree1 : forall p, p ∈ rest ->
              status r.1 !! Cid p = status mpt0 !! Cid p).
    { intros p Hp. unfold r. rewrite syncStatus_lookup_ne.
      - apply Hagree. by right.
      - intros E. apply Hnotin. rewrite <- E. by apply list_elem_of_fmap_2. }
    destruct (IH r.1 (if reported p0 r.2 then pInfos ++ [r.2] else pInfos)
                Hnd) as (Hid' & Hlook & Hlist);
      [unfold r; by rewrite syncStatus_peerID|exact Hagree1|].
    split; [exact Hid'|]. split.
    + intros k. rewrite Hlook, fmap_cons. fold c0.
      destruct (decide (k = c0)) as [->|Hne].
      * rewrite decide_False by done.
        destruct (decide (c0 ∈ c0 :: (Cid <$> rest))) as [_|Hn];
          [exact Hc0|destruct Hn; by left].
      * destruct (decide (k ∈ Cid <$> rest)) as [Hin|Hnin].
        -- destruct (decide (k ∈ c0 :: (Cid <$> rest))) as [_|Hn];
             [done|destruct Hn; by right].
        -- destruct (decide (k ∈ c0 :: (Cid <$> rest)))
             as [[?|?]%elem_of_cons|_]; [done|done|].
           unfold r. by rewrite syncStatus_lookup_ne.
    + rewrite Hlist. cbn [omap list_omap]. unfold report at 2. fold c0.
      rewrite <- Hnew.
      destruct (reported p0 r.2); [by rewrite <- app_assoc|done].
Qed.


Lemma iter_lookup (m : gmap string PinInfo) (iter : list (string * PinInfo)) :
  iter ≡ₚ map_to_list m ->
  (forall k p, (k, p) ∈ iter <-> m !! k = Some p) /\ NoDup iter.*1.
Proof.
  intros Hperm. split.
  - intros k p. rewrite Hperm. apply elem_of_map_to_list.
  - rewrite Hperm. apply NoDup_fst_map_to_list.
Qed.

Lemma omap_keys {A B} (f : string -> A -> B) (m : gmap string A)
    (l : list (string * A)) :
  (forall k a, (k, a) ∈ l -> m !! k = Some a) ->
  omap (fun k => f k <$> m !! k) l.*1 = (fun ka => f ka.1 ka.2) <$> l.
Proof.
  induction l as [|[k a] l IH]; intros Hl; [done|].
  cbn. rewrite (Hl k a) by (by left). cbn. f_equal.
  apply IH. intros k' a' Hin. apply Hl. by right.
Qed.

Lemma keys_of_entries (l : list (string * PinInfo)) :
  (forall k p, (k, p) ∈ l -> Cid p = k) -> Cid <$> l.*2 = l.*1.
Proof.
  induction l as [|[k p] l IH]; intros Hl; [done|].
  cbn. rewrite (Hl k p) by (by left). f_equal.
  apply IH. intros k' p' Hin. apply Hl. by right.
Qed.

Lemma reported_spec p p' :
  reported p p' = true <->
  Status p <> Status p' \/ Status p' = TrackerStatusUnpinError \/
  Status p' = TrackerStatusPinError.
Proof.
  unfold reported. rewrite !orb_true_iff, negb_true_iff.
  rewrite bool_decide_eq_false, !bool_decide_eq_true. tauto.
Qed.

(** What [SyncAll] leaves and returns when the bulk query fails. *)
Lemma SyncAll_failure mpt now d iter err :
  iter ≡ₚ map_to_list (status mpt) ->
  IPFSPinLs d "recursive" = inr err ->
  (SyncAll mpt now d iter).2.2 = Some err /\
  (forall k, status (SyncAll mpt now d iter).1 !! k
     = markError (peerID mpt) now err k <$> status mpt !! k) /\
  (SyncAll mpt now d iter).2.1
    = (fun kp => markError (peerID mpt) now err kp.1 kp.2) <$> iter.
Proof.
  intros Hperm Hd.
  destruct (iter_lookup _ _ Hperm) as [Hiter Hnd].
  set (mpt0 := logged (CallIPFSPinLs "recursive") mpt).
  assert (Hkeys : forall k, k ∈ iter.*1 -> is_Some (status mpt0 !! k)).
  { intros k [[k' p] [-> Hin]]%list_elem_of_fmap.
    exists p. by apply Hiter. }
  destruct (markAll_spec now err iter.*1 mpt0 [] Hkeys)
    as (_ & Hlook & Hlist).
  unfold SyncAll. rewrite Hd. fold mpt0.
  destruct (markAll mpt0 now err iter.*1 []) as [mpt' pInfos].
  cbn [fst snd] in *. change (peerID mpt0) with (peerID mpt) in *.
  change (status mpt0) with (status mpt) in *.
  split; [done|]. split.
  - intros k. rewrite Hlook. case_decide as Hk; [done|].
    destruct (status mpt !! k) as [p|] eqn:Hp; [|done].
    destruct Hk. apply list_elem_of_fmap. exists (k, p).
    split; [done|]. by apply Hiter.
  - rewrite Hlist. cbn. apply omap_keys. intros k p. apply Hiter.
Qed.

(** What [SyncAll] leaves and returns when the bulk query succeeds. *)
Lemma SyncAll_success cfgID queueSize mpt now d iter ipsMap :
  reachable cfgID queueSize mpt ->
  iter ≡ₚ map_to_list (status mpt) ->
  IPFSPinLs d "recursive" = inl ipsMap ->
  (SyncAll mpt now d iter).2.2 = None /\
  (forall k, status (SyncAll mpt now d iter).1 !! k =
     match status mpt !! k with
     | Some _ => status (syncStatus mpt now k (ipsOf ipsMap k)).1 !! k
     | None => None
     end) /\
  (SyncAll mpt now d iter).2.1 = omap (report mpt now ipsMap) iter.*2.
Proof.
  intros Hr Hperm Hd.
  destruct (inv_reachable _ _ _ Hr) as [Hid Hm].
  destruct (iter_lookup _ _ Hperm) as [Hiter Hnd].
  assert (Hcids : Cid <$> iter.*2 = iter.*1).
  { apply keys_of_entries. intros k p Hin. apply Hiter in Hin.
    by destruct (Hm k p Hin) as (_ & ? & _). }
  set (mpt0 := logged (CallIPFSPinLs "recursive") mpt).
  destruct (syncEach_spec mpt now ipsMap (StatusAll iter) mpt0 [])
    as (_ & Hlook & Hlist); [unfold StatusAll; by rewrite Hcids|done|done|].
  unfold SyncAll. rewrite Hd. fold mpt0.
  destruct (syncEach mpt0 now ipsMap (StatusAll iter) []) as [mpt' pInfos].
  cbn [fst snd] in *. unfold StatusAll in *. rewrite Hcids in Hlook.
  split; [done|]. split; [|exact Hlist].
  intros k. rewrite Hlook. change (status mpt0) with (status mpt).
  destruct (status mpt !! k) as [p|] eqn:Hp.
  - rewrite decide_True; [done|]. apply list_elem_of_fmap. exists (k, p).
    split; [done|]. by apply Hiter.
  - rewrite decide_False; [done|].
    intros [[k' p] [-> Hin]]%list_elem_of_fmap. apply Hiter in Hin.
    cbn in Hp. congruence.
Qed.


(** C5, as the code has it.  For a reachable tracker and any enumeration
    [iter] of its entries: when the bulk query fails with [err], [SyncAll]
    returns [err], replaces every entry by [markError] of it (PinError for
    Pinned, Pinning and PinError, UnpinError for Unpinning and UnpinError,
    and the entry itself, unchanged, for Remote) and returns all these
    entries, the Remote ones included.  When the query succeeds, every
    entry is reconciled by [syncStatus] on its own, no error is returned,
    and the list returned holds exactly the new entries whose status
    differs from the old one or is PinError or UnpinError. *)
Theorem SyncAll_spec cfgID queueSize mpt now d iter :
  reachable cfgID queueSize mpt ->
  iter ≡ₚ map_to_list (status mpt) ->
  (forall err, IPFSPinLs d "recursive" = inr err ->
     (SyncAll mpt now d iter).2.2 = Some err /\
     (forall k, status (SyncAll mpt now d iter).1 !! k
        = markError cfgID now err k <$> status mpt !! k) /\
     (SyncAll mpt now d iter).2.1
       = (fun kp => markError cfgID now err kp.1 kp.2) <$> iter) /\
  (forall ipsMap, IPFSPinLs d "recursive" = inl ipsMap ->
     (SyncAll mpt now d iter).2.2 = None /\
     (forall k, status (SyncAll mpt now d iter).1 !! k =
        match status mpt !! k with
        | Some _ => status (syncStatus mpt now k (ipsOf ipsMap k)).1 !! k
        | None => None
        end) /\
     (SyncAll mpt now d iter).2.1 = omap (report mpt now ipsMap) iter.*2 /\
     (forall p', p' ∈ (SyncAll mpt now d iter).2.1 <->
        exists k p, status mpt !! k = Some p /\
          p' = (syncStatus mpt now k (ipsOf ipsMap k)).2 /\
          (Status p <> Status p' \/ Status p' = TrackerStatusUnpinError \/
           Status p' = TrackerStatusPinError))).
Proof.
  intros Hr Hperm.
  destruct (inv_reachable _ _ _ Hr) as [Hid Hm].
  destruct (iter_lookup _ _ Hperm) as [Hiter _].
  split.
  - intros err Hd. rewrite <- Hid. by apply SyncAll_failure.
  - intros ipsMap Hd.
    destruct (SyncAll_success _ _ _ now _ _ _ Hr Hperm Hd)
      as (Herr & Hlook & Hlist).
    repeat split; try assumption.
    + rewrite Hlist. intros [p [Hin Hrep]]%list_elem_of_omap.
      apply list_elem_of_fmap in Hin as [[k p0] [-> Hin]].
      apply Hiter in Hin. cbn in Hrep.
      destruct (Hm k p0 Hin) as (_ & Hcid & _).
      unfold report in Hrep. rewrite Hcid in Hrep.
      destruct (reported p0 _) eqn:Hrp; [|done].
      injection Hrep as <-. exists k, p0.
      repeat split; [done|]. by apply reported_spec.
    + rewrite Hlist. intros (k & p & Hp & -> & Hrp).
      apply list_elem_of_omap. exists p. split.
      * apply list_elem_of_fmap. exists (k, p). split; [done|].
        by apply Hiter.
      * destruct (Hm k p Hp) as (_ & Hcid & _).
        unfold report. rewrite Hcid.
        apply reported_spec in Hrp. by rewrite Hrp.
Qed.

Lemma SyncAll_spec_witness :
  (SyncAll trackerMixed 7 daemonDown
     (map_to_list (status trackerMixed))).2.2 = Some "connection refused" /\
  (SyncAll trackerMixed 7 daemonHealthy
     (map_to_list (status trackerMixed))).2.2 = None.
Proof.
  split.
  - destruct (SyncAll_spec "A" 2 trackerMixed 7 daemonDown
                (map_to_list (status trackerMixed))
                trackerMixed_reachable (reflexivity _)) as [HF _].
    by destruct (HF "connection refused" eq_refl) as [H _].
  - destruct (SyncAll_spec "A" 2 trackerMixed 7 daemonHealthy
                (map_to_list (status trackerMixed))
                trackerMixed_reachable (reflexivity _)) as [_ HS].
    by destruct (HS ∅ eq_refl) as [H _].
Defined.

(** C5 as stated fails: when the bulk query fails, a Remote entry is not
    marked as an error; it stays Remote, and is returned as such. *)
Lemma SyncAll_failure_keeps_Remote :
  IPFSPinLs daemonDown "recursive" = inr "connection refused" /\
  Status <$> status trackerMixed !! "c2" = Some TrackerStatusRemote /\
  Status <$> status (SyncAll trackerMixed 7 daemonDown
                       (map_to_list (status trackerMixed))).1 !! "c2"
    = Some TrackerStatusRemote /\
  Status <$> (SyncAll trackerMixed 7 daemonDown
                (map_to_list (status trackerMixed))).2.1
    = [TrackerStatusPinError; TrackerStatusRemote].
Proof. repeat split; vm_compute; reflexivity. Qed.

(** *** Remote entries *)

(** C10, as the code has it.  An entry with status Remote is left as it is
    by [setError], hence by the error path of [Sync] and by [SyncAll]
    when the bulk query fails, and by [syncStatus] whatever the daemon
    reports. *)
Theorem Remote_entry_stays mpt now c p :
  status mpt !! c = Some p ->
  Status p = TrackerStatusRemote ->
  (forall err, setError mpt now c err = mpt) /\
  (forall ips, syncStatus mpt now c ips = (mpt, p)) /\
  (forall d err, IPFSPinLsCid d c = inr err ->
     status (Sync mpt now d c).1 = status mpt /\
     (Sync mpt now d c).2 = (p, Some err)) /\
  (forall d err iter, IPFSPinLs d "recursive" = inr err ->
     iter ≡ₚ map_to_list (status mpt) ->
     status (SyncAll mpt now d iter).1 !! c = Some p /\
     p ∈ (SyncAll mpt now d iter).2.1).
Proof.
  intros Hp Hs.
  assert (Hset : forall err, setError mpt now c err = mpt)
    by (intros err; by apply (unsafeSetError_Remote _ _ _ _ p)).
  assert (Hmark : forall self err, markError self now err c p = p)
    by (intros; unfold markError; by rewrite Hs).
  repeat split.
  - exact Hset.
  - intros ips. unfold syncStatus, get.
    rewrite (unsafeGet_Some _ _ _ _ Hp), Hs.
    destruct (IsPinned ips); cbn; by rewrite (unsafeGet_Some _ _ _ _ Hp).
  - by rewrite (Sync_err _ _ _ _ _ H), Hset.
  - rewrite (Sync_err _ _ _ _ _ H), Hset. unfold get.
    by rewrite (unsafeGet_Some _ _ _ _ Hp).
  - destruct (SyncAll_failure mpt now d iter err H0 H) as (_ & Hl & _).
    by rewrite Hl, Hp; cbn; rewrite Hmark.
  - destruct (SyncAll_failure mpt now d iter err H0 H) as (_ & _ & Hl).
    rewrite Hl. apply list_elem_of_fmap. exists (c, p). split.
    + cbn. by rewrite Hmark.
    + by apply (iter_lookup _ _ H0).
Qed.

Lemma Remote_entry_stays_witness :
  setError trackerMixed 7 "c2" "connection refused" = trackerMixed /\
  syncStatus trackerMixed 7 "c2" IPFSPinStatusPinned
    = (trackerMixed,
       {| Cid := "c2"; Peer := "A"; Status := TrackerStatusRemote;
          TS := 1; Error := "" |}).
Proof.
  destruct (Remote_entry_stays trackerMixed 7 "c2"
              {| Cid := "c2"; Peer := "A"; Status := TrackerStatusRemote;
                 TS := 1; Error := "" |} eq_refl eq_refl)
    as (H1 & H2 & _).
  split; [apply H1 | apply H2].
Defined.

(** C10 as stated fails on the queue-full paths: [Track] and [Untrack]
    overwrite the entry with Pinning or Unpinning before they try the
    queue, so a Remote entry ends as PinError or UnpinError there. *)
Lemma Remote_entry_queue_full :
  let mpt := (Track trackerFull 7 daemonHealthy (cargElsewhere "c3")).1 in
  Status <$> status mpt !! "c3" = Some TrackerStatusRemote /\
  length (buf (pinCh mpt)) = cap (pinCh mpt) /\
  length (buf (unpinCh mpt)) = cap (unpinCh mpt) /\
  Status <$> status (Untrack mpt 8 "c3").1 !! "c3"
    = Some TrackerStatusUnpinError /\
  Status <$> status (Track mpt 8 daemonHealthy (cargLocal "c3")).1 !! "c3"
    = Some TrackerStatusPinError.
Proof. repeat split; vm_compute; reflexivity. Qed.

End TrackerSpec.

(** ** The shared state *)

Module StateSpec.
Import api state.

Lemma mapState_eq (st st' : mapState) :
  PinMap st = PinMap st' -> Version st = Version st' -> st = st'.
Proof. destruct st, st'. cbn. by intros -> ->. Qed.

Lemma Has_false st k : Has st k = false <-> PinMap st !! k = None.
Proof. unfold Has. by destruct (PinMap st !! k). Qed.

(** C6.  [Add] stores the record under its CID whether or not the CID was
    present, and leaves the other CIDs alone; adding a record over one
    with the same CID, in particular adding it twice, gives the state of
    a single [Add].  [Rm] of an absent CID returns no error and the same
    state, and [Get] of an absent CID the empty CidArg. *)
Theorem Add_upsert_Rm_absent (st : mapState) (c c' : CidArg) (k : string) :
  (Add st c).2 = None /\
  PinMap (Add st c).1 !! carg_Cid c = Some (ToSerial c) /\
  (k <> carg_Cid c -> PinMap (Add st c).1 !! k = PinMap st !! k) /\
  Add (Add st c).1 c = Add st c /\
  (carg_Cid c' = carg_Cid c -> Add (Add st c').1 c = Add st c) /\
  (Has st k = false ->
   Rm st k = (st, None) /\ Get st k = CidArg_zero).
Proof.
  repeat split.
  - cbn. apply lookup_insert_eq.
  - intros Hk. cbn. by rewrite lookup_insert_ne.
  - unfold Add. cbn. by rewrite insert_insert_eq.
  - intros Hc. unfold Add. cbn. by rewrite Hc, insert_insert_eq.
  - apply Has_false in H. unfold Rm. f_equal.
    apply mapState_eq; [|done]. cbn. by apply delete_id.
  - apply Has_false in H. unfold Get. by rewrite H.
Qed.

Lemma Add_upsert_Rm_absent_witness :
  Add (Add NewMap cargSample).1 cargSample = Add NewMap cargSample /\
  Rm NewMap "QmAbsent" = (NewMap, None) /\
  Get NewMap "QmAbsent" = CidArg_zero.
Proof.
  destruct (Add_upsert_Rm_absent NewMap cargSample cargSample "QmAbsent")
    as (_ & _ & _ & _ & HA & HR).
  split; [apply HA; reflexivity | apply HR; reflexivity].
Defined.

End StateSpec.

(** ** The peer manager *)

Module PeerManagerSpec.
Import peermanager.

Section addPeer.

Variable ValueForProtocol_IPFS : string -> string + string.
Variable Decapsulate_IPFS : string -> string -> string.
Variable IDB58Decode : string -> string + string.

#[local] Abbreviation multiaddrSplit :=
  (multiaddrSplit ValueForProtocol_IPFS Decapsulate_IPFS IDB58Decode).
#[local] Abbreviation addPeer :=
  (addPeer ValueForProtocol_IPFS Decapsulate_IPFS IDB58Decode).

(** C9.  For an address that splits into a peer ID and a transport
    address: when the peer ID is in the peer set, [addPeer] returns it
    with no error and the cluster, with its peer set, its config and the
    calls made on the peerstore, the consensus component and the config
    file, is as before.  When the peer ID is new, [addPeer] adds it to
    the peer set, stores the transport address in the peerstore with the
    permanent TTL, appends the address to the config's peers, notifies
    the consensus component if there is one, and saves the config if its
    path is not empty. *)
Theorem addPeer_spec (cl : Cluster) (addr peerID decapAddr : string) :
  multiaddrSplit addr = inl (peerID, decapAddr) ->
  (peerID ∈ peerSet cl -> addPeer cl addr = (cl, (peerID, None))) /\
  (peerID ∉ peerSet cl ->
   (addPeer cl addr).2 = (peerID, None) /\
   peerSet (addPeer cl addr).1 = {[peerID]} ∪ peerSet cl /\
   config (addPeer cl addr).1 =
     {| ClusterPeers := ClusterPeers (config cl) ++ [addr];
        path := path (config cl) |} /\
   consensus (addPeer cl addr).1 = consensus cl /\
   effects (addPeer cl addr).1 =
     effects cl
     ++ [PeerstoreAddAddr peerID decapAddr PermanentAddrTTL]
     ++ (if consensus cl then [ConsensusAddPeer peerID] else [])
     ++ (if decide (path (config cl) = "") then []
         else [ConfigSave (path (config cl))
                 (ClusterPeers (config cl) ++ [addr])])).
Proof.
  intros Hsplit. unfold peermanager.addPeer. rewrite Hsplit. split.
  - intros Hin. by rewrite decide_True.
  - intros Hnotin. rewrite decide_False by done. cbn.
    repeat split.
    destruct (consensus cl); case_decide as Hpath.
    + rewrite Hpath. cbn. by rewrite <- app_assoc.
    + apply String.eqb_neq in Hpath. rewrite Hpath. cbn.
      by rewrite <- !app_assoc.
    + rewrite Hpath. cbn. done.
    + apply String.eqb_neq in Hpath. rewrite Hpath. cbn.
      by rewrite <- !app_assoc.
Qed.

(** An address that does not split changes nothing either. *)
Lemma addPeer_bad_address (cl : Cluster) (addr err : string) :
  multiaddrSplit addr = inr err -> addPeer cl addr = (cl, ("", Some err)).
Proof. intros H. unfold peermanager.addPeer. by rewrite H. Qed.

End addPeer.

Lemma addPeer_spec_witness :
  let add := addPeer sampleValueForProtocol sampleDecapsulate
               sampleIDB58Decode in
  add (add sampleCluster sampleAddr).1 sampleAddr
    = ((add sampleCluster sampleAddr).1, ("QmPeerB", None)) /\
  effects (add sampleCluster sampleAddr).1 =
    [PeerstoreAddAddr "QmPeerB" "/ip4/10.0.0.2/tcp/9096" PermanentAddrTTL;
     ConsensusAddPeer "QmPeerB";
     ConfigSave "service.json" [sampleAddr]].
Proof.
  cbv zeta. split.
  - apply (addPeer_spec sampleValueForProtocol sampleDecapsulate
             sampleIDB58Decode _ sampleAddr "QmPeerB"
             "/ip4/10.0.0.2/tcp/9096" eq_refl).
    vm_compute. set_solver.
  - destruct (addPeer_spec sampleValueForProtocol sampleDecapsulate
                sampleIDB58Decode sampleCluster sampleAddr "QmPeerB"
                "/ip4/10.0.0.2/tcp/9096" eq_refl) as [_ H].
    destruct H as (_ & _ & _ & _ & H); [|exact H].
    cbn. set_solver.
Defined.

End PeerManagerSpec.

(** ** The commit loop of the consensus component *)

Module ConsensusSpec.
Import api cluster.

Section loop.

Variables (hostID rpcOp : string) (opType : LogOpType) (carg : CidArg).
Variable env : nat -> Answers.

#[local] Abbreviation loop := (logOpCid_loop hostID env rpcOp opType carg).
#[local] Abbreviation error_of := (turnError hostID rpcOp carg).
#[local] Abbreviation events_of := (turnEvents hostID rpcOp opType carg).

Lemma countEv_app f evs evs' :
  countEv f (evs ++ evs') = (countEv f evs + countEv f evs')%nat.
Proof.
  induction evs as [|e evs IH]; [done|]. cbn. rewrite IH.
  by destruct (f e).
Qed.

(** One turn of the loop. *)
Lemma loop_S n i finalErr evs :
  loop (S n) i finalErr evs =
    match error_of (env i) with
    | Some e => loop n (S i) (Some e) (evs ++ events_of (env i))
    | None => (None, evs ++ events_of (env i))
    end.
Proof.
  cbn [logOpCid_loop]. unfold turnError, turnEvents.
  destruct (redirectToLeader hostID (env i) rpcOp (ToSerial carg))
    as [[redirected err] evs1].
  destruct err as [e|]; [done|]. destruct redirected; [done|].
  by destruct (ansCommitOp (env i)).
Qed.

Lemma sleep_counted d evs : EvSleep d ∈ evs -> (0 < sleeps evs)%nat.
Proof.
  unfold sleeps. induction evs as [|e evs IH]; intros Hin.
  - by apply elem_of_nil in Hin.
  - apply elem_of_cons in Hin as [<-|Hin]; cbn; [lia|].
    specialize (IH Hin). destruct (isSleep e); lia.
Qed.

Lemma redirect_events a :
  attempts (redirectToLeader hostID a rpcOp (ToSerial carg)).2 = 1%nat /\
  sleeps (redirectToLeader hostID a rpcOp (ToSerial carg)).2 = 0%nat.
Proof.
  unfold redirectToLeader.
  destruct (ansLeader a) as [leader [e|]];
    [destruct (ansWaitForLeader a)|];
    try destruct (String.eqb leader hostID); by cbn.
Qed.

Lemma turn_events a :
  attempts (events_of a) = 1%nat /\
  sleeps (events_of a)
    = (if commitFailed hostID rpcOp carg a then 1 else 0)%nat /\
  forall d, EvSleep d ∈ events_of a -> d = 200 * millisecond.
Proof.
  destruct (redirect_events a) as (Ha & Hs).
  assert (Hd : forall d,
            EvSleep d ∉ (redirectToLeader hostID a rpcOp (ToSerial carg)).2).
  { intros d Hin%sleep_counted. lia. }
  unfold turnEvents, commitFailed.
  destruct (redirectToLeader hostID a rpcOp (ToSerial carg))
    as [[redirected err] evs1]. cbn [snd] in *.
  destruct err as [e|]; [|destruct redirected; [|destruct (ansCommitOp a)]];
    unfold attempts, sleeps in *; rewrite ?countEv_app, ?Ha, ?Hs; cbn;
    (split; [done|split; [done|]]); intros d Hin;
    try (by destruct (Hd d)).
  - apply elem_of_app in Hin as [Hin|Hin]; [by destruct (Hd d)|].
    rewrite !elem_of_cons, elem_of_nil in Hin.
    destruct Hin as [Hin|[Hin|[]]]; [discriminate|by injection Hin].
  - apply elem_of_app in Hin as [Hin|Hin]; [by destruct (Hd d)|].
    rewrite !elem_of_cons, elem_of_nil in Hin.
    destruct Hin as [Hin|[]]; discriminate.
Qed.

Lemma loop_attempts_le n : forall i finalErr evs,
  (attempts (loop n i finalErr evs).2 <= attempts evs + n)%nat.
Proof.
  induction n as [|n IH]; intros i finalErr evs;
    [unfold attempts; cbn; lia|].
  rewrite loop_S. destruct (turn_events (env i)) as (Ha & _ & _).
  destruct (error_of (env i)).
  - etrans; [apply IH|]. unfold attempts in *. rewrite countEv_app, Ha. lia.
  - cbn. unfold attempts in *. rewrite countEv_app, Ha. lia.
Qed.

Lemma loop_attempts_ge n : forall i finalErr evs,
  (attempts evs <= attempts (loop n i finalErr evs).2)%nat.
Proof.
  induction n as [|n IH]; intros i finalErr evs; [done|].
  rewrite loop_S. destruct (error_of (env i)).
  - etrans; [|apply IH]. unfold attempts. rewrite countEv_app. lia.
  - cbn [snd]. unfold attempts. rewrite countEv_app. lia.
Qed.

Lemma loop_first_success n : forall i finalErr evs k,
  (k < n)%nat ->
  (forall j, (j < k)%nat -> error_of (env (i + j)) <> None) ->
  error_of (env (i + k)) = None ->
  (loop n i finalErr evs).1 = None /\
  attempts (loop n i finalErr evs).2 = (attempts evs + S k)%nat.
Proof.
  induction n as [|n IH]; intros i finalErr evs k Hk Hfail Hok; [lia|].
  rewrite loop_S. destruct (turn_events (env i)) as (Ha & _ & _).
  destruct k as [|k].
  - rewrite Nat.add_0_r in Hok. rewrite Hok. cbn.
    unfold attempts in *. rewrite countEv_app, Ha. by split; [|lia].
  - destruct (error_of (env i)) as [e|] eqn:He.
    + destruct (IH (S i) (Some e) (evs ++ events_of (env i)) k)
        as [H1 H2]; [lia| | |].
      * intros j Hj. replace (S i + j)%nat with (i + S j)%nat by lia.
        apply Hfail. lia.
      * by replace (S i + k)%nat with (i + S k)%nat by lia.
      * split; [exact H1|]. rewrite H2. unfold attempts.
        rewrite countEv_app. unfold attempts in Ha. lia.
    + destruct (Hfail O); [lia|]. by rewrite Nat.add_0_r.
Qed.

Lemma loop_all_fail n : forall i finalErr evs,
  (forall j, (j < n)%nat -> error_of (env (i + j)) <> None) ->
  (loop n i finalErr evs).1 =
    match n with
    | O => finalErr
    | S m => error_of (env (i + m))
    end /\
  attempts (loop n i finalErr evs).2 = (attempts evs + n)%nat.
Proof.
  induction n as [|n IH]; intros i finalErr evs Hfail.
  - unfold attempts. cbn. by split; [|lia].
  - rewrite loop_S. destruct (turn_events (env i)) as (Ha & _ & _).
    destruct (error_of (env i)) as [e|] eqn:He.
    + destruct (IH (S i) (Some e) (evs ++ events_of (env i))) as [H1 H2].
      * intros j Hj. replace (S i + j)%nat with (i + S j)%nat by lia.
        apply Hfail. lia.
      * split.
        -- rewrite H1. destruct n as [|m].
           ++ by rewrite Nat.add_0_r, He.
           ++ by replace (S i + m)%nat with (i + S m)%nat by lia.
        -- rewrite H2. unfold attempts in *. rewrite countEv_app. lia.
    + destruct (Hfail O); [lia|]. by rewrite Nat.add_0_r.
Qed.

Lemma loop_sleeps n : forall i finalErr evs,
  sleeps (loop n i finalErr evs).2 =
    (sleeps evs
     + failedCommits hostID rpcOp carg env i
         (attempts (loop n i finalErr evs).2 - attempts evs))%nat.
Proof.
  induction n as [|n IH]; intros i finalErr evs.
  - cbn [logOpCid_loop snd]. rewrite Nat.sub_diag. cbn. lia.
  - rewrite loop_S. destruct (turn_events (env i)) as (Ha & Hs & _).
    assert (Hatt : attempts (evs ++ events_of (env i))
                   = S (attempts evs)).
    { unfold attempts in *. rewrite countEv_app, Ha. lia. }
    assert (Hsl : sleeps (evs ++ events_of (env i)) =
              (sleeps evs +
               if commitFailed hostID rpcOp carg (env i) then 1 else 0)%nat).
    { unfold sleeps in *. by rewrite countEv_app, Hs. }
    destruct (error_of (env i)) as [e|].
    + rewrite IH, Hsl, Hatt.
      pose proof (loop_attempts_le n (S i) (Some e)
                    (evs ++ events_of (env i))) as Hle.
      pose proof (loop_attempts_ge n (S i) (Some e)
                    (evs ++ events_of (env i))) as Hge.
      rewrite Hatt in Hge.
      set (t := attempts (loop n (S i) (Some e)
                            (evs ++ events_of (env i))).2) in *.
      replace (t - attempts evs)%nat with (S (t - S (attempts evs))) by lia.
      cbn [failedCommits]. lia.
    + cbn [snd]. rewrite Hsl, Hatt.
      replace (S (attempts evs) - attempts evs)%nat with 1%nat by lia.
      cbn. lia.
Qed.

Lemma loop_sleep_duration n : forall i finalErr evs d,
  EvSleep d ∈ (loop n i finalErr evs).2 ->
  EvSleep d ∈ evs \/ d = 200 * millisecond.
Proof.
  induction n as [|n IH]; intros i finalErr evs d Hin; [by left|].
  rewrite loop_S in Hin. destruct (turn_events (env i)) as (_ & _ & Hd).
  destruct (error_of (env i)) as [e|].
  - apply IH in Hin as [Hin|Hin]; [|by right].
    apply elem_of_app in Hin as [Hin|Hin]; [by left|right; by apply Hd].
  - cbn in Hin.
    apply elem_of_app in Hin as [Hin|Hin]; [by left|right; by apply Hd].
Qed.

(** The order of the events: [chained res evs] says that each event of
    [evs] is followed as [mayFollow] allows. *)
#[local] Abbreviation chained res evs :=
  (forall k x, evs !! k = Some x -> mayFollow res x (evs !! S k)).

Lemma chained_nil res : chained res [].
Proof. intros k x Hk. by rewrite lookup_nil in Hk. Qed.

Lemma chained_cons res x rest :
  mayFollow res x (head rest) -> chained res rest -> chained res (x :: rest).
Proof.
  intros Hx Hrest [|k] y Hk.
  - injection Hk as <-. change ((x :: rest) !! 1%nat) with (rest !! O).
    by rewrite <- head_lookup.
  - apply (Hrest k y Hk).
Qed.

(** A turn in front of the events of the turns after it.  The turn may
    succeed only as the last one of a call that returns nil. *)
Lemma turn_chained a res rest :
  chained res rest ->
  head rest = None \/ head rest = Some EvLeader ->
  error_of a <> None \/ (rest = [] /\ res = None) ->
  chained res (events_of a ++ rest) /\
  head (events_of a ++ rest) = Some EvLeader.
Proof.
  intros Hrest Hhead Hturn.
  assert (Hno : forall d, head rest <> Some (EvSleep d))
    by (intros d; destruct Hhead as [-> | ->]; discriminate).
  assert (Hnext : head rest = Some EvLeader \/ head rest = None) by tauto.
  unfold turnError, turnEvents, redirectToLeader in *.
  destruct (ansLeader a) as [leader [e|]];
    [destruct (ansWaitForLeader a) as [e'|]|];
    try destruct (String.eqb leader hostID);
    cbn in *; try destruct (ansCall a); try destruct (ansCommitOp a);
    cbn in *; (split; [|done]);
    repeat (apply chained_cons; [cbn; try done|]); try done;
    try (by left);
    try (destruct Hturn as [?|[-> ->]]; [done|by right]).
Qed.

Lemma loop_chained n : forall i finalErr evs,
  exists tail,
    (loop n i finalErr evs).2 = evs ++ tail /\
    chained (loop n i finalErr evs).1 tail /\
    (head tail = None \/ head tail = Some EvLeader).
Proof.
  induction n as [|n IH]; intros i finalErr evs.
  - exists []. cbn. rewrite app_nil_r. split; [done|].
    split; [apply chained_nil|by left].
  - rewrite loop_S.
    destruct (error_of (env i)) as [e|] eqn:Hturn.
    + destruct (IH (S i) (Some e) (evs ++ events_of (env i)))
        as (tail & Heq & Hch & Hhead).
      exists (events_of (env i) ++ tail). rewrite Heq, <- app_assoc.
      split; [done|].
      destruct (turn_chained (env i) _ tail Hch Hhead) as [H1 H2].
      { left. by rewrite Hturn. }
      split; [exact H1|by right].
    + exists (events_of (env i)). cbn [fst snd]. split; [done|].
      destruct (turn_chained (env i) None [] (chained_nil None)) as [H1 H2];
        [by left|by right|].
      rewrite app_nil_r in H1, H2. split; [exact H1|by right].
Qed.

End loop.

(** C7, as the code has it.  [logOpCid] (and so [LogPin] and [LogUnpin])
    makes at most [CommitRetries] turns.  It returns nil at the first turn
    that succeeds, by redirection to the leader or by a local commit, and
    makes no turn after it.  When all turns fail it returns the error of
    the last one.  It sleeps 200 ms after each failed local commit, and
    only then: a turn whose redirection fails is followed by the next
    turn at once.  In the order of the events: a commit is directly
    followed by the sleep of 200 ms, unless it is the last event of a
    call that returns nil; every sleep directly follows a commit; and an
    RPC to the leader is directly followed by the next turn or by
    nothing. *)
Theorem logOpCid_retries (retries : Z) (hostID : string)
    (env : nat -> Answers) (rpcOp : string) (opType : LogOpType)
    (carg : CidArg) :
  let r := logOpCid retries hostID env rpcOp opType carg in
  let n := Z.to_nat retries in
  (attempts r.2 <= n)%nat /\
  (forall k, (k < n)%nat ->
     (forall j, (j < k)%nat ->
        turnError hostID rpcOp carg (env j) <> None) ->
     turnError hostID rpcOp carg (env k) = None ->
     r.1 = None /\ attempts r.2 = S k) /\
  ((0 < n)%nat ->
   (forall j, (j < n)%nat -> turnError hostID rpcOp carg (env j) <> None) ->
   r.1 = turnError hostID rpcOp carg (env (n - 1)%nat) /\ attempts r.2 = n) /\
  sleeps r.2 = failedCommits hostID rpcOp carg env O (attempts r.2) /\
  (forall d, EvSleep d ∈ r.2 -> d = 200 * millisecond) /\
  (forall k o, r.2 !! k = Some (EvCommitOp o) ->
     r.2 !! S k = Some (EvSleep (200 * millisecond)) \/
     (r.2 !! S k = None /\ r.1 = None)) /\
  (forall k d, r.2 !! k = Some (EvSleep d) ->
     exists j o, k = S j /\ r.2 !! j = Some (EvCommitOp o)) /\
  (forall k dest m x, r.2 !! k = Some (EvCall dest m x) ->
     r.2 !! S k = Some EvLeader \/ r.2 !! S k = None).
Proof.
  intros r n. unfold r, logOpCid. fold n.
  destruct (loop_chained hostID rpcOp opType carg env n O None [])
    as (tail & Heq & Hch & Hhead).
  cbn [app] in Heq. rewrite <- Heq in Hch, Hhead. clear tail Heq.
  split; [|split; [|split; [|split; [|split; [|split; [|split]]]]]];
    [| | | | | intros k o Hk; apply (Hch k _ Hk)
            | intros k d Hk
            | intros k dest m x Hk; apply (Hch k _ Hk)].
  6: { destruct k as [|j].
       - rewrite <- head_lookup in Hk.
         destruct Hhead as [Hh|Hh]; rewrite Hh in Hk; discriminate.
       - destruct (lookup_lt_is_Some_2
                     (logOpCid_loop hostID env rpcOp opType carg n 0 None []).2
                     j) as [y Hy].
         { apply lookup_lt_Some in Hk. lia. }
         pose proof (Hch j y Hy) as Hf. rewrite Hk in Hf.
         destruct y as [| | | o |]; cbn in Hf;
           try (by destruct (Hf d));
           try (by destruct Hf as [Hf|Hf]; discriminate).
         by exists j, o. }
  - apply (loop_attempts_le hostID rpcOp opType carg env n O None []).
  - intros k Hk Hfail Hok.
    by apply (loop_first_success hostID rpcOp opType carg env n O None []).
  - intros Hn Hfail.
    destruct (loop_all_fail hostID rpcOp opType carg env n O None [] Hfail)
      as [H1 H2].
    split; [|exact H2]. rewrite H1. destruct n as [|m]; [lia|].
    cbn. by rewrite Nat.sub_0_r.
  - rewrite (loop_sleeps hostID rpcOp opType carg env n O None []).
    cbn. by rewrite Nat.sub_0_r.
  - intros d Hin.
    apply (loop_sleep_duration hostID rpcOp opType carg env) in Hin
      as [Hin|Hin]; [by apply elem_of_nil in Hin|done].
Qed.

Lemma logOpCid_retries_witness :
  (LogPin CommitRetries "A" envSecondTry (tracker.cargLocal "c1")).1 = None /\
  (LogUnpin CommitRetries "A" (fun _ => ansCallFails)
     (tracker.cargLocal "c1")).1 = Some "dial backoff".
Proof.
  split.
  - destruct (logOpCid_retries CommitRetries "A" envSecondTry
                "ConsensusLogPin" LogOpPin (tracker.cargLocal "c1"))
      as (_ & H & _).
    destruct (H 1%nat) as [H1 _]; [vm_compute; lia| |reflexivity|exact H1].
    intros j Hj. assert (j = O) as -> by lia. discriminate.
  - destruct (logOpCid_retries CommitRetries "A" (fun _ => ansCallFails)
                "ConsensusLogUnpin" LogOpUnpin (tracker.cargLocal "c1"))
      as (_ & _ & H & _).
    destruct H as [H1 _]; [vm_compute; lia|discriminate|exact H1].
Defined.

(** C7 as stated fails on the backoff: two turns whose redirection to the
    leader fails follow each other without a sleep. *)
Lemma logOpCid_no_backoff_after_redirect :
  let r := LogPin CommitRetries "A" (fun _ => ansCallFails)
             (tracker.cargLocal "c1") in
  r.1 = Some "dial backoff" /\ attempts r.2 = 2%nat /\ sleeps r.2 = 0%nat /\
  r.2 = [EvLeader;
         EvCall "B" "ConsensusLogPin" (ToSerial (tracker.cargLocal "c1"));
         EvLeader;
         EvCall "B" "ConsensusLogPin" (ToSerial (tracker.cargLocal "c1"))].
Proof. repeat split. Qed.

End ConsensusSpec.

(** ** The numpin allocator *)

Module AllocatorSpec.
Import api allocator.

Example Atoi_samples :
  Atoi "12" = Some 12 /\ Atoi "-7" = Some (-7) /\ Atoi "+3" = Some 3 /\
  Atoi "" = None /\ Atoi "+" = None /\ Atoi "1x" = None /\
  Atoi " 1" = None /\
  Atoi "9223372036854775807" = Some 9223372036854775807 /\
  Atoi "9223372036854775808" = None /\
  Atoi "-9223372036854775808" = Some (-9223372036854775808).
Proof. vm_compute. repeat split. Qed.

Lemma pinCount_spec now v n :
  pinCount now v = Some n <->
  Name v = NumpinMetricName /\ Valid v = true /\ Expired now v = false /\
  Atoi (Value v) = Some n.
Proof.
  unfold pinCount, Discard.
  destruct (String.eqb_spec (Name v) NumpinMetricName) as [Hn|Hn],
    (Valid v), (Expired now v); cbn; intuition congruence.
Qed.

Lemma loop_step now k v rest vMap ps :
  newMetricsSorter_loop now ((k, v) :: rest) vMap ps =
    match pinCount now v with
    | Some val => newMetricsSorter_loop now rest (<[k := val]> vMap) (ps ++ [k])
    | None => newMetricsSorter_loop now rest vMap ps
    end.
Proof.
  cbn [newMetricsSorter_loop]. unfold pinCount.
  by destruct (negb (String.eqb (Name v) NumpinMetricName) || Discard now v).
Qed.

Lemma loop_peers now iter : forall vMap ps k,
  k ∈ peers (newMetricsSorter_loop now iter vMap ps) <->
  k ∈ ps \/ exists v n, (k, v) ∈ iter /\ pinCount now v = Some n.
Proof.
  induction iter as [|[k0 v0] rest IH]; intros vMap ps k.
  - cbn. split; [by left|]. intros [?|(v & n & Hin & _)]; [done|].
    by apply elem_of_nil in Hin.
  - rewrite loop_step. destruct (pinCount now v0) as [val|] eqn:Hc.
    + rewrite IH, elem_of_app, list_elem_of_singleton. split.
      * intros [[?| ->]|(v & n & Hin & Hn)]; [by left| |].
        -- right. exists v0, val. split; [by left|done].
        -- right. exists v, n. split; [by right|done].
      * intros [?|(v & n & Hin & Hn)]; [by left; left|].
        apply elem_of_cons in Hin as [[= -> ->]|Hin]; [left; by right|].
        right. by exists v, n.
    + rewrite IH. split.
      * intros [?|(v & n & Hin & Hn)]; [by left|].
        right. exists v, n. split; [by right|done].
      * intros [?|(v & n & Hin & Hn)]; [by left|].
        apply elem_of_cons in Hin as [[= -> ->]|Hin]; [congruence|].
        right. by exists v, n.
Qed.

Lemma loop_NoDup now iter : forall vMap ps,
  NoDup iter.*1 -> NoDup ps -> (forall k, k ∈ ps -> k ∉ iter.*1) ->
  NoDup (peers (newMetricsSorter_loop now iter vMap ps)).
Proof.
  induction iter as [|[k0 v0] rest IH]; intros vMap ps Hnd Hps Hdisj;
    [done|].
  rewrite loop_step. cbn in Hnd. apply NoDup_cons in Hnd as [Hk0 Hnd].
  destruct (pinCount now v0).
  - apply IH; [done| |].
    + apply NoDup_app. split; [done|]. split; [|apply NoDup_singleton].
      intros k Hk ->%list_elem_of_singleton. apply (Hdisj k0 Hk). by left.
    + intros k [Hk| ->%list_elem_of_singleton]%elem_of_app; [|done].
      intros Hin. apply (Hdisj k Hk). by right.
  - apply IH; [done|done|]. intros k Hk Hin. apply (Hdisj k Hk). by right.
Qed.

Lemma loop_m_notin now iter : forall vMap ps k,
  k ∉ iter.*1 ->
  m (newMetricsSorter_loop now iter vMap ps) !! k = vMap !! k.
Proof.
  induction iter as [|[k0 v0] rest IH]; intros vMap ps k Hk; [done|].
  rewrite loop_step. cbn in Hk. apply not_elem_of_cons in Hk as [Hne Hk].
  destruct (pinCount now v0).
  - rewrite IH by done. by rewrite lookup_insert_ne.
  - by apply IH.
Qed.

Lemma loop_m now iter : forall vMap ps k v n,
  NoDup iter.*1 -> (k, v) ∈ iter -> pinCount now v = Some n ->
  m (newMetricsSorter_loop now iter vMap ps) !! k = Some n.
Proof.
  induction iter as [|[k0 v0] rest IH]; intros vMap ps k v n Hnd Hin Hc.
  - by apply elem_of_nil in Hin.
  - rewrite loop_step. cbn in Hnd. apply NoDup_cons in Hnd as [Hk0 Hnd].
    apply elem_of_cons in Hin as [[= -> ->]|Hin].
    + rewrite Hc, loop_m_notin by done. apply lookup_insert_eq.
    + destruct (pinCount now v0); by eapply IH.
Qed.

Lemma swap_head_Permutation {A} (l : list A) (j : nat) (b x : A) :
  l !! j = Some b -> b :: <[j := x]> l ≡ₚ x :: l.
Proof.
  revert j. induction l as [|y l IH]; intros j Hj; [done|].
  destruct j as [|j]; cbn in *.
  - injection Hj as ->. apply Permutation_swap.
  - etrans; [apply Permutation_swap|]. etrans; [|apply Permutation_swap].
    f_equiv. by apply IH.
Qed.

Lemma swap_Permutation {A} (l : list A) (i j : nat) (a b : A) :
  l !! i = Some a -> l !! j = Some b ->
  <[j := a]> (<[i := b]> l) ≡ₚ l.
Proof.
  revert i j. induction l as [|y l IH]; intros i j Hi Hj; [done|].
  destruct i as [|i], j as [|j]; cbn in *.
  - by injection Hi as ->.
  - injection Hi as ->. by apply swap_head_Permutation.
  - injection Hj as ->. by apply swap_head_Permutation.
  - f_equiv. by apply IH.
Qed.

Lemma StronglySorted_lookup {A} (R : relation A) (l : list A) i j x y :
  StronglySorted R l -> (i < j)%nat ->
  l !! i = Some x -> l !! j = Some y -> R x y.
Proof.
  intros Hs. revert i j. induction Hs as [|a l Hs IH Ha]; intros i j Hij Hi Hj.
  - by rewrite lookup_nil in Hi.
  - destruct j as [|j]; [lia|]. cbn in Hj. destruct i as [|i].
    + injection Hi as <-. rewrite Forall_forall in Ha. apply Ha.
      by eapply list_elem_of_lookup_2.
    + cbn in Hi. apply (IH i j); [lia|done|done].
Qed.

(** *** The sorter behind [sort.Sort]

    What [sort.Sort] does to the sorter through [Len], [Less] and [Swap]
    it does to the slice of the pin counts of the peers: [Less] answers
    as the counts compare, and [Swap] exchanges the peers and with them
    their counts. *)
Lemma runSort_counts (calls : sortCalls) : forall s p',
  runInts calls (m_at s <$> peers s) = Some p' ->
  m_at s <$> peers (runSort calls s) = p' /\
  peers (runSort calls s) ≡ₚ peers s /\
  m (runSort calls s) = m s.
Proof.
  induction calls as [|i j k IH|i j k IH]; intros s p' Hrun;
    cbn [runInts runSort] in *.
  - by injection Hrun as <-.
  - unfold IntSlice_Less in Hrun. rewrite !list_lookup_fmap in Hrun.
    destruct (peers s !! i) as [pi|] eqn:Hi; [|done].
    destruct (peers s !! j) as [pj|] eqn:Hj; [|done]. cbn in Hrun.
    assert (Hless : Less s i j = (m_at s pi <? m_at s pj))
      by (unfold Less; by rewrite Hi, Hj).
    rewrite Hless. by apply IH.
  - unfold IntSlice_Swap in Hrun. rewrite !list_lookup_fmap in Hrun.
    destruct (peers s !! i) as [pi|] eqn:Hi; [|done].
    destruct (peers s !! j) as [pj|] eqn:Hj; [|done]. cbn in Hrun.
    assert (Hswap : peers (Swap s i j) = <[j := pi]> (<[i := pj]> (peers s)))
      by (unfold Swap; cbn; by rewrite Hi, Hj).
    destruct (IH (Swap s i j) p') as (H1 & H2 & H3).
    { change (m_at (Swap s i j)) with (m_at s).
      by rewrite Hswap, !list_fmap_insert. }
    split; [exact H1|]. split; [|exact H3].
    rewrite H2, Hswap. by apply swap_Permutation.
Qed.

Section Allocate.

(** [sort.Sort] and the promise of the library: run on a slice of ints,
    of any length, its calls stay within the slice and leave it in
    ascending order. *)
Variable sort_Sort : nat -> sortCalls.
Hypothesis sort_Sort_ints : forall p : list Z,
  exists p', runInts (sort_Sort (length p)) p = Some p' /\
    forall i j x y, (i < j)%nat -> p' !! i = Some x -> p' !! j = Some y ->
      x <= y.

(** C8.  For every map of candidates, enumerated in any order, [Allocate]
    returns no error and a list without repetition that holds exactly the
    candidates whose metric is named "numpin", is valid, has not expired
    and carries a value [Atoi] parses; the list is in ascending order of
    the parsed pin counts.  A candidate whose metric is expired, invalid,
    named otherwise or not a number is not in the list. *)
Theorem Allocate_spec (now : Z) (c : string)
    (current candidates : gmap string Metric)
    (iter : list (string * Metric)) :
  iter ≡ₚ map_to_list candidates ->
  let r := Allocate sort_Sort now c current iter in
  r.2 = None /\
  NoDup r.1 /\
  (forall p, p ∈ r.1 <->
     exists v n, candidates !! p = Some v /\
       Name v = NumpinMetricName /\ Valid v = true /\
       Expired now v = false /\ Atoi (Value v) = Some n) /\
  (forall i j pi pj, (i < j)%nat ->
     r.1 !! i = Some pi -> r.1 !! j = Some pj ->
     pinsOf candidates pi <= pinsOf candidates pj).
Proof.
  intros Hperm r.
  assert (Hiter : forall k v, (k, v) ∈ iter <-> candidates !! k = Some v).
  { intros k v. rewrite Hperm. apply elem_of_map_to_list. }
  assert (Hnd : NoDup iter.*1).
  { rewrite Hperm. apply NoDup_fst_map_to_list. }
  set (s0 := newMetricsSorter now iter).
  set (s1 := runSort (sort_Sort (Len s0)) s0).
  assert (Hr : r.1 = peers s1) by done.
  destruct (sort_Sort_ints (m_at s0 <$> peers s0)) as (p' & Hrun & Hasc).
  rewrite length_fmap in Hrun. fold (Len s0) in Hrun.
  destruct (runSort_counts _ s0 p' Hrun) as (Hcounts & Hpeers & Hm).
  fold s1 in Hcounts, Hpeers, Hm.
  assert (Hmem : forall p, p ∈ r.1 <->
            exists v n, candidates !! p = Some v /\ pinCount now v = Some n).
  { intros p. rewrite Hr, Hpeers. unfold s0, newMetricsSorter.
    rewrite loop_peers. split.
    - intros [Hin|(v & n & Hin & Hc)]; [by apply elem_of_nil in Hin|].
      exists v, n. split; [by apply Hiter|done].
    - intros (v & n & Hin & Hc). right. exists v, n.
      split; [by apply Hiter|done]. }
  assert (Hcount : forall p, p ∈ r.1 -> m_at s0 p = pinsOf candidates p).
  { intros p (v & n & Hv & Hc)%Hmem. unfold m_at, pinsOf.
    unfold s0, newMetricsSorter.
    erewrite loop_m; [|done|by apply Hiter|done].
    rewrite Hv. cbn. apply pinCount_spec in Hc as (_ & _ & _ & ->). done. }
  split; [done|]. split; [|split].
  - rewrite Hr, Hpeers. unfold s0, newMetricsSorter.
    apply loop_NoDup; [done|apply NoDup_nil_2|].
    intros k Hk. by apply elem_of_nil in Hk.
  - intros p. rewrite Hmem. split.
    + intros (v & n & Hv & Hc). exists v, n. split; [done|].
      by apply pinCount_spec.
    + intros (v & n & Hv & Hc). exists v, n. split; [done|].
      by apply pinCount_spec.
  - intros i j pi pj Hij Hi Hj.
    rewrite <- !Hcount by (by eapply list_elem_of_lookup_2).
    rewrite Hr in Hi, Hj.
    apply (Hasc i j _ _ Hij);
      rewrite <- Hcounts, list_lookup_fmap; [by rewrite Hi|by rewrite Hj].
Qed.

End Allocate.

(** *** The insertion sort of Go's library keeps the promise *)

Lemma ints_adjacent (pre post : list Z) (y x : Z) :
  (pre ++ y :: x :: post) !! length pre = Some y /\
  (pre ++ y :: x :: post) !! S (length pre) = Some x.
Proof.
  split; [apply list_lookup_middle; done|].
  rewrite lookup_app_r by lia.
  by replace (S (length pre) - length pre)%nat with 1%nat by lia.
Qed.

(** The inner loop moves the int behind a sorted prefix to its place in
    the prefix. *)
Lemma sinkCalls_inserts (pre : list Z) : forall k x post,
  StronglySorted Z.le pre ->
  exists pre',
    runInts (sinkCalls (length pre) k) (pre ++ x :: post)
      = runInts k (pre' ++ post) /\
    pre' ≡ₚ pre ++ [x] /\ StronglySorted Z.le pre'.
Proof.
  induction pre as [|y pre IH] using rev_ind; intros k x post Hsorted.
  - exists [x]. cbn. split; [done|]. split; [done|]. repeat constructor.
  - rewrite <- app_assoc. cbn [app].
    rewrite length_app. cbn [length]. rewrite Nat.add_1_r.
    cbn [sinkCalls runInts]. unfold IntSlice_Less.
    destruct (ints_adjacent pre post y x) as [Hy Hx]. rewrite Hx, Hy.
    apply StronglySorted_app in Hsorted as (Hle & Hpre & _).
    destruct (Z.ltb_spec x y) as [Hlt|Hge].
    + cbn [runInts]. unfold IntSlice_Swap. rewrite Hx, Hy.
      rewrite (insert_app_r_alt pre _ (S (length pre))) by lia.
      replace (S (length pre) - length pre)%nat with 1%nat by lia.
      rewrite (insert_app_r_alt pre _ (length pre)) by lia.
      rewrite Nat.sub_diag. cbn [insert list_insert].
      destruct (IH k x (y :: post) Hpre) as (pre' & H1 & H2 & H3).
      exists (pre' ++ [y]). rewrite <- app_assoc. cbn [app].
      split; [exact H1|]. split.
      * rewrite H2, <- !app_assoc. cbn. f_equiv. apply Permutation_swap.
      * apply StronglySorted_app. split; [|split; [done|repeat constructor]].
        intros a b Ha ->%list_elem_of_singleton.
        rewrite H2 in Ha.
        apply elem_of_app in Ha as [Ha| ->%list_elem_of_singleton]; [|lia].
        apply Hle; [done|]. by apply list_elem_of_singleton.
    + exists ((pre ++ [y]) ++ [x]). rewrite <- !app_assoc. cbn [app].
      split; [done|]. split; [done|].
      apply StronglySorted_app. split; [|split; [exact Hpre|]].
      * intros a b Ha Hb. rewrite !elem_of_cons, elem_of_nil in Hb.
        destruct Hb as [-> |[-> |[]]].
        -- apply Hle; [done|]. by apply list_elem_of_singleton.
        -- assert (a <= y)
             by (apply Hle; [done|by apply list_elem_of_singleton]).
           lia.
      * repeat constructor. exact Hge.
Qed.

Lemma insertionCalls_from_sorts n : forall pre post,
  length post = n -> StronglySorted Z.le pre ->
  exists p', runInts (insertionCalls_from (length pre) n) (pre ++ post)
               = Some p' /\
    p' ≡ₚ pre ++ post /\ StronglySorted Z.le p'.
Proof.
  induction n as [|n IH]; intros pre post Hlen Hsorted.
  - apply nil_length_inv in Hlen as ->. rewrite app_nil_r.
    by exists pre.
  - destruct post as [|x post]; [done|]. injection Hlen as Hlen.
    cbn [insertionCalls_from].
    destruct (sinkCalls_inserts pre (insertionCalls_from (S (length pre)) n)
                x post Hsorted) as (pre' & H1 & H2 & H3).
    assert (Hl : length pre' = S (length pre)).
    { rewrite H2, length_app. cbn. lia. }
    rewrite H1, <- Hl.
    destruct (IH pre' post Hlen H3) as (p' & I1 & I2 & I3).
    exists p'. split; [done|]. split; [|done].
    rewrite I2, H2, <- app_assoc. done.
Qed.

Lemma insertionCalls_sorts (p : list Z) :
  exists p', runInts (insertionCalls (length p)) p = Some p' /\
    forall i j x y, (i < j)%nat -> p' !! i = Some x -> p' !! j = Some y ->
      x <= y.
Proof.
  assert (H : exists p', runInts (insertionCalls (length p)) p = Some p' /\
                p' ≡ₚ p /\ StronglySorted Z.le p').
  { unfold insertionCalls. destruct p as [|x rest].
    - exists []. repeat split; constructor.
    - cbn [length]. rewrite Nat.sub_succ, Nat.sub_0_r.
      apply (insertionCalls_from_sorts _ [x] rest); [done|].
      repeat constructor. }
  destruct H as (p' & Hrun & _ & Hsorted). exists p'. split; [done|].
  intros i j x y. by apply StronglySorted_lookup.
Qed.

Lemma Allocate_spec_witness :
  (Allocate insertionCalls 100 "cidX" ∅ (map_to_list sampleCandidates)).2
    = None /\
  NoDup (Allocate insertionCalls 100 "cidX" ∅
           (map_to_list sampleCandidates)).1.
Proof.
  destruct (Allocate_spec insertionCalls insertionCalls_sorts
              100 "cidX" ∅ sampleCandidates
              (map_to_list sampleCandidates) (reflexivity _))
    as (H1 & H2 & _).
  by split.
Defined.

(** The sample candidates: the two eligible peers, fewest pins first. *)
Example Allocate_sample :
  Allocate insertionCalls 100 "cidX" ∅ (map_to_list sampleCandidates)
    = (["P2"; "P1"], None).
Proof. vm_compute. reflexivity. Qed.

End AllocatorSpec.

(** * Further properties *)

(** ** The pin tracker: queues, workers and reconciliation *)

Module TrackerMore.
Import api tracker TrackerSpec.

#[local] Arguments syncStatus : simpl never.
#[local] Arguments unsafeSet : simpl never.
#[local] Arguments unsafeSetError : simpl never.
#[local] Arguments unsafeGet : simpl never.

Lemma try_send_room ch x :
  (length (buf ch) < cap ch)%nat ->
  try_send ch x = Some {| buf := buf ch ++ [x]; cap := cap ch |}.
Proof.
  intros H. unfold try_send.
  destruct (Nat.ltb_spec (length (buf ch)) (cap ch)); [done|lia].
Qed.

(** X1.  [Track] of a CidArg for the local peer, with room in the pin
    queue: the entry becomes Pinning with a fresh timestamp and no error,
    the CidArg goes to the tail of the pin queue, no error is returned,
    and the unpin queue, the log of calls and all other entries are as
    before. *)
Theorem Track_local_enqueues mpt now d (c : CidArg) :
  isRemote mpt c = false ->
  (length (buf (pinCh mpt)) < cap (pinCh mpt))%nat ->
  (Track mpt now d c).2 = None /\
  status (Track mpt now d c).1 !! carg_Cid c =
    Some {| Cid := carg_Cid c; Peer := peerID mpt;
            Status := TrackerStatusPinning; TS := now; Error := "" |} /\
  buf (pinCh (Track mpt now d c).1) = buf (pinCh mpt) ++ [c] /\
  cap (pinCh (Track mpt now d c).1) = cap (pinCh mpt) /\
  unpinCh (Track mpt now d c).1 = unpinCh mpt /\
  rpcLog (Track mpt now d c).1 = rpcLog mpt /\
  forall k, k <> carg_Cid c ->
    status (Track mpt now d c).1 !! k = status mpt !! k.
Proof.
  intros Hr Hroom. unfold Track. rewrite Hr. unfold set.
  destruct (unsafeSet_chans mpt now (carg_Cid c) TrackerStatusPinning)
    as (Hp & Hu & Hl).
  rewrite Hp, (try_send_room _ _ Hroom). cbn [fst snd].
  cbn [status pinCh unpinCh rpcLog with_pinCh buf cap].
  rewrite Hu, Hl, unsafeSet_lookup_eq by done.
  repeat split. intros k Hk. by apply unsafeSet_lookup_ne.
Qed.

Lemma Track_local_enqueues_witness :
  buf (pinCh (Track (NewMapPin "A" 2) 3 daemonHealthy (cargLocal "c1")).1)
    = [cargLocal "c1"].
Proof.
  destruct (Track_local_enqueues (NewMapPin "A" 2) 3 daemonHealthy
              (cargLocal "c1")) as (_ & _ & H & _);
    [reflexivity|vm_compute; lia|exact H].
Defined.

Lemma unpin_spec mpt now d (c : CidArg) :
  pinCh (unpin mpt now d c).1 = pinCh mpt /\
  unpinCh (unpin mpt now d c).1 = unpinCh mpt /\
  rpcLog (unpin mpt now d c).1 = rpcLog mpt ++ [CallIPFSUnpin (carg_Cid c)] /\
  peerID (unpin mpt now d c).1 = peerID mpt /\
  (unpin mpt now d c).2 = IPFSUnpin d (carg_Cid c) /\
  status (unpin mpt now d c).1 !! carg_Cid c =
    match IPFSUnpin d (carg_Cid c) with
    | None => None
    | Some err =>
        Some (markError (peerID mpt) now err (carg_Cid c)
                (get mpt now (carg_Cid c)))
    end /\
  forall k, k <> carg_Cid c ->
    status (unpin mpt now d c).1 !! k = status mpt !! k.
Proof.
  unfold unpin, set, setError, get.
  destruct (IPFSUnpin d (carg_Cid c)) as [err|]; cbn [fst snd].
  - rewrite unsafeSetError_logged.
    destruct (unsafeSetError_chans mpt now (carg_Cid c) err)
      as (E1 & E2 & E3).
    cbn [pinCh unpinCh rpcLog peerID status logged].
    rewrite E1, E2, E3, unsafeSetError_peerID, unsafeSetError_lookup_eq.
    repeat split. intros k Hk. by apply unsafeSetError_lookup_ne.
  - rewrite unsafeSet_logged.
    destruct (unsafeSet_chans mpt now (carg_Cid c) TrackerStatusUnpinned)
      as (E1 & E2 & E3).
    cbn [pinCh unpinCh rpcLog peerID status logged].
    rewrite E1, E2, E3, unsafeSet_peerID, unsafeSet_Unpinned.
    repeat split. intros k Hk. by apply unsafeSet_lookup_ne.
Qed.

Lemma pin_spec mpt now d (c : CidArg) :
  pinCh (pin mpt now d c).1 = pinCh mpt /\
  unpinCh (pin mpt now d c).1 = unpinCh mpt /\
  rpcLog (pin mpt now d c).1 = rpcLog mpt ++ [CallIPFSPin (carg_Cid c)] /\
  peerID (pin mpt now d c).1 = peerID mpt /\
  (pin mpt now d c).2 = IPFSPin d (carg_Cid c) /\
  status (pin mpt now d c).1 !! carg_Cid c =
    Some {| Cid := carg_Cid c; Peer := peerID mpt;
            Status := match IPFSPin d (carg_Cid c) with
                      | None => TrackerStatusPinned
                      | Some _ => TrackerStatusPinError
                      end;
            TS := now;
            Error := default "" (IPFSPin d (carg_Cid c)) |} /\
  forall k, k <> carg_Cid c ->
    status (pin mpt now d c).1 !! k = status mpt !! k.
Proof.
  unfold pin, set, setError. rewrite unsafeSet_logged.
  assert (Hl := unsafeSet_lookup_eq mpt now (carg_Cid c)
                  TrackerStatusPinning ltac:(discriminate)).
  destruct (unsafeSet_chans mpt now (carg_Cid c) TrackerStatusPinning)
    as (E4 & E5 & E6).
  destruct (IPFSPin d (carg_Cid c)) as [err|]; cbn [fst snd].
  - rewrite unsafeSetError_logged.
    destruct (unsafeSetError_chans
                (unsafeSet mpt now (carg_Cid c) TrackerStatusPinning) now
                (carg_Cid c) err) as (E1 & E2 & E3).
    cbn [pinCh unpinCh rpcLog peerID status logged].
    rewrite E1, E2, E3, E4, E5, E6, unsafeSetError_peerID, unsafeSet_peerID.
    rewrite unsafeSetError_lookup_eq, (unsafeGet_Some _ _ _ _ Hl).
    rewrite unsafeSet_peerID.
    repeat split. intros k Hk.
    rewrite unsafeSetError_lookup_ne by done. by apply unsafeSet_lookup_ne.
  - destruct (unsafeSet_chans
                (unsafeSet mpt now (carg_Cid c) TrackerStatusPinning) now
                (carg_Cid c) TrackerStatusPinned) as (E1 & E2 & E3).
    cbn [pinCh unpinCh rpcLog peerID status logged].
    rewrite E1, E2, E3, E4, E5, E6, !unsafeSet_peerID.
    rewrite unsafeSet_lookup_eq by done. rewrite unsafeSet_peerID.
    repeat split. intros k Hk.
    rewrite unsafeSet_lookup_ne by done. by apply unsafeSet_lookup_ne.
Qed.

(** X2.  [Track] of a CidArg that is allocated to other peers never fails
    and never touches the queues: the entry becomes Remote, all other
    entries stay, and the daemon is asked to unpin exactly when the entry
    was Pinned before. *)
Theorem Track_remote mpt now d (c : CidArg) :
  isRemote mpt c = true ->
  (Track mpt now d c).2 = None /\
  status (Track mpt now d c).1 !! carg_Cid c =
    Some {| Cid := carg_Cid c; Peer := peerID mpt;
            Status := TrackerStatusRemote; TS := now; Error := "" |} /\
  pinCh (Track mpt now d c).1 = pinCh mpt /\
  unpinCh (Track mpt now d c).1 = unpinCh mpt /\
  rpcLog (Track mpt now d c).1 =
    rpcLog mpt ++
    (if decide (Status (get mpt now (carg_Cid c)) = TrackerStatusPinned)
     then [CallIPFSUnpin (carg_Cid c)] else []) /\
  forall k, k <> carg_Cid c ->
    status (Track mpt now d c).1 !! k = status mpt !! k.
Proof.
  intros Hr. unfold Track. rewrite Hr. cbn [fst snd]. unfold set.
  destruct (unpin_spec mpt now d c) as (U1 & U2 & U3 & U4 & _ & _ & U7).
  case_decide as Hs.
  - destruct (unsafeSet_chans (unpin mpt now d c).1 now (carg_Cid c)
                TrackerStatusRemote) as (E1 & E2 & E3).
    rewrite E1, E2, E3, U1, U2, U3, unsafeSet_lookup_eq, U4 by done.
    repeat split. intros k Hk.
    rewrite unsafeSet_lookup_ne by done. by apply U7.
  - destruct (unsafeSet_chans mpt now (carg_Cid c) TrackerStatusRemote)
      as (E1 & E2 & E3).
    rewrite E1, E2, E3, unsafeSet_lookup_eq, app_nil_r by done.
    repeat split. intros k Hk. by apply unsafeSet_lookup_ne.
Qed.

Lemma Track_remote_witness :
  Status <$> status (Track trackerFull 7 daemonDown
                       (cargElsewhere "c9")).1 !! "c9"
    = Some TrackerStatusRemote.
Proof.
  destruct (Track_remote trackerFull 7 daemonDown (cargElsewhere "c9"))
    as (_ & H & _); [reflexivity|].
  cbn [carg_Cid cargElsewhere] in H. by rewrite H.
Defined.

(** X3.  A turn of the pin worker takes the oldest item of the pin queue
    and leaves the others in order; it sends one IPFSPin for it and
    records Pinned when the daemon succeeds, PinError with the daemon's
    error when it fails.  With an empty queue there is no turn. *)
Theorem pinWorker_turn mpt now d :
  (buf (pinCh mpt) = [] -> pinWorker mpt now d = None) /\
  (forall c rest, buf (pinCh mpt) = c :: rest ->
   exists r, pinWorker mpt now d = Some r /\
     buf (pinCh r) = rest /\ cap (pinCh r) = cap (pinCh mpt) /\
     unpinCh r = unpinCh mpt /\
     rpcLog r = rpcLog mpt ++ [CallIPFSPin (carg_Cid c)] /\
     status r !! carg_Cid c =
       Some {| Cid := carg_Cid c; Peer := peerID mpt;
               Status := match IPFSPin d (carg_Cid c) with
                         | None => TrackerStatusPinned
                         | Some _ => TrackerStatusPinError
                         end;
               TS := now;
               Error := default "" (IPFSPin d (carg_Cid c)) |} /\
     forall k, k <> carg_Cid c -> status r !! k = status mpt !! k).
Proof.
  unfold pinWorker, recv. split.
  - by intros ->.
  - intros c rest ->.
    set (m := with_pinCh {| buf := rest; cap := cap (pinCh mpt) |} mpt).
    destruct (pin_spec m now d c) as (P1 & P2 & P3 & P4 & _ & P6 & P7).
    exists (pin m now d c).1. rewrite P1, P2, P3, P6. by repeat split.
Qed.

Lemma pinWorker_turn_witness :
  exists r,
    pinWorker (Track (NewMapPin "A" 2) 3 daemonHealthy (cargLocal "c1")).1
      4 daemonHealthy = Some r /\ buf (pinCh r) = [].
Proof.
  destruct (pinWorker_turn
              (Track (NewMapPin "A" 2) 3 daemonHealthy (cargLocal "c1")).1
              4 daemonHealthy) as [_ H].
  destruct (H (cargLocal "c1") [] eq_refl) as (r & H1 & H2 & _).
  by exists r.
Defined.

(** X4.  A turn of the unpin worker takes the oldest item of the unpin
    queue and sends one IPFSUnpin for it.  When the daemon succeeds the
    entry is deleted.  When it fails, the entry is marked with the
    daemon's error according to what the entry is at that moment (a CID
    without entry gets an UnpinError entry, a Remote entry stays). *)
Theorem unpinWorker_turn mpt now d :
  (buf (unpinCh mpt) = [] -> unpinWorker mpt now d = None) /\
  (forall c rest, buf (unpinCh mpt) = c :: rest ->
   exists r, unpinWorker mpt now d = Some r /\
     buf (unpinCh r) = rest /\ cap (unpinCh r) = cap (unpinCh mpt) /\
     pinCh r = pinCh mpt /\
     rpcLog r = rpcLog mpt ++ [CallIPFSUnpin (carg_Cid c)] /\
     status r !! carg_Cid c =
       match IPFSUnpin d (carg_Cid c) with
       | None => None
       | Some err =>
           Some (markError (peerID mpt) now err (carg_Cid c)
                   (get mpt now (carg_Cid c)))
       end /\
     forall k, k <> carg_Cid c -> status r !! k = status mpt !! k).
Proof.
  unfold unpinWorker, recv. split.
  - by intros ->.
  - intros c rest ->.
    set (m := with_unpinCh {| buf := rest; cap := cap (unpinCh mpt) |} mpt).
    destruct (unpin_spec m now d c) as (P1 & P2 & P3 & P4 & _ & P6 & P7).
    exists (unpin m now d c).1. rewrite P1, P2, P3, P6. by repeat split.
Qed.

Lemma unpinWorker_turn_witness :
  exists r, unpinWorker trackerFull 4 daemonHealthy = Some r /\
            status r !! "c0" = None.
Proof.
  destruct (unpinWorker_turn trackerFull 4 daemonHealthy) as [_ H].
  destruct (H (CidArgCid "c0") [] eq_refl) as (r & H1 & _ & _ & _ & _ & H2 & _).
  by exists r.
Defined.

(** X5.  When the daemon cannot be asked, [Sync] returns the error and
    the entry it has marked with it: PinError for Pinned, Pinning and
    PinError, UnpinError for Unpinning and UnpinError and also for a CID
    that had no entry, which gets one this way.  Other entries and the
    queues are not touched. *)
Theorem Sync_unreachable mpt now d c err :
  IPFSPinLsCid d c = inr err ->
  (Sync mpt now d c).2 =
    (markError (peerID mpt) now err c (get mpt now c), Some err) /\
  status (Sync mpt now d c).1 !! c =
    Some (markError (peerID mpt) now err c (get mpt now c)) /\
  (status mpt !! c = None ->
   status (Sync mpt now d c).1 !! c =
     Some {| Cid := c; Peer := peerID mpt;
             Status := TrackerStatusUnpinError; TS := now; Error := err |}) /\
  (forall k, k <> c -> status (Sync mpt now d c).1 !! k = status mpt !! k) /\
  pinCh (Sync mpt now d c).1 = pinCh mpt /\
  unpinCh (Sync mpt now d c).1 = unpinCh mpt /\
  rpcLog (Sync mpt now d c).1 = rpcLog mpt ++ [CallIPFSPinLsCid c].
Proof.
  intros Hd. rewrite (Sync_err _ _ _ _ _ Hd). unfold setError, get.
  cbn [fst snd status pinCh unpinCh rpcLog logged].
  destruct (unsafeSetError_chans mpt now c err) as (E1 & E2 & E3).
  rewrite E1, E2, E3, unsafeSetError_lookup_eq.
  erewrite unsafeGet_Some by apply unsafeSetError_lookup_eq.
  repeat split.
  - intros Hc. by rewrite (unsafeGet_None _ _ _ Hc).
  - intros k Hk. by apply unsafeSetError_lookup_ne.
Qed.

Lemma Sync_unreachable_witness :
  Status <$> status (Sync (NewMapPin "A" 2) 5 daemonDown "cX").1 !! "cX"
    = Some TrackerStatusUnpinError.
Proof.
  destruct (Sync_unreachable (NewMapPin "A" 2) 5 daemonDown "cX"
              "connection refused" eq_refl) as (_ & _ & H & _).
  by rewrite H.
Defined.

Lemma Recover_chans mpt now d c :
  pinCh (Recover mpt now d c).1 = pinCh mpt /\
  unpinCh (Recover mpt now d c).1 = unpinCh mpt.
Proof.
  unfold Recover. destruct (Status (get mpt now c)); try done.
  - destruct (pin_spec mpt now d (CidArgCid c)) as (P1 & P2 & _).
    by destruct (pin mpt now d (CidArgCid c)).
  - destruct (unpin_spec mpt now d (CidArgCid c)) as (P1 & P2 & _).
    by destruct (unpin mpt now d (CidArgCid c)).
Qed.

(** X6.  [Recover] of an entry in PinError (UnpinError) whose daemon call
    fails again returns the daemon's error and leaves the entry in
    PinError (UnpinError) with that error and a fresh timestamp.  The
    queues are as before. *)
Theorem Recover_fails_again mpt now d c err :
  (Status (get mpt now c) = TrackerStatusPinError ->
   IPFSPin d c = Some err ->
   Recover mpt now d c =
     ((Recover mpt now d c).1,
      ({| Cid := c; Peer := peerID mpt; Status := TrackerStatusPinError;
          TS := now; Error := err |}, Some err)) /\
   status (Recover mpt now d c).1 !! c =
     Some {| Cid := c; Peer := peerID mpt; Status := TrackerStatusPinError;
             TS := now; Error := err |} /\
   pinCh (Recover mpt now d c).1 = pinCh mpt /\
   unpinCh (Recover mpt now d c).1 = unpinCh mpt) /\
  (Status (get mpt now c) = TrackerStatusUnpinError ->
   IPFSUnpin d c = Some err ->
   Recover mpt now d c =
     ((Recover mpt now d c).1,
      ({| Cid := c; Peer := peerID mpt; Status := TrackerStatusUnpinError;
          TS := now; Error := err |}, Some err)) /\
   status (Recover mpt now d c).1 !! c =
     Some {| Cid := c; Peer := peerID mpt; Status := TrackerStatusUnpinError;
             TS := now; Error := err |} /\
   pinCh (Recover mpt now d c).1 = pinCh mpt /\
   unpinCh (Recover mpt now d c).1 = unpinCh mpt).
Proof.
  destruct (Recover_chans mpt now d c) as [Hpc Huc].
  split.
  - intros Hs Hd.
    match goal with |- ?A /\ ?B /\ _ =>
      cut (A /\ B); [intros [? ?]; by repeat split|] end.
    clear Hpc Huc.
    unfold Recover. rewrite Hs.
    destruct (pin_spec mpt now d (CidArgCid c))
      as (_ & _ & _ & P4 & P5 & P6 & _).
    cbn [carg_Cid CidArgCid] in *. rewrite Hd in *.
    destruct (pin mpt now d (CidArgCid c)) as [m e]. cbn [fst snd] in *.
    subst e. split; [|exact P6]. unfold get.
    by rewrite (unsafeGet_Some _ _ _ _ P6).
  - intros Hs Hd.
    match goal with |- ?A /\ ?B /\ _ =>
      cut (A /\ B); [intros [? ?]; by repeat split|] end.
    clear Hpc Huc.
    unfold Recover. rewrite Hs.
    destruct (unpin_spec mpt now d (CidArgCid c))
      as (_ & _ & _ & P4 & P5 & P6 & _).
    cbn [carg_Cid CidArgCid] in *. rewrite Hd in *.
    unfold markError in P6. rewrite Hs in P6.
    destruct (unpin mpt now d (CidArgCid c)) as [m e]. cbn [fst snd] in *.
    subst e. split; [|exact P6]. unfold get.
    by rewrite (unsafeGet_Some _ _ _ _ P6).
Qed.

Lemma Recover_fails_again_witness :
  (Recover (Track trackerFull 7 daemonHealthy (cargLocal "c3")).1 9
     daemonDown "c3").2.2 = Some "connection refused".
Proof.
  destruct (Recover_fails_again
              (Track trackerFull 7 daemonHealthy (cargLocal "c3")).1 9
              daemonDown "c3" "connection refused") as [H _].
  destruct H as [H _]; [reflexivity|reflexivity|]. by rewrite H.
Defined.

(** *** The queues stay within their size *)

Lemma syncStatus_chans mpt now c ips :
  pinCh (syncStatus mpt now c ips).1 = pinCh mpt /\
  unpinCh (syncStatus mpt now c ips).1 = unpinCh mpt /\
  rpcLog (syncStatus mpt now c ips).1 = rpcLog mpt.
Proof.
  unfold syncStatus, set, setError. cbn [fst].
  destruct (IsPinned ips), (Status (get mpt now c)); repeat case_match;
    try done; try apply unsafeSet_chans; apply unsafeSetError_chans.
Qed.

Lemma markAll_chans now err keys : forall mpt pInfos,
  pinCh (markAll mpt now err keys pInfos).1 = pinCh mpt /\
  unpinCh (markAll mpt now err keys pInfos).1 = unpinCh mpt.
Proof.
  induction keys as [|k rest IH]; intros mpt pInfos; [done|].
  cbn [markAll].
  destruct (IH (unsafeSetError mpt now k err)
              (pInfos ++ [unsafeGet (unsafeSetError mpt now k err) now k]))
    as [-> ->].
  destruct (unsafeSetError_chans mpt now k err) as (-> & -> & _). done.
Qed.

Lemma syncEach_chans now ipsMap snapshot : forall mpt pInfos,
  pinCh (syncEach mpt now ipsMap snapshot pInfos).1 = pinCh mpt /\
  unpinCh (syncEach mpt now ipsMap snapshot pInfos).1 = unpinCh mpt.
Proof.
  induction snapshot as [|p rest IH]; intros mpt pInfos; [done|].
  rewrite syncEach_step. cbn zeta.
  destruct (IH (syncStatus mpt now (Cid p) (ipsOf ipsMap (Cid p))).1
              (if reported p
                    (syncStatus mpt now (Cid p) (ipsOf ipsMap (Cid p))).2
               then pInfos ++
                    [(syncStatus mpt now (Cid p) (ipsOf ipsMap (Cid p))).2]
               else pInfos)) as [-> ->].
  destruct (syncStatus_chans mpt now (Cid p) (ipsOf ipsMap (Cid p)))
    as (-> & -> & _). done.
Qed.

Lemma Sync_chans mpt now d c :
  pinCh (Sync mpt now d c).1 = pinCh mpt /\
  unpinCh (Sync mpt now d c).1 = unpinCh mpt.
Proof.
  destruct (IPFSPinLsCid d c) as [ips|err] eqn:Hd.
  - rewrite (Sync_ok _ _ _ _ _ Hd). cbn [fst pinCh unpinCh logged].
    by destruct (syncStatus_chans mpt now c ips) as (-> & -> & _).
  - rewrite (Sync_err _ _ _ _ _ Hd). unfold setError.
    cbn [fst pinCh unpinCh logged].
    by destruct (unsafeSetError_chans mpt now c err) as (-> & -> & _).
Qed.

Lemma SyncAll_chans mpt now d iter :
  pinCh (SyncAll mpt now d iter).1 = pinCh mpt /\
  unpinCh (SyncAll mpt now d iter).1 = unpinCh mpt.
Proof.
  unfold SyncAll. destruct (IPFSPinLs d "recursive") as [ipsMap|err].
  - pose proof (syncEach_chans now ipsMap (StatusAll iter)
                  (logged (CallIPFSPinLs "recursive") mpt) []) as H.
    by destruct (syncEach _ now ipsMap _ []).
  - pose proof (markAll_chans now err iter.*1
                  (logged (CallIPFSPinLs "recursive") mpt) []) as H.
    by destruct (markAll _ now err _ []).
Qed.

Lemma queues_ok_same q mpt mpt' :
  pinCh mpt' = pinCh mpt -> unpinCh mpt' = unpinCh mpt ->
  queues_ok q mpt -> queues_ok q mpt'.
Proof. unfold queues_ok. by intros -> ->. Qed.

Lemma length_try_send ch x ch' :
  try_send ch x = Some ch' ->
  cap ch' = cap ch /\ (length (buf ch') <= cap ch)%nat.
Proof.
  unfold try_send.
  destruct (Nat.ltb_spec (length (buf ch)) (cap ch)); [|done].
  intros [= <-]. cbn. rewrite length_app. cbn. split; [done|lia].
Qed.

Lemma queues_ok_step q mpt mpt' :
  step mpt mpt' -> queues_ok q mpt -> queues_ok q mpt'.
Proof.
  destruct 1 as [mpt now d c|mpt now c|mpt now d c|mpt now d iter|mpt now d c
                |mpt now d mpt' Hw|mpt now d mpt' Hw|mpt now c s|mpt now c err];
    intros Hq.
  - destruct (isRemote mpt c) eqn:Hr.
    + destruct (Track_remote mpt now d c Hr) as (_ & _ & H1 & H2 & _).
      by apply (queues_ok_same q mpt).
    + unfold Track. rewrite Hr. unfold set, setError.
      destruct (unsafeSet_chans mpt now (carg_Cid c) TrackerStatusPinning)
        as (E1 & E2 & _).
      destruct (try_send _ c) as [ch|] eqn:Hsend; cbn [fst].
      * rewrite E1 in Hsend. apply length_try_send in Hsend as [Hc Hl].
        destruct Hq as (Q1 & Q2 & Q3 & Q4). unfold queues_ok. cbn.
        rewrite E2. repeat split; congruence.
      * destruct (unsafeSetError_chans
                    (unsafeSet mpt now (carg_Cid c) TrackerStatusPinning)
                    now (carg_Cid c) ErrPinQueueFull) as (F1 & F2 & _).
        apply (queues_ok_same q mpt); [congruence|congruence|done].
  - unfold Untrack, set, setError.
    destruct (unsafeSet_chans mpt now c TrackerStatusUnpinning)
      as (E1 & E2 & _).
    destruct (try_send _ _) as [ch|] eqn:Hsend; cbn [fst].
    + rewrite E2 in Hsend. apply length_try_send in Hsend as [Hc Hl].
      destruct Hq as (Q1 & Q2 & Q3 & Q4). unfold queues_ok. cbn.
      rewrite E1. repeat split; congruence.
    + destruct (unsafeSetError_chans
                  (unsafeSet mpt now c TrackerStatusUnpinning)
                  now c ErrUnpinQueueFull) as (F1 & F2 & _).
      apply (queues_ok_same q mpt); [congruence|congruence|done].
  - destruct (Sync_chans mpt now d c). by apply (queues_ok_same q mpt).
  - destruct (SyncAll_chans mpt now d iter). by apply (queues_ok_same q mpt).
  - destruct (Recover_chans mpt now d c). by apply (queues_ok_same q mpt).
  - destruct (buf (pinCh mpt)) as [|c rest] eqn:Hb.
    + destruct (pinWorker_turn mpt now d) as [H _]. rewrite (H Hb) in Hw.
      discriminate.
    + destruct (pinWorker_turn mpt now d) as [_ H].
      destruct (H c rest Hb) as (r & Hr & H1 & H2 & H3 & _).
      rewrite Hr in Hw. injection Hw as <-.
      destruct Hq as (Q1 & Q2 & Q3 & Q4). unfold queues_ok.
      rewrite H1, H2, H3. rewrite Hb in Q3. cbn in Q3.
      repeat split; try done. lia.
  - destruct (buf (unpinCh mpt)) as [|c rest] eqn:Hb.
    + destruct (unpinWorker_turn mpt now d) as [H _]. rewrite (H Hb) in Hw.
      discriminate.
    + destruct (unpinWorker_turn mpt now d) as [_ H].
      destruct (H c rest Hb) as (r & Hr & H1 & H2 & H3 & _).
      rewrite Hr in Hw. injection Hw as <-.
      destruct Hq as (Q1 & Q2 & Q3 & Q4). unfold queues_ok.
      rewrite H1, H2, H3. rewrite Hb in Q4. cbn in Q4.
      repeat split; try done. lia.
  - destruct (unsafeSet_chans mpt now c s) as (E1 & E2 & _).
    by apply (queues_ok_same q mpt).
  - destruct (unsafeSetError_chans mpt now c err) as (E1 & E2 & _).
    by apply (queues_ok_same q mpt).
Qed.

(** X7.  In every state the tracker reaches from [NewMapPin], each of the
    two queues has the capacity it was made with and never holds more
    items than that. *)
Theorem queues_bounded cfgID queueSize mpt :
  reachable cfgID queueSize mpt ->
  cap (pinCh mpt) = queueSize /\ cap (unpinCh mpt) = queueSize /\
  (length (buf (pinCh mpt)) <= queueSize)%nat /\
  (length (buf (unpinCh mpt)) <= queueSize)%nat.
Proof.
  unfold reachable.
  apply (rtc_ind_r (fun m => queues_ok queueSize m)
           (NewMapPin cfgID queueSize)).
  - unfold queues_ok. cbn. repeat split; lia.
  - intros y z _ Hyz IH. by eapply queues_ok_step.
Qed.

Lemma queues_bounded_witness :
  (length (buf (pinCh trackerMixed)) <= 2)%nat.
Proof.
  by destruct (queues_bounded "A" 2 trackerMixed trackerMixed_reachable)
    as (_ & _ & H & _).
Defined.

(** *** Reconciliation *)

Lemma get_set_status mpt now now' c s :
  Status (unsafeGet (unsafeSet mpt now c s) now' c) = s.
Proof.
  destruct (decide (s = TrackerStatusUnpinned)) as [->|Hs].
  - by rewrite unsafeGet_None by apply unsafeSet_Unpinned.
  - by erewrite unsafeGet_Some by by apply unsafeSet_lookup_eq.
Qed.

Lemma get_setError mpt now now' c err :
  unsafeGet (unsafeSetError mpt now c err) now' c =
    markError (peerID mpt) now err c (unsafeGet mpt now c).
Proof. by erewrite unsafeGet_Some by apply unsafeSetError_lookup_eq. Qed.

Lemma get_status_now mpt now now' c :
  Status (unsafeGet mpt now c) = Status (unsafeGet mpt now' c).
Proof. unfold unsafeGet. by destruct (status mpt !! c). Qed.

(** The cases in which [syncStatus] has nothing to do. *)
Lemma syncStatus_noop mpt now c ips :
  (if IsPinned ips
   then Status (get mpt now c) ∈ [TrackerStatusPinned; TrackerStatusUnpinError;
                                  TrackerStatusRemote]
   else Status (get mpt now c) ∈ [TrackerStatusPinError; TrackerStatusUnpinned;
                                  TrackerStatusRemote]) ->
  syncStatus mpt now c ips = (mpt, get mpt now c).
Proof.
  unfold syncStatus. cbn zeta.
  destruct (IsPinned ips); intros H;
    rewrite !elem_of_cons, elem_of_nil in H;
    destruct H as [-> |[-> |[-> |[]]]]; reflexivity.
Qed.

(** X8.  After [syncStatus] the entry never contradicts the daemon: when
    the daemon holds the CID the entry is not PinError, Pinning or
    Unpinned, and when the daemon does not hold it the entry is not
    Pinned, Unpinning or UnpinError, unless the entry is Unpinning
    (Pinning) and waits within its timeout, in which case nothing at all
    was changed. *)
Theorem syncStatus_agrees mpt now c ips :
  (IsPinned ips = true ->
   Status (syncStatus mpt now c ips).2 ∈
     [TrackerStatusPinned; TrackerStatusUnpinError; TrackerStatusRemote] \/
   Status (syncStatus mpt now c ips).2 = TrackerStatusUnpinning /\
   now - TS (get mpt now c) <= UnpinningTimeout /\
   syncStatus mpt now c ips = (mpt, get mpt now c)) /\
  (IsPinned ips = false ->
   Status (syncStatus mpt now c ips).2 ∈
     [TrackerStatusPinError; TrackerStatusUnpinned; TrackerStatusRemote] \/
   Status (syncStatus mpt now c ips).2 = TrackerStatusPinning /\
   now - TS (get mpt now c) <= PinningTimeout /\
   syncStatus mpt now c ips = (mpt, get mpt now c)).
Proof.
  unfold syncStatus, get, set, setError. cbn [fst snd].
  split; intros ->; destruct (Status (unsafeGet mpt now c)) eqn:Hs;
    try (destruct (Z.ltb_spec UnpinningTimeout (now - TS (unsafeGet mpt now c))));
    try (destruct (Z.ltb_spec PinningTimeout (now - TS (unsafeGet mpt now c))));
    rewrite ?get_set_status, ?get_setError; unfold markError; rewrite ?Hs;
    cbn [Status];
    first [ left; rewrite !elem_of_cons; tauto
          | right; by repeat split ].
Qed.

Lemma syncStatus_agrees_witness :
  Status (syncStatus trackerMixed 5 "c1" IPFSPinStatusPinned).2 ∈
    [TrackerStatusPinned; TrackerStatusUnpinError; TrackerStatusRemote] \/
  Status (syncStatus trackerMixed 5 "c1" IPFSPinStatusPinned).2
    = TrackerStatusUnpinning /\
  5 - TS (get trackerMixed 5 "c1") <= UnpinningTimeout /\
  syncStatus trackerMixed 5 "c1" IPFSPinStatusPinned
    = (trackerMixed, get trackerMixed 5 "c1").
Proof.
  destruct (syncStatus_agrees trackerMixed 5 "c1" IPFSPinStatusPinned)
    as [H _].
  apply H. reflexivity.
Defined.

(** X9.  One [syncStatus] settles an entry: unless its outcome is an
    entry that waits in Pinning or Unpinning, a further [syncStatus] with
    the same answer of the daemon, at any later time, changes nothing. *)
Theorem syncStatus_settles mpt now now' c ips :
  Status (syncStatus mpt now c ips).2 <> TrackerStatusPinning ->
  Status (syncStatus mpt now c ips).2 <> TrackerStatusUnpinning ->
  syncStatus (syncStatus mpt now c ips).1 now' c ips =
    ((syncStatus mpt now c ips).1, get (syncStatus mpt now c ips).1 now' c).
Proof.
  intros H1 H2. apply syncStatus_noop.
  unfold get. rewrite <- (get_status_now _ now now' c).
  rewrite <- syncStatus_snd.
  destruct (syncStatus_agrees mpt now c ips) as [Ht Hf].
  destruct (IsPinned ips).
  - destruct (Ht eq_refl) as [H|[H _]]; [exact H|contradiction].
  - destruct (Hf eq_refl) as [H|[H _]]; [exact H|contradiction].
Qed.

Lemma syncStatus_settles_witness :
  syncStatus (syncStatus trackerMixed 5 "c1" IPFSPinStatusPinned).1 9 "c1"
    IPFSPinStatusPinned =
  ((syncStatus trackerMixed 5 "c1" IPFSPinStatusPinned).1,
   get (syncStatus trackerMixed 5 "c1" IPFSPinStatusPinned).1 9 "c1").
Proof.
  apply (syncStatus_settles trackerMixed 5 9 "c1" IPFSPinStatusPinned);
    vm_compute; discriminate.
Defined.

(** X10.  The timeouts are strict bounds.  A Pinning entry that the daemon
    does not hold becomes PinError "pinning operation is taking too long"
    when its age exceeds [PinningTimeout] and is left alone up to and
    including that age; likewise an Unpinning entry that the daemon still
    holds, with [UnpinningTimeout] and UnpinError. *)
Theorem syncStatus_timeouts mpt now c ips p :
  status mpt !! c = Some p ->
  (Status p = TrackerStatusPinning -> IsPinned ips = false ->
   (PinningTimeout < now - TS p ->
    (syncStatus mpt now c ips).2 =
      {| Cid := c; Peer := peerID mpt; Status := TrackerStatusPinError;
         TS := now; Error := errPinningTimeout |}) /\
   (now - TS p <= PinningTimeout -> syncStatus mpt now c ips = (mpt, p))) /\
  (Status p = TrackerStatusUnpinning -> IsPinned ips = true ->
   (UnpinningTimeout < now - TS p ->
    (syncStatus mpt now c ips).2 =
      {| Cid := c; Peer := peerID mpt; Status := TrackerStatusUnpinError;
         TS := now; Error := errUnpinningTimeout |}) /\
   (now - TS p <= UnpinningTimeout -> syncStatus mpt now c ips = (mpt, p))).
Proof.
  intros Hp. unfold syncStatus, get, set, setError. cbn [fst snd].
  rewrite (unsafeGet_Some _ _ _ _ Hp).
  split; intros Hs ->; rewrite Hs; split; intros Hage.
  - apply Z.ltb_lt in Hage. rewrite Hage, get_setError.
    rewrite (unsafeGet_Some _ _ _ _ Hp). unfold markError. by rewrite Hs.
  - apply Z.ltb_ge in Hage. rewrite Hage.
    by rewrite (unsafeGet_Some _ _ _ _ Hp).
  - apply Z.ltb_lt in Hage. rewrite Hage, get_setError.
    rewrite (unsafeGet_Some _ _ _ _ Hp). unfold markError. by rewrite Hs.
  - apply Z.ltb_ge in Hage. rewrite Hage.
    by rewrite (unsafeGet_Some _ _ _ _ Hp).
Qed.

Lemma syncStatus_timeouts_witness :
  syncStatus trackerMixed (1 + PinningTimeout) "c1" IPFSPinStatusUnpinned
    = (trackerMixed,
       {| Cid := "c1"; Peer := "A"; Status := TrackerStatusPinning;
          TS := 1; Error := "" |}) /\
  Status (syncStatus trackerMixed (2 + PinningTimeout) "c1"
            IPFSPinStatusUnpinned).2 = TrackerStatusPinError.
Proof.
  destruct (syncStatus_timeouts trackerMixed (1 + PinningTimeout) "c1"
              IPFSPinStatusUnpinned
              {| Cid := "c1"; Peer := "A"; Status := TrackerStatusPinning;
                 TS := 1; Error := "" |} eq_refl) as [H1 _].
  destruct (syncStatus_timeouts trackerMixed (2 + PinningTimeout) "c1"
              IPFSPinStatusUnpinned
              {| Cid := "c1"; Peer := "A"; Status := TrackerStatusPinning;
                 TS := 1; Error := "" |} eq_refl) as [H2 _].
  split.
  - apply H1; [reflexivity|reflexivity|vm_compute; discriminate].
  - destruct (H2 eq_refl eq_refl) as [H _]. by rewrite H.
Defined.

(** X11.  What reconciliation repairs.  A daemon that holds the CID turns
    a Pinning or PinError entry into Pinned with the error cleared.  A
    daemon that does not hold it deletes an Unpinning or UnpinError entry
    and turns a Pinned entry into PinError "the item is unexpectedly not
    pinned on IPFS". *)
Theorem syncStatus_repairs mpt now c ips p :
  status mpt !! c = Some p ->
  (IsPinned ips = true ->
   Status p = TrackerStatusPinning \/ Status p = TrackerStatusPinError ->
   (syncStatus mpt now c ips).2 =
     {| Cid := c; Peer := peerID mpt; Status := TrackerStatusPinned;
        TS := now; Error := "" |} /\
   status (syncStatus mpt now c ips).1 !! c = Some (syncStatus mpt now c ips).2)
  /\
  (IsPinned ips = false ->
   Status p = TrackerStatusUnpinning \/ Status p = TrackerStatusUnpinError ->
   status (syncStatus mpt now c ips).1 !! c = None /\
   Status (syncStatus mpt now c ips).2 = TrackerStatusUnpinned) /\
  (IsPinned ips = false -> Status p = TrackerStatusPinned ->
   (syncStatus mpt now c ips).2 =
     {| Cid := c; Peer := peerID mpt; Status := TrackerStatusPinError;
        TS := now; Error := errUnpinned |} /\
   status (syncStatus mpt now c ips).1 !! c = Some (syncStatus mpt now c ips).2).
Proof.
  intros Hp. unfold syncStatus, get, set, setError. cbn [fst snd].
  rewrite (unsafeGet_Some _ _ _ _ Hp).
  split; [|split].
  - intros -> [Hs|Hs]; rewrite Hs;
      rewrite unsafeSet_lookup_eq by done;
      by erewrite unsafeGet_Some by by apply unsafeSet_lookup_eq.
  - intros -> [Hs|Hs]; rewrite Hs;
      rewrite unsafeSet_Unpinned;
      by rewrite unsafeGet_None by apply unsafeSet_Unpinned.
  - intros -> Hs. rewrite Hs, get_setError, unsafeSetError_lookup_eq.
    rewrite (unsafeGet_Some _ _ _ _ Hp). unfold markError. by rewrite Hs.
Qed.

Lemma syncStatus_repairs_witness :
  Status (syncStatus trackerMixed 5 "c1" IPFSPinStatusPinned).2
    = TrackerStatusPinned.
Proof.
  destruct (syncStatus_repairs trackerMixed 5 "c1" IPFSPinStatusPinned
              {| Cid := "c1"; Peer := "A"; Status := TrackerStatusPinning;
                 TS := 1; Error := "" |} eq_refl) as [H _].
  destruct (H eq_refl (or_introl eq_refl)) as [-> _]. reflexivity.
Defined.

(** *** Listing, and a pin that comes and goes *)

(** X12.  [StatusAll] of a reachable tracker lists every stored entry
    once, under its own CID: an entry is listed exactly when it is the
    stored entry of its CID, the listed CIDs are distinct, there are as
    many as the map has keys, and none of them is Unpinned. *)
Theorem StatusAll_exact cfgID queueSize mpt iter :
  reachable cfgID queueSize mpt ->
  iter ≡ₚ map_to_list (status mpt) ->
  (forall p, p ∈ StatusAll iter <-> status mpt !! Cid p = Some p) /\
  NoDup (Cid <$> StatusAll iter) /\
  length (StatusAll iter) = size (status mpt) /\
  (forall p, p ∈ StatusAll iter ->
     Status p <> TrackerStatusUnpinned /\ Peer p = cfgID).
Proof.
  intros Hr Hperm.
  destruct (inv_reachable _ _ _ Hr) as [Hid Hm].
  destruct (iter_lookup _ _ Hperm) as [Hiter Hnd].
  assert (Hcids : Cid <$> iter.*2 = iter.*1).
  { apply keys_of_entries. intros k p Hin. apply Hiter in Hin.
    by destruct (Hm k p Hin) as (_ & ? & _). }
  assert (Hmem : forall p, p ∈ StatusAll iter <-> status mpt !! Cid p = Some p).
  { intros p. unfold StatusAll. rewrite list_elem_of_fmap. split.
    - intros [[k p'] [-> Hin]]. apply Hiter in Hin. cbn.
      destruct (Hm k p' Hin) as (_ & -> & _). done.
    - intros Hp. exists (Cid p, p). split; [done|]. by apply Hiter. }
  split; [exact Hmem|]. split; [|split].
  - unfold StatusAll. by rewrite Hcids.
  - unfold StatusAll. rewrite length_fmap, Hperm. apply length_map_to_list.
  - intros p Hp%Hmem. destruct (Hm _ _ Hp) as (? & _ & ?). done.
Qed.

Lemma StatusAll_exact_witness :
  length (StatusAll (map_to_list (status trackerMixed))) = 2%nat.
Proof.
  destruct (StatusAll_exact "A" 2 trackerMixed
              (map_to_list (status trackerMixed)) trackerMixed_reachable
              (reflexivity _)) as (_ & _ & H & _).
  rewrite H. reflexivity.
Defined.

Lemma Untrack_enqueues mpt now (c : string) :
  (length (buf (unpinCh mpt)) < cap (unpinCh mpt))%nat ->
  (Untrack mpt now c).2 = None /\
  status (Untrack mpt now c).1 !! c =
    Some {| Cid := c; Peer := peerID mpt;
            Status := TrackerStatusUnpinning; TS := now; Error := "" |} /\
  buf (unpinCh (Untrack mpt now c).1) = buf (unpinCh mpt) ++ [CidArgCid c] /\
  cap (unpinCh (Untrack mpt now c).1) = cap (unpinCh mpt) /\
  pinCh (Untrack mpt now c).1 = pinCh mpt /\
  rpcLog (Untrack mpt now c).1 = rpcLog mpt /\
  peerID (Untrack mpt now c).1 = peerID mpt /\
  forall k, k <> c -> status (Untrack mpt now c).1 !! k = status mpt !! k.
Proof.
  intros Hroom. unfold Untrack, set.
  destruct (unsafeSet_chans mpt now c TrackerStatusUnpinning)
    as (Hp & Hu & Hl).
  rewrite Hu, (try_send_room _ _ Hroom). cbn [fst snd].
  cbn [status pinCh unpinCh rpcLog peerID with_unpinCh buf cap].
  rewrite Hp, Hl, unsafeSet_peerID, unsafeSet_lookup_eq by done.
  repeat split. intros k Hk. by apply unsafeSet_lookup_ne.
Qed.

Lemma chan_eq (ch ch' : chan) : buf ch = buf ch' -> cap ch = cap ch' -> ch = ch'.
Proof. destruct ch, ch'. cbn. by intros -> ->. Qed.

(** X13.  A pin that comes and goes.  On a tracker with empty queues of
    positive size and a daemon that succeeds, [Track] of a local CidArg,
    a turn of the pin worker, [Untrack] and a turn of the unpin worker
    lead through Pinned to a tracker without an entry for the CID: the
    status map is the one before with the CID deleted, the queues are
    empty again, and the daemon has been asked to pin and then to unpin
    the CID. *)
Theorem track_untrack_roundtrip mpt t1 t2 t3 t4 d (c : CidArg) :
  isRemote mpt c = false ->
  buf (pinCh mpt) = [] -> buf (unpinCh mpt) = [] ->
  (0 < cap (pinCh mpt))%nat -> (0 < cap (unpinCh mpt))%nat ->
  IPFSPin d (carg_Cid c) = None -> IPFSUnpin d (carg_Cid c) = None ->
  exists m2 m4,
    pinWorker (Track mpt t1 d c).1 t2 d = Some m2 /\
    Status <$> status m2 !! carg_Cid c = Some TrackerStatusPinned /\
    unpinWorker (Untrack m2 t3 (carg_Cid c)).1 t4 d = Some m4 /\
    status m4 = delete (carg_Cid c) (status mpt) /\
    pinCh m4 = pinCh mpt /\ unpinCh m4 = unpinCh mpt /\
    rpcLog m4 = rpcLog mpt ++ [CallIPFSPin (carg_Cid c);
                               CallIPFSUnpin (carg_Cid c)].
Proof.
  intros Hr Hp Hu Hcp Hcu Hpin Hunpin.
  destruct (Track_local_enqueues mpt t1 d c Hr)
    as (_ & _ & T3 & T4 & T5 & T6 & T7); [rewrite Hp; cbn; lia|].
  rewrite Hp in T3. cbn in T3.
  destruct (pinWorker_turn (Track mpt t1 d c).1 t2 d) as [_ W].
  destruct (W c [] T3) as (m2 & W1 & W2 & W3 & W4 & W5 & W6 & W7).
  rewrite Hpin in W6. cbn in W6.
  destruct (Untrack_enqueues m2 t3 (carg_Cid c))
    as (_ & _ & U3 & U4 & U5 & U6 & _ & U8).
  { rewrite W4, T5, Hu. cbn. lia. }
  rewrite W4, T5, Hu in U3. cbn in U3.
  destruct (unpinWorker_turn (Untrack m2 t3 (carg_Cid c)).1 t4 d) as [_ V].
  destruct (V (CidArgCid (carg_Cid c)) [] U3)
    as (m4 & V1 & V2 & V3 & V4 & V5 & V6 & V7).
  cbn [carg_Cid CidArgCid] in *. rewrite Hunpin in V6.
  exists m2, m4. split; [exact W1|]. split; [by rewrite W6|].
  split; [exact V1|]. split; [|split; [|split]].
  - apply map_eq. intros k. destruct (decide (k = carg_Cid c)) as [->|Hk].
    + by rewrite V6, lookup_delete_eq.
    + rewrite V7, U8, W7, T7, lookup_delete_ne by done. done.
  - rewrite V4, U5. apply chan_eq; [by rewrite W2, Hp|by rewrite W3, T4].
  - apply chan_eq; [by rewrite V2, Hu|].
    by rewrite V3, U4, W4, T5.
  - rewrite V5, U6, W5, T6, <- app_assoc. done.
Qed.

Lemma track_untrack_roundtrip_witness :
  exists m2 m4,
    pinWorker (Track (NewMapPin "A" 2) 1 daemonHealthy (cargLocal "c1")).1
      2 daemonHealthy = Some m2 /\
    unpinWorker (Untrack m2 3 "c1").1 4 daemonHealthy = Some m4 /\
    status m4 = ∅.
Proof.
  destruct (track_untrack_roundtrip (NewMapPin "A" 2) 1 2 3 4 daemonHealthy
              (cargLocal "c1") eq_refl eq_refl eq_refl)
    as (m2 & m4 & H1 & _ & H2 & H3 & _);
    [vm_compute; lia|vm_compute; lia|reflexivity|reflexivity|].
  exists m2, m4. cbn [carg_Cid cargLocal] in *.
  split; [exact H1|]. split; [exact H2|]. rewrite H3. apply delete_empty.
Defined.

End TrackerMore.

(** ** The shared state: lookups, removal and listing *)

Module StateMore.
Import api state StateSpec.

Lemma ToCidArg_ToSerial c : ToCidArg (ToSerial c) = c.
Proof. by destruct c. Qed.

(** X14.  What [Add] stores can be read back: afterwards [Has] of the CID
    is true and [Get] returns the record that was added, while [Has] and
    [Get] of every other CID answer as before. *)
Theorem Add_then_read (st : mapState) (c : CidArg) (k : string) :
  Has (Add st c).1 (carg_Cid c) = true /\
  Get (Add st c).1 (carg_Cid c) = c /\
  (k <> carg_Cid c ->
   Has (Add st c).1 k = Has st k /\ Get (Add st c).1 k = Get st k).
Proof.
  unfold Has, Get, Add. cbn [fst PinMap]. rewrite lookup_insert_eq.
  split; [done|]. split; [apply ToCidArg_ToSerial|].
  intros Hk. by rewrite lookup_insert_ne.
Qed.

Lemma Add_then_read_witness :
  Has (Add NewMap cargSample).1 "QmAbsent" = Has NewMap "QmAbsent" /\
  Get (Add NewMap cargSample).1 "QmAbsent" = Get NewMap "QmAbsent".
Proof.
  destruct (Add_then_read NewMap cargSample "QmAbsent") as (_ & _ & H).
  apply H. discriminate.
Defined.

(** X15.  [Rm] forgets the CID and nothing else, and undoes an [Add]:
    after [Rm], [Has] is false and [Get] gives the empty CidArg for that
    CID, other CIDs answer as before, a second [Rm] changes nothing, and
    removing a CID that was added to a state without it gives that state
    back. *)
Theorem Rm_forgets (st : mapState) (c : CidArg) (k k' : string) :
  (Rm st k).2 = None /\
  Has (Rm st k).1 k = false /\
  Get (Rm st k).1 k = CidArg_zero /\
  (k' <> k ->
   Has (Rm st k).1 k' = Has st k' /\ Get (Rm st k).1 k' = Get st k') /\
  Rm (Rm st k).1 k = Rm st k /\
  (Has st (carg_Cid c) = false -> (Rm (Add st c).1 (carg_Cid c)).1 = st).
Proof.
  unfold Has, Get, Rm, Add. cbn [fst snd PinMap Version].
  rewrite lookup_delete_eq. repeat split.
  - by rewrite lookup_delete_ne.
  - by rewrite lookup_delete_ne.
  - f_equal. apply mapState_eq; [|done]. cbn. apply delete_id.
    apply lookup_delete_eq.
  - destruct (PinMap st !! carg_Cid c) eqn:Hc; [done|]. intros _.
    apply mapState_eq; [|done]. cbn. rewrite delete_insert_eq.
    by apply delete_id.
Qed.

Lemma Rm_forgets_witness :
  (Rm (Add NewMap cargSample).1 (carg_Cid cargSample)).1 = NewMap.
Proof.
  destruct (Rm_forgets NewMap cargSample "k" "k'") as (_ & _ & _ & _ & _ & H).
  apply H. reflexivity.
Defined.

(** X16.  [List] returns the stored records, one for each stored CID and
    no other: a CidArg is listed exactly when it is the record stored
    under some CID, and the list is as long as the map has keys.  In
    particular a record that was just added is listed. *)
Theorem List_exact (st : mapState) (iter : list (string * CidArgSerial)) :
  iter ≡ₚ map_to_list (PinMap st) ->
  length (List_ iter) = size (PinMap st) /\
  (forall c, c ∈ List_ iter <->
     exists k s, PinMap st !! k = Some s /\ c = ToCidArg s) /\
  (forall c iter', iter' ≡ₚ map_to_list (PinMap (Add st c).1) ->
     c ∈ List_ iter').
Proof.
  intros Hperm.
  assert (Hmem : forall (m : gmap string CidArgSerial) l,
            l ≡ₚ map_to_list m ->
            forall c, c ∈ List_ l <->
              exists k s, m !! k = Some s /\ c = ToCidArg s).
  { intros m l Hl c. unfold List_. rewrite list_elem_of_fmap. split.
    - intros (s & -> & [[k s'] [-> Hin]]%list_elem_of_fmap).
      exists k, s'. split; [|done]. apply elem_of_map_to_list.
      by rewrite <- Hl.
    - intros (k & s & Hs & ->). exists s. split; [done|].
      apply list_elem_of_fmap. exists (k, s). split; [done|].
      rewrite Hl. by apply elem_of_map_to_list. }
  split; [|split].
  - unfold List_. rewrite !length_fmap, Hperm. apply length_map_to_list.
  - by apply Hmem.
  - intros c iter' Hperm'. apply (Hmem _ _ Hperm').
    exists (carg_Cid c), (ToSerial c). split.
    + cbn. apply lookup_insert_eq.
    + by rewrite ToCidArg_ToSerial.
Qed.

Lemma List_exact_witness :
  length (List_ (map_to_list (PinMap (Add NewMap cargSample).1))) = 1%nat.
Proof.
  destruct (List_exact (Add NewMap cargSample).1
              (map_to_list (PinMap (Add NewMap cargSample).1))
              (reflexivity _)) as [H _].
  rewrite H. reflexivity.
Defined.

(** X17.  Operations on different CIDs do not interfere: adding one
    record and removing, or adding, another CID give the same state in
    either order. *)
Theorem Add_Rm_commute (st : mapState) (c c' : CidArg) (k : string) :
  (k <> carg_Cid c ->
   (Rm (Add st c).1 k).1 = (Add (Rm st k).1 c).1) /\
  (carg_Cid c' <> carg_Cid c ->
   (Add (Add st c).1 c').1 = (Add (Add st c').1 c).1).
Proof.
  split; intros Hk; apply mapState_eq; try done; cbn.
  - by rewrite delete_insert_ne.
  - by apply insert_insert_ne.
Qed.

Lemma Add_Rm_commute_witness :
  (Rm (Add NewMap cargSample).1 "QmAbsent").1
    = (Add (Rm NewMap "QmAbsent").1 cargSample).1.
Proof.
  destruct (Add_Rm_commute NewMap cargSample cargSample "QmAbsent") as [H _].
  apply H. discriminate.
Defined.

End StateMore.

(** ** The numpin allocator: the sorter behind [sort.Sort] *)

Module AllocatorMore.
Import api allocator AllocatorSpec.

(** X18.  [Swap] exchanges the peers at two positions below [Len] and
    nothing else: the length and the counts stay, the list is a
    permutation of the old one, every other position keeps its peer, and
    swapping again gives the sorter back. *)
Theorem Swap_exchanges (s : metricsSorter) (i j : nat) :
  (i < Len s)%nat -> (j < Len s)%nat ->
  Len (Swap s i j) = Len s /\
  m (Swap s i j) = m s /\
  peers (Swap s i j) ≡ₚ peers s /\
  peers (Swap s i j) !! i = peers s !! j /\
  peers (Swap s i j) !! j = peers s !! i /\
  (forall k, k <> i -> k <> j -> peers (Swap s i j) !! k = peers s !! k) /\
  Swap (Swap s i j) i j = s.
Proof.
  unfold Len. intros Hi Hj.
  destruct (lookup_lt_is_Some_2 _ _ Hi) as [a Ha].
  destruct (lookup_lt_is_Some_2 _ _ Hj) as [b Hb].
  assert (Hlen : forall x y : string,
            length (<[j := x]> (<[i := y]> (peers s))) = length (peers s))
    by (intros; by rewrite !length_insert).
  assert (Hli : peers (Swap s i j) !! i = Some b).
  { unfold Swap. cbn. rewrite Ha, Hb. cbn.
    destruct (decide (i = j)) as [->|Hne].
    - rewrite list_lookup_insert_eq by (by rewrite length_insert).
      congruence.
    - rewrite list_lookup_insert_ne by done.
      by rewrite list_lookup_insert_eq. }
  assert (Hlj : peers (Swap s i j) !! j = Some a).
  { unfold Swap. cbn. rewrite Ha, Hb. cbn.
    by rewrite list_lookup_insert_eq by (by rewrite length_insert). }
  split; [apply Hlen|]. split; [done|]. split; [|split; [|split; [|split]]].
  - unfold Swap. cbn. rewrite Ha, Hb. cbn. by apply swap_Permutation.
  - by rewrite Hli.
  - by rewrite Hlj.
  - intros k Hki Hkj. unfold Swap. cbn.
    by rewrite !list_lookup_insert_ne.
  - destruct s as [ps ms]. unfold Swap at 1. cbn [peers m] in *.
    rewrite Hli, Hlj. cbn. f_equal. apply list_eq. intros k.
    destruct (decide (k = j)) as [->|Hkj].
    + rewrite list_lookup_insert_eq; [done|].
      rewrite length_insert. unfold Swap. cbn. by rewrite !length_insert.
    + rewrite list_lookup_insert_ne by done.
      destruct (decide (k = i)) as [->|Hki].
      * rewrite list_lookup_insert_eq; [done|].
        unfold Swap. cbn. by rewrite !length_insert.
      * rewrite list_lookup_insert_ne by done. unfold Swap. cbn.
        by rewrite !list_lookup_insert_ne.
Qed.

Lemma Swap_exchanges_witness :
  peers (Swap {| peers := ["P1"; "P2"; "P3"]; m := ∅ |} 0 2)
    ≡ₚ ["P1"; "P2"; "P3"].
Proof.
  destruct (Swap_exchanges {| peers := ["P1"; "P2"; "P3"]; m := ∅ |} 0 2)
    as (_ & _ & H & _); [cbn; lia|cbn; lia|exact H].
Defined.

(** *** Insertion sort through [Len], [Less] and [Swap] *)

Lemma lookup_adjacent (pre post : list string) (y x : string) :
  (pre ++ y :: x :: post) !! length pre = Some y /\
  (pre ++ y :: x :: post) !! S (length pre) = Some x.
Proof.
  split; [apply list_lookup_middle; done|].
  rewrite lookup_app_r by lia.
  by replace (S (length pre) - length pre)%nat with 1%nat by lia.
Qed.

Lemma Swap_adjacent s pre y x post :
  peers s = pre ++ y :: x :: post ->
  peers (Swap s (S (length pre)) (length pre)) = pre ++ x :: y :: post /\
  m (Swap s (S (length pre)) (length pre)) = m s.
Proof.
  intros Hs. split; [|done]. unfold Swap. cbn [peers]. rewrite Hs.
  destruct (lookup_adjacent pre post y x) as [-> ->]. cbn [default].
  rewrite (insert_app_r_alt pre _ (S (length pre))) by lia.
  replace (S (length pre) - length pre)%nat with 1%nat by lia.
  rewrite (insert_app_r_alt pre _ (length pre)) by lia.
  by rewrite Nat.sub_diag.
Qed.

Lemma Less_adjacent s pre y x post :
  peers s = pre ++ y :: x :: post ->
  Less s (S (length pre)) (length pre) = (m_at s x <? m_at s y).
Proof.
  intros Hs. unfold Less. rewrite Hs.
  by destruct (lookup_adjacent pre post y x) as [-> ->].
Qed.

Lemma fewerPins_m s s' : m s' = m s -> fewerPins s' = fewerPins s.
Proof. unfold fewerPins, m_at. by intros ->. Qed.

(** The inner loop moves the element behind a sorted prefix to its place
    in the prefix. *)
Lemma sink_inserts (pre : list string) : forall s x post,
  peers s = pre ++ x :: post ->
  StronglySorted (fewerPins s) pre ->
  exists pre', peers (sink s (length pre)) = pre' ++ post /\
    pre' ≡ₚ pre ++ [x] /\ StronglySorted (fewerPins s) pre' /\
    m (sink s (length pre)) = m s.
Proof.
  induction pre as [|y pre IH] using rev_ind; intros s x post Hs Hsorted.
  - exists [x]. cbn. split; [done|]. split; [done|]. split; [|done].
    repeat constructor.
  - rewrite <- app_assoc in Hs. cbn in Hs.
    rewrite length_app. cbn [length]. rewrite Nat.add_1_r. cbn [sink].
    rewrite (Less_adjacent s pre y x post Hs).
    apply StronglySorted_app in Hsorted as (Hle & Hpre & _).
    destruct (Z.ltb_spec (m_at s x) (m_at s y)) as [Hlt|Hge].
    + destruct (Swap_adjacent s pre y x post Hs) as [Hs' Hm'].
      destruct (IH _ x (y :: post) Hs') as (pre' & H1 & H2 & H3 & H4).
      { by rewrite (fewerPins_m _ _ Hm'). }
      rewrite (fewerPins_m _ _ Hm') in H3.
      exists (pre' ++ [y]). rewrite <- app_assoc. cbn.
      split; [exact H1|]. split; [|split; [|congruence]].
      * rewrite H2, <- !app_assoc. cbn. f_equiv. apply Permutation_swap.
      * apply StronglySorted_app. split; [|split; [done|repeat constructor]].
        intros a b Ha ->%list_elem_of_singleton.
        rewrite H2 in Ha.
        apply elem_of_app in Ha as [Ha| ->%list_elem_of_singleton].
        -- apply Hle; [done|]. by apply list_elem_of_singleton.
        -- unfold fewerPins. lia.
    + exists ((pre ++ [y]) ++ [x]). rewrite <- !app_assoc. cbn.
      split; [exact Hs|]. split; [done|]. split; [|done].
      apply StronglySorted_app. split; [|split; [exact Hpre|]].
      * intros a b Ha Hb. rewrite !elem_of_cons, elem_of_nil in Hb.
        destruct Hb as [-> |[-> |[]]].
        -- apply Hle; [done|]. by apply list_elem_of_singleton.
        -- assert (fewerPins s a y)
             by (apply Hle; [done|by apply list_elem_of_singleton]).
           unfold fewerPins in *. lia.
      * repeat constructor. exact Hge.
Qed.

Lemma insertionSort_from_sorts n : forall s pre post,
  peers s = pre ++ post -> length post = n ->
  StronglySorted (fewerPins s) pre ->
  peers (insertionSort_from s (length pre) n) ≡ₚ peers s /\
  StronglySorted (fewerPins s) (peers (insertionSort_from s (length pre) n)) /\
  m (insertionSort_from s (length pre) n) = m s.
Proof.
  induction n as [|n IH]; intros s pre post Hs Hlen Hsorted.
  - apply nil_length_inv in Hlen as ->. rewrite app_nil_r in Hs.
    cbn. by rewrite Hs.
  - destruct post as [|x post]; [done|]. injection Hlen as Hlen.
    cbn [insertionSort_from].
    destruct (sink_inserts pre s x post Hs Hsorted)
      as (pre' & H1 & H2 & H3 & H4).
    assert (Hl : length pre' = S (length pre)).
    { rewrite H2, length_app. cbn. lia. }
    rewrite <- Hl.
    destruct (IH (sink s (length pre)) pre' post H1 Hlen) as (I1 & I2 & I3).
    { by rewrite (fewerPins_m _ _ H4). }
    rewrite (fewerPins_m _ _ H4) in I2.
    split; [|split; [done|congruence]].
    rewrite I1, H1, Hs, H2, <- app_assoc. done.
Qed.

(** The calls of the insertion sort, made on the sorter, are this
    insertion sort. *)
Lemma runSort_sinkCalls j : forall k s,
  runSort (sinkCalls j k) s = runSort k (sink s j).
Proof.
  induction j as [|j IH]; intros k s; [done|].
  cbn [sinkCalls runSort sink]. destruct (Less s (S j) j); [|done].
  cbn [runSort]. apply IH.
Qed.

Lemma runSort_insertionCalls_from n : forall s i,
  runSort (insertionCalls_from i n) s = insertionSort_from s i n.
Proof.
  induction n as [|n IH]; intros s i; [done|].
  cbn [insertionCalls_from insertionSort_from].
  rewrite runSort_sinkCalls. apply IH.
Qed.

Lemma runSort_insertionCalls s :
  runSort (insertionCalls (Len s)) s = insertionSort s.
Proof. apply runSort_insertionCalls_from. Qed.

(** X19.  The sorter works as an interface for [sort.Sort]: the insertion
    sort of Go's [sort] package, run through [Len], [Less] and [Swap],
    leaves the counts alone, permutes the peers, and ends with no peer
    [Less] than one before it. *)
Theorem insertionSort_sorts (s : metricsSorter) :
  m (insertionSort s) = m s /\
  peers (insertionSort s) ≡ₚ peers s /\
  forall i j, (i < j < Len s)%nat -> Less (insertionSort s) j i = false.
Proof.
  assert (H : peers (insertionSort s) ≡ₚ peers s /\
              StronglySorted (fewerPins s) (peers (insertionSort s)) /\
              m (insertionSort s) = m s).
  { unfold insertionSort, Len. destruct (peers s) as [|x rest] eqn:Hs.
    - cbn. rewrite Hs. repeat split; constructor.
    - cbn [length]. rewrite Nat.sub_succ, Nat.sub_0_r.
      change 1%nat with (length [x]).
      rewrite <- Hs. apply (insertionSort_from_sorts _ s [x] rest);
        [done|done|repeat constructor]. }
  destruct H as (Hperm & Hsorted & Hm).
  split; [done|]. split; [done|].
  intros i j [Hij Hj]. unfold Len in Hj. rewrite <- Hperm in Hj.
  destruct (lookup_lt_is_Some_2 (peers (insertionSort s)) j) as [pj Hpj];
    [lia|].
  destruct (lookup_lt_is_Some_2 (peers (insertionSort s)) i) as [pi Hpi];
    [lia|].
  unfold Less. rewrite Hpi, Hpj. cbn. apply Z.ltb_ge.
  pose proof (StronglySorted_lookup _ _ i j pi pj Hsorted Hij Hpi Hpj) as Hle.
  unfold fewerPins, m_at in *. by rewrite Hm.
Qed.

(** *** The sorter that [newMetricsSorter] builds *)

Lemma loop_closed_form now iter : forall vMap ps,
  peers (newMetricsSorter_loop now iter vMap ps) = ps ++ omap (kept now) iter /\
  forall k, is_Some (m (newMetricsSorter_loop now iter vMap ps) !! k) <->
            is_Some (vMap !! k) \/ k ∈ omap (kept now) iter.
Proof.
  induction iter as [|[k0 v0] rest IH]; intros vMap ps.
  - cbn. rewrite app_nil_r. split; [done|]. intros k. split; [by left|].
    intros [?|Hin]; [done|]. by apply elem_of_nil in Hin.
  - rewrite loop_step. cbn [omap list_omap].
    assert (Hkept : kept now (k0, v0) =
              match pinCount now v0 with Some _ => Some k0 | None => None end)
      by done.
    rewrite Hkept. clear Hkept.
    destruct (pinCount now v0) as [val|].
    + destruct (IH (<[k0 := val]> vMap) (ps ++ [k0])) as [-> Hm].
      split; [by rewrite <- app_assoc|].
      intros k. rewrite Hm, elem_of_cons, lookup_insert.
      case_decide as Hk; [subst k0|].
      * split; [intros _; right; by left|intros _; left; by eexists].
      * split; [intros [?|?]; [by left|right; by right]|].
        intros [?|[?|?]]; [by left|congruence|by right].
    + apply IH.
Qed.

(** X20.  The sorter [newMetricsSorter] builds is consistent: its peers
    are the keys of the candidates it keeps, in the order of the
    enumeration; the map of counts has a count for exactly these peers,
    so that [Less] never reads a missing count; and there are no more
    peers than candidates. *)
Theorem newMetricsSorter_consistent (now : Z) (iter : list (string * Metric)) :
  peers (newMetricsSorter now iter) = omap (kept now) iter /\
  (forall k, k ∈ peers (newMetricsSorter now iter) <->
             is_Some (m (newMetricsSorter now iter) !! k)) /\
  (Len (newMetricsSorter now iter) <= length iter)%nat.
Proof.
  unfold newMetricsSorter, Len.
  destruct (loop_closed_form now iter ∅ []) as [Hp Hm]. cbn in Hp.
  split; [exact Hp|]. split.
  - intros k. rewrite Hm, Hp, lookup_empty. split; [by right|].
    intros [[? ?]|?]; done.
  - rewrite Hp. clear. induction iter as [|kv rest IH]; [done|].
    cbn [omap list_omap]. destruct (kept now kv); cbn; lia.
Qed.

End AllocatorMore.

(** ** The numpin informer and what the allocator makes of its metric *)

Module InformerSpec.
Import api allocator informer.

Lemma digit_digitChar d : 0 <= d <= 9 -> digit (digitChar d) = Some d.
Proof.
  intros Hd.
  assert (d = 0 \/ d = 1 \/ d = 2 \/ d = 3 \/ d = 4 \/ d = 5 \/ d = 6 \/
          d = 7 \/ d = 8 \/ d = 9) as Hc by lia.
  repeat (destruct Hc as [-> |Hc]; [reflexivity|]). by subst.
Qed.

Lemma digits_formatDigits fuel : forall n acc,
  0 <= n < 10 ^ Z.of_nat fuel ->
  digits (formatDigits fuel n acc) 0 = digits acc n.
Proof.
  induction fuel as [|fuel IH]; intros n acc Hn.
  - cbn in *. by replace n with 0 by lia.
  - cbn [formatDigits]. rewrite Nat2Z.inj_succ, Z.pow_succ_r in Hn by lia.
    assert (Hd : digit (digitChar (n mod 10)) = Some (n mod 10)).
    { apply digit_digitChar. pose proof (Z.mod_pos_bound n 10). lia. }
    destruct (Z.ltb_spec n 10) as [Hlt|Hge].
    + cbn [digits]. rewrite Hd. f_equal. rewrite Z.mod_small; lia.
    + rewrite IH.
      * cbn [digits]. rewrite Hd. f_equal.
        pose proof (Z.div_mod n 10). lia.
      * split; [apply Z.div_pos; lia|]. apply Z.div_lt_upper_bound; lia.
Qed.

Lemma formatDigits_head fuel : forall n acc,
  exists d rest, 0 <= d <= 9 /\
    formatDigits (S fuel) n acc = String (digitChar d) rest.
Proof.
  induction fuel as [|fuel IH]; intros n acc.
  - exists (n mod 10), acc. split; [pose proof (Z.mod_pos_bound n 10); lia|].
    cbn. by destruct (n <? 10).
  - cbn [formatDigits]. destruct (n <? 10).
    + exists (n mod 10), acc.
      split; [pose proof (Z.mod_pos_bound n 10); lia|done].
    + apply IH.
Qed.

Lemma Atoi_digit_head d rest :
  0 <= d <= 9 ->
  Atoi (String (digitChar d) rest) =
  match digits (String (digitChar d) rest) 0 with
  | None => None
  | Some n => if (- 2 ^ 63 <=? n) && (n <=? 2 ^ 63 - 1) then Some n else None
  end.
Proof.
  intros Hd.
  assert (d = 0 \/ d = 1 \/ d = 2 \/ d = 3 \/ d = 4 \/ d = 5 \/ d = 6 \/
          d = 7 \/ d = 8 \/ d = 9) as Hc by lia.
  repeat (destruct Hc as [Hc|Hc]; [subst d; reflexivity|]).
  subst d; reflexivity.
Qed.

Lemma Atoi_formatDigits fuel n :
  0 <= n < 10 ^ Z.of_nat (S fuel) -> n <= 2 ^ 63 - 1 ->
  Atoi (formatDigits (S fuel) n EmptyString) = Some n.
Proof.
  intros Hn Hmax.
  pose proof (digits_formatDigits (S fuel) n EmptyString Hn) as Hdig.
  destruct (formatDigits_head fuel n EmptyString) as (d & rest & Hd & Heq).
  rewrite Heq in *. rewrite Atoi_digit_head, Hdig by done. cbn [digits].
  destruct (Z.leb_spec (- 2 ^ 63) n); [|lia].
  destruct (Z.leb_spec n (2 ^ 63 - 1)); [done|lia].
Qed.

Lemma fuel_enough n :
  0 <= n -> n < 10 ^ Z.of_nat (S (Z.to_nat (Z.log2 n))).
Proof.
  intros Hn. rewrite Nat2Z.inj_succ, Z2Nat.id by apply Z.log2_nonneg.
  destruct (decide (n = 0)) as [->|Hne]; [done|].
  pose proof (Z.log2_spec n ltac:(lia)) as [_ Hlt].
  eapply Z.lt_le_trans; [exact Hlt|].
  apply Z.pow_le_mono_l. lia.
Qed.

Lemma Atoi_formatInt_nonneg n :
  0 <= n <= 2 ^ 63 - 1 -> Atoi (formatInt n) = Some n.
Proof.
  intros Hn. unfold formatInt.
  destruct (Z.ltb_spec n 0); [lia|].
  rewrite Z.abs_eq by lia. apply Atoi_formatDigits; [|lia].
  split; [lia|]. apply fuel_enough; lia.
Qed.

(** X21. [strconv.Atoi] reads back every 64-bit integer that
    [fmt.Sprintf("%d", _)] has printed: the text the informer puts in a
    metric is the number the allocator gets out of it. *)
Theorem Atoi_formatInt n :
  - 2 ^ 63 <= n <= 2 ^ 63 - 1 -> Atoi (formatInt n) = Some n.
Proof.
  intros Hn. destruct (Z.le_gt_cases 0 n) as [Hpos|Hneg].
  { apply Atoi_formatInt_nonneg. lia. }
  unfold formatInt. destruct (Z.ltb_spec n 0); [|lia].
  rewrite Z.abs_neq by lia.
  assert (Hb : 0 <= - n < 10 ^ Z.of_nat (S (Z.to_nat (Z.log2 (- n))))).
  { split; [lia|]. apply fuel_enough; lia. }
  pose proof (digits_formatDigits _ (- n) EmptyString Hb) as Hdig.
  destruct (formatDigits_head (Z.to_nat (Z.log2 (- n))) (- n) EmptyString)
    as (d & rest & Hd & Heq).
  rewrite Heq in *. unfold Atoi. rewrite Hdig. cbn [digits].
  rewrite Z.opp_involutive.
  destruct (Z.leb_spec (- 2 ^ 63) n); [|lia].
  destruct (Z.leb_spec n (2 ^ 63 - 1)); [done|lia].
Qed.

Lemma Atoi_formatInt_witness :
  - 2 ^ 63 <= -9223372036854775808 <= 2 ^ 63 - 1 /\
  Atoi (formatInt (-9223372036854775808)) = Some (-9223372036854775808).
Proof. split; [lia|apply Atoi_formatInt; lia]. Defined.

(** X22. What the allocator reads from the informer's metric.  Without a
    client, or when the connector's [PinLs] call fails, the metric is
    invalid and the allocator gets no count from it.  When the call
    answers, the metric is named [numpin], and until ten seconds after
    the reading of the clock the allocator gets the number of pins the
    daemon listed; later it gets nothing. *)
Theorem GetMetric_pinCount npi now later :
  (rpcClient npi = None ->
     Valid (GetMetric npi now) = false /\
     pinCount later (GetMetric npi now) = None) /\
  (forall d e, rpcClient npi = Some d ->
     tracker.IPFSPinLs d "recursive" = inr e ->
     Valid (GetMetric npi now) = false /\
     pinCount later (GetMetric npi now) = None) /\
  (forall d pins, rpcClient npi = Some d ->
     tracker.IPFSPinLs d "recursive" = inl pins ->
     Z.of_nat (size pins) <= 2 ^ 63 - 1 ->
     Name (GetMetric npi now) = NumpinMetricName /\
     Valid (GetMetric npi now) = true /\
     Expire (GetMetric npi now) = now + 10 * tracker.second /\
     pinCount later (GetMetric npi now) =
       if now + 10 * tracker.second <? later then None
       else Some (Z.of_nat (size pins))).
Proof.
  split; [|split].
  - intros Hc. unfold GetMetric. rewrite Hc. split; reflexivity.
  - intros d e Hc He. unfold GetMetric. rewrite Hc, He. split; reflexivity.
  - intros d pins Hc Hp Hsz. unfold GetMetric. rewrite Hc, Hp.
    split; [done|]. split; [done|]. split; [done|].
    unfold pinCount, Discard, Expired, SetTTL. cbn.
    change (NumpinMetricTTL * tracker.second) with (10 * tracker.second).
    destruct (now + 10 * tracker.second <? later); [done|]. cbn.
    apply Atoi_formatInt_nonneg. lia.
Qed.

Lemma GetMetric_pinCount_witness :
  pinCount 5 (GetMetric (Numpin (Some daemonThreePins)) 0) = Some 3.
Proof.
  pose proof (GetMetric_pinCount (Numpin (Some daemonThreePins)) 0 5)
    as (_ & _ & H).
  destruct (H daemonThreePins _ eq_refl eq_refl) as (_ & _ & _ & Hc).
  - vm_compute. discriminate.
  - rewrite Hc. reflexivity.
Defined.

End InformerSpec.

(** ** The peer manager: removing peers and loading the peer list *)

Module PeerManagerMore.
Import peermanager.

Section removal.

Variable removeAddrsOf : list string -> string -> list string.
Variable self : string.

#[local] Abbreviation rm := (rmPeer removeAddrsOf self).

Lemma rm_absent cl p : p ∉ peerSet cl -> rm cl p = (cl, (None, [])).
Proof. intros Hp. unfold rmPeer. by rewrite decide_False. Qed.

(** X23. Removing a peer twice: the second [rmPeer] finds the peer gone,
    changes nothing and calls neither the peerstore, the consensus
    component nor the config. *)
Theorem rmPeer_twice cl p :
  rmPeer removeAddrsOf self (rmPeer removeAddrsOf self cl p).1 p =
    ((rmPeer removeAddrsOf self cl p).1, (None, [])).
Proof.
  apply rm_absent. unfold rmPeer.
  destruct (decide (p ∈ peerSet cl)); cbn; set_unfold; intuition congruence.
Qed.

(** X24. What removing a known peer does.  It returns no error and takes
    the peer, and only it, out of the peer set; it clears the peer's
    addresses and removes it from the consensus peers, in this order and
    before anything else; the config file is saved exactly when the
    config has a path, with the peer list the config ends up with; and a
    shutdown of this peer is scheduled, one second later, exactly when
    the removed peer is this peer itself, in which case the peer list of
    the config ends up empty. *)
Theorem rmPeer_known cl p :
  p ∈ peerSet cl ->
  let cl' := (rmPeer removeAddrsOf self cl p).1 in
  let calls := (rmPeer removeAddrsOf self cl p).2.2 in
  (rmPeer removeAddrsOf self cl p).2.1 = None /\
  peerSet cl' = peerSet cl ∖ {[p]} /\
  path (config cl') = path (config cl) /\
  (exists more,
     calls = PeerstoreClearAddrs p :: ConsensusRemovePeer p :: more) /\
  (forall f l, Made (ConfigSave f l) ∈ calls <->
     f = path (config cl) /\ f <> "" /\ l = ClusterPeers (config cl')) /\
  (forall d, SelfShutdownAfter d ∈ calls <->
     p = self /\ d = tracker.second) /\
  (p = self -> ClusterPeers (config cl') = []).
Proof.
  intros Hp. unfold rmPeer. rewrite decide_True by done.
  destruct (String.eqb_spec p self) as [Heq|Hne];
    destruct (String.eqb_spec (path (config cl)) "") as [Hpath|Hpath];
    cbn -[tracker.second]; rewrite ?Hpath; cbn -[tracker.second];
    try (destruct (String.eqb_spec (path (config cl)) "") as [?|_];
         [done|]; cbn -[tracker.second]);
    (split; [done|]); (split; [done|]); (split; [done|]);
    (split; [eexists; reflexivity|]);
    (split; [|split]); try done; intros;
    rewrite ?elem_of_cons, ?elem_of_nil; split; intros; intuition congruence.
Qed.

End removal.

Section membership.

Variable ValueForProtocol_IPFS : string -> string + string.
Variable Decapsulate_IPFS : string -> string -> string.
Variable IDB58Decode : string -> string + string.
Variable self : string.

#[local] Abbreviation split :=
  (multiaddrSplit ValueForProtocol_IPFS Decapsulate_IPFS IDB58Decode).
#[local] Abbreviation add :=
  (addPeer ValueForProtocol_IPFS Decapsulate_IPFS IDB58Decode).
#[local] Abbreviation idOf' :=
  (idOf ValueForProtocol_IPFS Decapsulate_IPFS IDB58Decode).
#[local] Abbreviation loop :=
  (addFromMultiaddrs_loop ValueForProtocol_IPFS Decapsulate_IPFS IDB58Decode).
#[local] Abbreviation load :=
  (addFromMultiaddrs ValueForProtocol_IPFS Decapsulate_IPFS IDB58Decode self).

Lemma add_split_ok cl addr p d :
  split addr = inl (p, d) ->
  (add cl addr).2 = (p, None) /\
  peerSet (add cl addr).1 = {[p]} ∪ peerSet cl /\
  consensus (add cl addr).1 = consensus cl /\
  path (config (add cl addr).1) = path (config cl) /\
  (forall a, a ∈ ClusterPeers (config (add cl addr).1) ->
     a ∈ ClusterPeers (config cl) \/ a = addr).
Proof.
  intros Hs. unfold addPeer. rewrite Hs.
  destruct (decide (p ∈ peerSet cl)) as [Hin|Hout]; cbn.
  - repeat split; [set_unfold; intuition congruence|tauto].
  - repeat split. intros a [Ha|Ha]%elem_of_app; [tauto|].
    right. by apply list_elem_of_singleton in Ha.
Qed.

Lemma add_split_err cl addr e :
  split addr = inr e -> add cl addr = (cl, ("", Some e)).
Proof. intros Hs. unfold addPeer. by rewrite Hs. Qed.

Lemma idOf_Some addr p :
  idOf' addr = Some p -> exists d, split addr = inl (p, d).
Proof.
  unfold idOf. destruct (split addr) as [[q d]|e]; [|done].
  intros [= ->]. by exists d.
Qed.

Lemma idOf_None addr e : split addr = inr e -> idOf' addr = None.
Proof. unfold idOf. by intros ->. Qed.

Lemma loop_all_split addrs : forall cl,
  Forall (fun a => is_Some (idOf' a)) addrs ->
  (loop cl addrs).2 = None /\
  peerSet (loop cl addrs).1 = peerSet cl ∪ list_to_set (omap idOf' addrs) /\
  consensus (loop cl addrs).1 = consensus cl /\
  path (config (loop cl addrs).1) = path (config cl) /\
  (forall a, a ∈ ClusterPeers (config (loop cl addrs).1) ->
     a ∈ ClusterPeers (config cl) \/ a ∈ addrs).
Proof.
  induction addrs as [|m rest IH]; intros cl Hall.
  - cbn. repeat split; [set_unfold; intuition congruence|tauto].
  - apply Forall_cons in Hall as [[p Hp] Hrest].
    destruct (idOf_Some _ _ Hp) as [d Hs].
    destruct (add_split_ok cl m p d Hs) as (Hr & Hps & Hc & Hpath & Hcfg).
    cbn [addFromMultiaddrs_loop omap list_omap]. rewrite Hp.
    destruct (add cl m) as [cl' [pid err]] eqn:Hadd. cbn in Hr.
    injection Hr as -> ->. cbn [fst] in *.
    destruct (IH cl' Hrest) as (IH1 & IH2 & IH3 & IH4 & IH5).
    split; [done|]. split; [rewrite IH2, Hps; set_unfold; intuition congruence|].
    split; [congruence|]. split; [congruence|].
    intros a Ha. destruct (IH5 a Ha) as [Ha'|Ha'].
    + destruct (Hcfg a Ha') as [?| ->]; [by left|right; left].
    + right. by right.
Qed.

Lemma loop_stops good : forall cl bad rest e,
  Forall (fun a => is_Some (idOf' a)) good ->
  split bad = inr e ->
  loop cl (good ++ bad :: rest) = ((loop cl good).1, Some e).
Proof.
  induction good as [|m good IH]; intros cl bad rest e Hall Hbad.
  - cbn. by rewrite (add_split_err _ _ _ Hbad).
  - apply Forall_cons in Hall as [[p Hp] Hgood].
    destruct (idOf_Some _ _ Hp) as [d Hs].
    destruct (add_split_ok cl m p d Hs) as (Hr & _).
    cbn [app addFromMultiaddrs_loop].
    destruct (add cl m) as [cl' [pid err]]. cbn in Hr.
    injection Hr as -> ->. by apply IH.
Qed.

(** X25. Loading a peer list in which every address splits: the call
    succeeds, and the peer set is this peer together with the peers of
    the addresses, whatever it was before; the config keeps its path and
    lists only addresses of the list. *)
Theorem addFromMultiaddrs_all cl addrs :
  let r := addFromMultiaddrs ValueForProtocol_IPFS Decapsulate_IPFS
             IDB58Decode self cl addrs in
  Forall (fun a => is_Some (idOf' a)) addrs ->
  r.2 = None /\
  peerSet r.1 = {[self]} ∪ list_to_set (omap idOf' addrs) /\
  path (config r.1) = path (config cl) /\
  (forall a, a ∈ ClusterPeers (config r.1) -> a ∈ addrs).
Proof.
  intros r Hall. unfold r, addFromMultiaddrs.
  match goal with |- context [loop ?c addrs] =>
    destruct (loop_all_split addrs c Hall) as (H1 & H2 & _ & H4 & H5) end.
  split; [done|]. split; [done|]. split; [done|].
  intros a Ha. destruct (H5 a Ha) as [Hn|?]; [|done].
  cbn in Hn. by apply elem_of_nil in Hn.
Qed.

(** X26. Loading a peer list stops at the first address that does not
    split: the error of that address is returned, the peers of the
    addresses before it have been added to this peer, and the addresses
    after it are never looked at. *)
Theorem addFromMultiaddrs_stops cl good bad rest e :
  let r := addFromMultiaddrs ValueForProtocol_IPFS Decapsulate_IPFS
             IDB58Decode self cl (good ++ bad :: rest) in
  Forall (fun a => is_Some (idOf' a)) good ->
  multiaddrSplit ValueForProtocol_IPFS Decapsulate_IPFS IDB58Decode bad
    = inr e ->
  r.2 = Some e /\
  r.1 = (load cl good).1 /\
  peerSet r.1 = {[self]} ∪ list_to_set (omap idOf' good).
Proof.
  intros r Hall Hbad. unfold r, addFromMultiaddrs.
  rewrite (loop_stops good _ bad rest e Hall Hbad). cbn [fst snd].
  split; [done|]. split; [done|].
  match goal with |- context [loop ?c good] =>
    destruct (loop_all_split good c Hall) as (_ & H2 & _) end.
  done.
Qed.

(** X27. Adding a new peer and removing it again leaves the peer set as
    it was, and adding it once more makes it a peer again. *)
Theorem addPeer_rmPeer_roundtrip removeAddrsOf cl addr p d :
  split addr = inl (p, d) -> p ∉ peerSet cl ->
  let added := (add cl addr).1 in
  let removed := (rmPeer removeAddrsOf self added p).1 in
  p ∈ peerSet added /\
  peerSet removed = peerSet cl /\
  p ∈ peerSet (add removed addr).1.
Proof.
  intros Hs Hp added removed.
  destruct (add_split_ok cl addr p d Hs) as (_ & Hps & _).
  assert (Hin : p ∈ peerSet added).
  { unfold added. rewrite Hps. apply elem_of_union. left.
    by apply elem_of_singleton. }
  assert (Hrm : peerSet removed = peerSet added ∖ {[p]}).
  { unfold removed, rmPeer. by rewrite decide_True. }
  split; [done|]. split.
  - rewrite Hrm. unfold added. rewrite Hps. apply set_eq. intros x.
    rewrite elem_of_difference, elem_of_union, elem_of_singleton.
    split; [tauto|]. intros Hx. split; [by right|]. by intros ->.
  - destruct (add_split_ok removed addr p d Hs) as (_ & Hps' & _).
    rewrite Hps'. apply elem_of_union. left. by apply elem_of_singleton.
Qed.

End membership.

Lemma rmPeer_known_witness :
  let cl := {| peerSet := {["QmPeerA"; "QmPeerB"]};
               config := {| ClusterPeers := [sampleAddr];
                            path := "service.json" |};
               consensus := true; effects := [] |} in
  (rmPeer sampleRemoveAddrsOf "QmPeerA" cl "QmPeerB").2 =
  (None, [PeerstoreClearAddrs "QmPeerB"; ConsensusRemovePeer "QmPeerB";
          Made (ConfigSave "service.json" [])]) /\
  peerSet (rmPeer sampleRemoveAddrsOf "QmPeerA" cl "QmPeerB").1 =
    peerSet cl ∖ {["QmPeerB"]}.
Proof.
  intros cl.
  split; [reflexivity|].
  apply (rmPeer_known sampleRemoveAddrsOf "QmPeerA" cl "QmPeerB").
  set_solver.
Defined.

Lemma addPeer_rmPeer_roundtrip_witness :
  peerSet (rmPeer sampleRemoveAddrsOf "QmPeerA"
     (addPeer sampleValueForProtocol sampleDecapsulate sampleIDB58Decode
        sampleCluster sampleAddr).1 "QmPeerB").1 = peerSet sampleCluster.
Proof.
  apply (addPeer_rmPeer_roundtrip sampleValueForProtocol sampleDecapsulate
           sampleIDB58Decode "QmPeerA" sampleRemoveAddrsOf sampleCluster
           sampleAddr "QmPeerB" "/ip4/10.0.0.2/tcp/9096").
  - reflexivity.
  - cbn. set_solver.
Defined.

Lemma addFromMultiaddrs_all_witness :
  peerSet (addFromMultiaddrs sampleValueForProtocol sampleDecapsulate
     sampleIDB58Decode "QmPeerA" sampleCluster [sampleAddr]).1 =
  {["QmPeerA"]} ∪ list_to_set
    (omap (idOf sampleValueForProtocol sampleDecapsulate sampleIDB58Decode)
       [sampleAddr]).
Proof.
  apply (addFromMultiaddrs_all sampleValueForProtocol sampleDecapsulate
           sampleIDB58Decode "QmPeerA" sampleCluster [sampleAddr]).
  repeat constructor. by eexists.
Defined.

Lemma addFromMultiaddrs_stops_witness :
  (addFromMultiaddrs sampleValueForProtocol sampleDecapsulate
     sampleIDB58Decode "QmPeerA" sampleCluster
     [sampleAddr; "/ip4/10.0.0.3/tcp/9096"; sampleAddr]).2 =
  Some "protocol not found in multiaddr".
Proof.
  apply (addFromMultiaddrs_stops sampleValueForProtocol sampleDecapsulate
           sampleIDB58Decode "QmPeerA" sampleCluster [sampleAddr]
           "/ip4/10.0.0.3/tcp/9096" [sampleAddr]
           "protocol not found in multiaddr").
  - repeat constructor. by eexists.
  - reflexivity.
Defined.

End PeerManagerMore.

(** ** The consensus component: redirection and what goes over the wire *)

Module ConsensusMore.
Import api cluster ConsensusSpec.

(** X28. The cases of [redirectToLeader].  The operation counts as
    redirected exactly when an RPC was made, and there is at most one,
    with the given method and argument; its error is the error returned.
    The RPC is addressed to the ID that the query for the leader
    returned, which is not the ID of this peer.  That does not make it a
    call to another peer: when the query failed and the wait for a leader
    succeeded, the ID the failed query returned is still the one that is
    called, whatever it is, the empty ID (for the RPC client the local
    peer) included.  The wait for a leader happens exactly when the query
    for the leader failed, with the timeout of 15 s; when the wait fails
    its error is returned and nothing else is done.  A call that is
    neither redirected nor failed got the ID of this peer from the
    query. *)
Theorem redirectToLeader_cases (hostID : string) (a : Answers)
    (method : string) (arg : CidArgSerial) :
  let r := redirectToLeader hostID a method arg in
  let leader := (ansLeader a).1 in
  (r.1.1 = true <-> EvCall leader method arg ∈ r.2) /\
  (forall dest m x, EvCall dest m x ∈ r.2 ->
     dest = leader /\ dest <> hostID /\ m = method /\ x = arg /\
     r.1 = (true, ansCall a)) /\
  (forall e, (ansLeader a).2 = Some e -> ansWaitForLeader a = None ->
     leader <> hostID ->
     r = ((true, ansCall a),
          [EvLeader; EvWaitForLeader LeaderTimeout;
           EvCall leader method arg])) /\
  (forall t, EvWaitForLeader t ∈ r.2 <->
     (ansLeader a).2 <> None /\ t = LeaderTimeout) /\
  (forall e, (ansLeader a).2 <> None -> ansWaitForLeader a = Some e ->
     r = ((false, Some e), [EvLeader; EvWaitForLeader LeaderTimeout])) /\
  (r.1 = (false, None) -> leader = hostID) /\
  (forall o, EvCommitOp o ∉ r.2) /\
  countEv (fun e => match e with EvCall _ _ _ => true | _ => false end) r.2
    = (if r.1.1 then 1 else 0)%nat.
Proof.
  unfold redirectToLeader.
  destruct (ansLeader a) as [leader [e|]]; cbn [fst snd];
    [destruct (ansWaitForLeader a) as [e'|]|];
    try destruct (String.eqb_spec leader hostID) as [Heq|Hne];
    cbn -[LeaderTimeout];
    repeat match goal with |- _ /\ _ => split end;
    try done; intros;
    rewrite ?elem_of_cons, ?elem_of_nil in *;
    try (intuition congruence).
Qed.

(** The empty ID after a failed query: the operation is "redirected" by
    a call that the RPC client makes on the local peer. *)
Example redirectToLeader_empty_leader :
  redirectToLeader "A"
    {| ansLeader := ("", Some "no leader"); ansWaitForLeader := None;
       ansCall := None; ansCommitOp := None |}
    "ConsensusLogPin" (ToSerial (tracker.cargLocal "c1")) =
  ((true, None),
   [EvLeader; EvWaitForLeader LeaderTimeout;
    EvCall "" "ConsensusLogPin" (ToSerial (tracker.cargLocal "c1"))]).
Proof. reflexivity. Qed.

Section traffic.

Variables (hostID rpcOp : string) (opType : LogOpType) (carg : CidArg).
Variable env : nat -> Answers.

#[local] Abbreviation loop := (logOpCid_loop hostID env rpcOp opType carg).

#[local] Abbreviation okEvent := (cluster.okEvent hostID rpcOp opType carg).

Lemma turn_ok a : Forall okEvent (turnEvents hostID rpcOp opType carg a).
Proof.
  unfold turnEvents, redirectToLeader.
  destruct (ansLeader a) as [leader [e|]];
    [destruct (ansWaitForLeader a) as [e'|]|];
    try destruct (String.eqb_spec leader hostID) as [Heq|Hne];
    cbn; try destruct (ansCall a); try destruct (ansCommitOp a); cbn;
    repeat constructor; done.
Qed.

Lemma turn_final a :
  turnError hostID rpcOp carg a = None ->
  exists pre last,
    turnEvents hostID rpcOp opType carg a = pre ++ [last] /\ finalEvent last.
Proof.
  unfold turnError, turnEvents, redirectToLeader.
  destruct (ansLeader a) as [leader [e|]];
    [destruct (ansWaitForLeader a) as [e'|]|];
    try destruct (String.eqb_spec leader hostID) as [Heq|Hne];
    cbn; try destruct (ansCall a); try destruct (ansCommitOp a); cbn;
    try done; intros _;
    first
      [ by exists [EvLeader; EvWaitForLeader LeaderTimeout],
          (EvCommitOp (op carg opType))
      | by exists [EvLeader; EvWaitForLeader LeaderTimeout],
          (EvCall leader rpcOp (ToSerial carg))
      | by exists [EvLeader], (EvCommitOp (op carg opType))
      | by exists [EvLeader], (EvCall leader rpcOp (ToSerial carg)) ].
Qed.

Lemma loop_ok n : forall i finalErr evs,
  Forall okEvent evs -> Forall okEvent (loop n i finalErr evs).2.
Proof.
  induction n as [|n IH]; intros i finalErr evs Hevs; [done|].
  rewrite loop_S.
  assert (Forall okEvent (evs ++ turnEvents hostID rpcOp opType carg (env i)))
    by (apply Forall_app; split; [done|apply turn_ok]).
  destruct (turnError hostID rpcOp carg (env i)); [by apply IH|done].
Qed.

Lemma loop_nil n : forall i finalErr evs,
  (loop n i finalErr evs).1 = None ->
  (n = O /\ finalErr = None) \/
  exists pre last, (loop n i finalErr evs).2 = pre ++ [last] /\ finalEvent last.
Proof.
  induction n as [|n IH]; intros i finalErr evs; [by left|].
  rewrite loop_S.
  destruct (turnError hostID rpcOp carg (env i)) as [e|] eqn:Hturn.
  - intros Hnil. right. by destruct (IH _ _ _ Hnil) as [[_ ?]|?].
  - intros _. right.
    destruct (turn_final _ Hturn) as (pre & last & -> & Hlast).
    exists (evs ++ pre), last. by rewrite (assoc_L (++)).
Qed.

End traffic.

(** X29. What [LogPin] and [LogUnpin] send.  Every RPC they make has
    the method [ConsensusLogPin] (or [ConsensusLogUnpin]) and the
    serialised argument, from which the receiver gets the argument back,
    and is addressed to an ID that is not the ID of this peer (which may
    still be the empty ID, see [redirectToLeader]); every operation they
    commit is the Pin (or Unpin) of that argument.  When they return nil
    after at least one turn, the last thing they did was such an RPC or
    commit; with no retries allowed they return nil and have done
    nothing. *)
Theorem LogPin_LogUnpin_traffic (retries : Z) (hostID : string)
    (env : nat -> Answers) (c : CidArg) :
  let p := LogPin retries hostID env c in
  let u := LogUnpin retries hostID env c in
  (forall dest m x, EvCall dest m x ∈ p.2 ->
     dest <> hostID /\ m = "ConsensusLogPin" /\ ToCidArg x = c) /\
  (forall dest m x, EvCall dest m x ∈ u.2 ->
     dest <> hostID /\ m = "ConsensusLogUnpin" /\ ToCidArg x = c) /\
  (forall o, EvCommitOp o ∈ p.2 ->
     op_Type o = LogOpPin /\ ToCidArg (op_Cid o) = c) /\
  (forall o, EvCommitOp o ∈ u.2 ->
     op_Type o = LogOpUnpin /\ ToCidArg (op_Cid o) = c) /\
  (0 < retries -> p.1 = None ->
     exists pre last, p.2 = pre ++ [last] /\
       match last with
       | EvCall _ _ _ | EvCommitOp _ => True
       | _ => False
       end) /\
  (0 < retries -> u.1 = None ->
     exists pre last, u.2 = pre ++ [last] /\
       match last with
       | EvCall _ _ _ | EvCommitOp _ => True
       | _ => False
       end) /\
  (retries <= 0 -> p = (None, []) /\ u = (None, [])).
Proof.
  intros p u.
  assert (Hp : Forall (cluster.okEvent hostID "ConsensusLogPin" LogOpPin c)
                 p.2) by (by apply loop_ok).
  assert (Hu : Forall (cluster.okEvent hostID "ConsensusLogUnpin" LogOpUnpin c)
                 u.2) by (by apply loop_ok).
  rewrite Forall_forall in Hp, Hu.
  pose proof (StateMore.ToCidArg_ToSerial c) as Hrt.
  split; [|split; [|split; [|split; [|split; [|split]]]]].
  - intros dest m x Hin. destruct (Hp _ Hin) as (? & ? & ->). done.
  - intros dest m x Hin. destruct (Hu _ Hin) as (? & ? & ->). done.
  - intros o Hin. by rewrite (Hp _ Hin).
  - intros o Hin. by rewrite (Hu _ Hin).
  - intros Hr Hnil.
    destruct (loop_nil hostID "ConsensusLogPin" LogOpPin c env _ _ _ _ Hnil)
      as [[Hz _]|Hfin]; [lia|].
    destruct Hfin as (pre & last & Heq & Hlast). by exists pre, last.
  - intros Hr Hnil.
    destruct (loop_nil hostID "ConsensusLogUnpin" LogOpUnpin c env _ _ _ _
                Hnil) as [[Hz _]|Hfin]; [lia|].
    destruct Hfin as (pre & last & Heq & Hlast). by exists pre, last.
  - intros Hr. unfold p, u, LogPin, LogUnpin, logOpCid.
    by replace (Z.to_nat retries) with O by lia.
Qed.

Lemma LogPin_LogUnpin_traffic_witness :
  exists pre last,
    (LogPin CommitRetries "A" envSecondTry (tracker.cargLocal "c1")).2
      = pre ++ [last].
Proof.
  destruct (LogPin_LogUnpin_traffic CommitRetries "A" envSecondTry
              (tracker.cargLocal "c1")) as (_ & _ & _ & _ & H & _).
  destruct H as (pre & last & Heq & _); [done|reflexivity|].
  by exists pre, last.
Defined.

End ConsensusMore.

(** ** The REST API: requests that name a CID *)

Module RestSpec.
Import api restapi.

(** X30. Every route with a {hash} answers a request exactly once,
    provided the CID library rejects the empty string.  When the hash
    does not decode the answer is 400 with the decoding error and no RPC
    is made.  Otherwise one RPC is made, of the method that has the name
    of the route, with an argument that carries the hash and nothing
    else; when it fails the answer is 500 with its error; when it
    succeeds the answer is 202 without a body for Pin and Unpin, and 200
    with the reply for Status, Sync and Recover. *)
Theorem hash_routes_answer (cid_Decode : string -> option string)
    (rpcCall : string -> CidArgSerial -> string * option string)
    (name method pattern : string) (handler : Handler) (hash : string) :
  cid_Decode "" <> None ->
  (name, method, pattern, handler) ∈ hashRoutes cid_Decode rpcCall ->
  let calls := (handler [] hash).1 in
  let w := (handler [] hash).2 in
  match cid_Decode hash with
  | Some e =>
      calls = [] /\
      w = [WriteHeader 400;
           Encode (ErrorResp 400 ("error decoding Cid: " ++ e)%string)]
  | None =>
      calls = [(name, serialOf hash)] /\
      match rpcCall name (serialOf hash) with
      | (_, Some e) => w = [WriteHeader 500; Encode (ErrorResp 500 e)]
      | (reply, None) =>
          w = if bool_decide (name ∈ ["Pin"; "Unpin"])
              then [WriteHeader 202]
              else [WriteHeader 200; Encode (Reply reply)]
      end
  end.
Proof.
  intros Hempty Hin. unfold hashRoutes in Hin.
  rewrite !elem_of_cons, elem_of_nil in Hin.
  assert (Hne : cid_Decode hash = None -> String.eqb hash "" = false).
  { intros Hd. destruct (String.eqb_spec hash ""); [congruence|done]. }
  destruct Hin as [Hin|[Hin|[Hin|[Hin|[Hin|[]]]]]];
    injection Hin as -> -> -> ->; cbv zeta;
    unfold statusHandler, pinHandler, unpinHandler, syncHandler,
      recoverHandler, parseCidOrError;
    (destruct (cid_Decode hash) as [e|] eqn:Hd; [by cbn|]);
    cbn [serialOf ser_Cid]; rewrite (Hne eq_refl); cbn [negb];
    destruct (rpcCall _ (serialOf hash)) as [reply [e|]]; by cbn.
Qed.

Lemma hash_routes_answer_witness :
  (statusHandler sampleDecode sampleCall [] "zz").1 = [] /\
  (statusHandler sampleDecode sampleCall [] "zz").2 =
    [WriteHeader 400;
     Encode (ErrorResp 400
               "error decoding Cid: selected encoding not supported")].
Proof.
  apply (hash_routes_answer sampleDecode sampleCall
           "Status" "GET" "/pins/{hash}"
           (statusHandler sampleDecode sampleCall) "zz").
  - discriminate.
  - unfold hashRoutes. apply elem_of_cons. by left.
Defined.

End RestSpec.
